(** * useSpriteLoader: the sprite-sheet parser of [src/core/useSpriteLoader.tsx]

    A shallow embedding of the pure part of the hook: empty-frame detection
    ([checkIfFrameIsEmpty]), grid inference ([getRowsAndColumns]), grouping by
    animation name ([parseFrames]), the manifest built from an inferred grid
    and the parse of a loaded manifest ([parseSpriteData], [getFirstItem]),
    scale-ratio normalisation ([calculateScaleRatio]), the aspect vector
    ([calculateAspectRatio]) and the requests the loaders make
    ([loadStandaloneSprite], [loadJsonAndTexture], the layout effect).

    Conventions of the embedding:
    - a JavaScript [number] is a binary64 value, Rocq's primitive [float];
      [*], [/], [Math.sqrt], [<], [>=] and [===] are the IEEE operations;
    - a [Uint8ClampedArray] is a [list byte];
    - a JavaScript string is a [string]; the parser only compares strings,
      asks whether one occurs in another and lower-cases them, so the bytes
      may be read as the UTF-8 form of the string. [toLowerCase] is the
      platform's and a parameter of the embedding ([CaseMapping]), known on
      strings of ASCII characters ([ascii_folding]);
    - a manifest in hash form is an association list, in key-iteration order;
      the object the parser fills by name is a finite map of its own
      properties together with its prototype, which the name [__proto__]
      replaces; its own keys are listed as [Object.keys] lists them, array
      indices first;
    - a [for] loop is a recursion on fuel whose counter is the [number] the
      source increments; a [throw] is the [Throw] outcome;
    - a load is the list of the requests it makes, in order. *)

From Stdlib Require Import ZArith List String Ascii Bool Lia Floats Reals Lra.
From Stdlib Require Import DecimalString.
From Stdlib.Strings Require Import Byte.
From stdpp Require Import base option gmap strings.
Import ListNotations.

Local Open Scope Z_scope.

(** ** Outcomes of a call *)

Inductive error : Type :=
| ContextUnavailable   (* new Error('Failed to get 2d context') *)
| TypeError            (* property read on undefined *)
| HostError (code : nat). (* an exception of the canvas API *)

Inductive outcome (A : Type) : Type :=
| Ok (a : A)
| Throw (e : error)
| OutOfFuel.
Arguments Ok {A} a.
Arguments Throw {A} e.
Arguments OutOfFuel {A}.

Definition bind {A B : Type} (o : outcome A) (k : A -> outcome B) : outcome B :=
  match o with
  | Ok a => k a
  | Throw e => Throw e
  | OutOfFuel => OutOfFuel
  end.

Declare Scope outcome_scope.
Delimit Scope outcome_scope with outcome.
Notation "x <- o ;; k" := (bind o (fun x => k))
  (at level 100, o at next level, right associativity) : outcome_scope.
Local Open Scope outcome_scope.

(** ** Data model *)

Module Rect.
Record t : Type := mk { x : float; y : float; w : float; h : float }.
End Rect.

Module Size.
Record t : Type := mk { w : float; h : float }.
End Size.

(** [FrameData]; [filename] is the string the array form of a manifest
    carries ([None] when the field is absent or not a string). *)
Record FrameData : Type := {
  frame : Rect.t;
  rotated : bool;
  trimmed : bool;
  spriteSourceSize : Rect.t;
  sourceSize : Size.t;
  filename : option string
}.

Record MetaData : Type := {
  version : string;
  size : Size.t;
  meta_rows : float;
  meta_columns : float;
  meta_frameWidth : float;
  meta_frameHeight : float;
  scale : string
}.

Record SpriteMetaDimension : Type := { row : float; col : float }.

(** Anything with a [frame] rectangle can be normalised. *)
Class HasFrame (A : Type) : Type := frame_of : A -> Rect.t.

#[export] Instance FrameData_HasFrame : HasFrame FrameData := frame.

(** [{...frame, scaleRatio}]: a copy of the frame with one more field. *)
Record Scaled (A : Type) : Type := { base : A; scaleRatio : float }.
Arguments base {A} s.
Arguments scaleRatio {A} s.
Arguments Build_Scaled {A} base scaleRatio.

(** ** checkIfFrameIsEmpty *)

(** [for (let i = 3; i < frameData.length; i += 4)], with the array length as
    fuel: the counter grows by four each turn. *)
Fixpoint checkIfFrameIsEmpty_from (fuel : nat) (frameData : list byte) (i : nat) : bool :=
  match fuel with
  | O => true
  | S fuel' =>
      if (i <? length frameData)%nat then
        if negb (Byte.eqb (nth i frameData x00) x00) then false
        else checkIfFrameIsEmpty_from fuel' frameData (i + 4)
      else true
  end.

Definition checkIfFrameIsEmpty (frameData : list byte) : bool :=
  checkIfFrameIsEmpty_from (length frameData) frameData 3.

(** ** calculateScaleRatio *)

Definition area {A : Type} `{HasFrame A} (f : A) : float :=
  (Rect.w (frame_of f) * Rect.h (frame_of f))%float.

Record Largest : Type := { largest_w : float; largest_h : float; largest_area : float }.

Section ProcessFrameArray.
Context {A : Type} `{HasFrame A}.

(** One turn of [for (const frame of frameArray)]. *)
Definition largest_step (largestFrame : option Largest) (f : A) : option Largest :=
  let w := Rect.w (frame_of f) in
  let h := Rect.h (frame_of f) in
  let area := (w * h)%float in
  match largestFrame with
  | None => Some {| largest_w := w; largest_h := h; largest_area := area |}
  | Some l =>
      if (largest_area l <? area)%float
      then Some {| largest_w := w; largest_h := h; largest_area := area |}
      else largestFrame
  end.

Definition find_largest (frameArray : list A) : option Largest :=
  fold_left largest_step frameArray None.

Definition scale_of (largestFrame : option Largest) (f : A) : float :=
  let w := Rect.w (frame_of f) in
  let h := Rect.h (frame_of f) in
  let area := (w * h)%float in
  match largestFrame with
  | Some l => if (area =? largest_area l)%float then 1%float
              else PrimFloat.sqrt (area / largest_area l)
  | None => 1%float
  end.

Definition processFrameArray (frameArray : list A) : list (Scaled A) :=
  let largestFrame := find_largest frameArray in
  map (fun f => {| base := f; scaleRatio := scale_of largestFrame f |}) frameArray.
End ProcessFrameArray.

(** The argument of [calculateScaleRatio]: an array of frames or a record of
    arrays. *)
Inductive Frames (A : Type) : Type :=
| FrameArray (l : list A)
| FrameRecord (r : gmap string (list A)).
Arguments FrameArray {A} l.
Arguments FrameRecord {A} r.

Definition calculateScaleRatio {A : Type} `{HasFrame A} (frames : Frames A) : Frames (Scaled A) :=
  match frames with
  | FrameArray l => FrameArray (processFrameArray l)
  | FrameRecord r => FrameRecord (processFrameArray <$> r)
  end.

(** The array [calculateScaleRatio] returns when it is given an array. *)
Definition scaled_array {A : Type} `{HasFrame A} (frameArray : list A) : list (Scaled A) :=
  match calculateScaleRatio (FrameArray frameArray) with
  | FrameArray l => l
  | FrameRecord _ => []
  end.

(** ** Strings: toLowerCase and indexOf *)

(** What [toLowerCase] does to a character of ASCII: the letters A-Z move 32
    places up, to a-z. *)
Definition lower_ascii (c : ascii) : ascii :=
  let n := nat_of_ascii c in
  if ((65 <=? n) && (n <=? 90))%nat then ascii_of_nat (n + 32) else c.

Fixpoint ascii_lower (s : string) : string :=
  match s with
  | EmptyString => EmptyString
  | String c s' => String (lower_ascii c) (ascii_lower s')
  end.

(** A string of ASCII characters only. *)
Fixpoint ascii_only (s : string) : bool :=
  match s with
  | EmptyString => true
  | String c s' => (nat_of_ascii c <? 128)%nat && ascii_only s'
  end.

(** [String.prototype.toLowerCase] belongs to the platform: it follows the
    case tables of Unicode, which the source does not hold. It is taken as a
    parameter. On a string of ASCII characters it is [ascii_lower], which is
    what [ascii_folding] says of a mapping; where nothing is assumed of it a
    statement holds of any function on strings. *)
Class CaseMapping : Type := toLowerCase : string -> string.

Definition ascii_folding (lower : CaseMapping) : Prop :=
  forall s, ascii_only s = true -> @toLowerCase lower s = ascii_lower s.

(** The mapping of the examples: it lower-cases the letters of ASCII and
    leaves every other character alone. *)
#[export] Instance ascii_mapping : CaseMapping := ascii_lower.

(** [s.indexOf(searchString)]: the first position at which [searchString]
    occurs in [s], and -1 when there is none. The parser only asks whether
    the result is -1. *)
Fixpoint indexOf_from (s searchString : string) (pos : Z) : Z :=
  if String.prefix searchString s then pos
  else match s with
       | EmptyString => -1
       | String _ s' => indexOf_from s' searchString (pos + 1)
       end.

Definition indexOf (s searchString : string) : Z := indexOf_from s searchString 0.

(** [key.toLowerCase().indexOf(name.toLowerCase()) !== -1] *)
Definition matches_name `{CaseMapping} (key name : string) : bool :=
  negb (indexOf (toLowerCase key) (toLowerCase name) =? -1).

(** ** parseFrames *)

(** A value of the manifest's [frames] object: a frame, or an array of frames
    as the declared type [Record<string, FrameData[]>] has it. *)
Inductive HashEntry : Type :=
| Single (f : FrameData)
| Group (fs : list FrameData).

Inductive RawFrames : Type :=
| ArrayForm (l : list FrameData)
| HashForm (l : list (string * HashEntry)).

Record SpriteData : Type := { frames : RawFrames; meta : MetaData }.

(** The object literal [parseFrames] pushes into a bucket. *)
Record GroupedFrame : Type := {
  g_x : float;
  g_y : float;
  g_w : float;
  g_h : float;
  g_frame : Rect.t;
  g_sourceSize : Size.t
}.

#[export] Instance GroupedFrame_HasFrame : HasFrame GroupedFrame := g_frame.

(** A bucket is an array; after grouping, its property [frame] holds the
    normalised copy of the array. *)
Record Bucket : Type := {
  bucket_items : list GroupedFrame;
  bucket_frame : list (Scaled GroupedFrame)
}.

(** What [parseFrames] returns: the object [sprites] with a bucket under each
    of its own keys, the same over an array that was made its prototype, or
    one array of frames. *)
Inductive Parsed : Type :=
| Sprites (sprites : gmap string Bucket)
| Inheriting (prototype : list GroupedFrame) (sprites : gmap string Bucket)
| Flat (spritesArr : list (Scaled FrameData)).

Definition grouped (value : FrameData) : GroupedFrame :=
  let frameData := frame value in
  {| g_x := Rect.x frameData;
     g_y := Rect.y frameData;
     g_w := Rect.w frameData;
     g_h := Rect.h frameData;
     g_frame := frameData;
     g_sourceSize := Size.mk (Size.w (sourceSize value)) (Size.h (sourceSize value)) |}.

(** [for (const value of data['frames'])], array form, for one delimiter. *)
Fixpoint scan_array `{CaseMapping} (delimiter : string) (l : list FrameData)
    : list GroupedFrame :=
  match l with
  | [] => []
  | value :: rest =>
      match filename value with
      | Some name =>
          if matches_name name delimiter then grouped value :: scan_array delimiter rest
          else scan_array delimiter rest
      | None => scan_array delimiter rest
      end
  end.

(** [for (const innerKey in data['frames'])], hash form, for one delimiter:
    [value['frame']] of an array is undefined, and reading its [x] throws. *)
Fixpoint scan_hash `{CaseMapping} (delimiter : string) (l : list (string * HashEntry))
    : outcome (list GroupedFrame) :=
  match l with
  | [] => Ok []
  | (innerKey, Single value) :: rest =>
      rest' <- scan_hash delimiter rest ;;
      Ok (if matches_name innerKey delimiter then grouped value :: rest' else rest')
  | (_, Group _) :: _ => Throw TypeError
  end.

Definition scan `{CaseMapping} (data_frames : RawFrames) (delimiter : string)
    : outcome (list GroupedFrame) :=
  match data_frames with
  | ArrayForm l => Ok (scan_array delimiter l)
  | HashForm l => scan_hash delimiter l
  end.

(** The object [sprites] while it is filled: its own properties and, once
    [sprites['__proto__'] = []] has run, the array that is its prototype.
    [sprites] starts as the literal [{}], on which an assignment under the
    name [__proto__] creates no property: it makes the value assigned the
    prototype of the object, and a read under that name yields it. *)
Record SpritesObject : Type := {
  own : gmap string (list GroupedFrame);
  prototype : option (list GroupedFrame)
}.

Definition proto_name : string := "__proto__".

(** [sprites[delimiter] = []] followed by the pushes of one scan. *)
Definition assign_bucket (delimiter : string) (bucket : list GroupedFrame)
    (sprites : SpritesObject) : SpritesObject :=
  if String.eqb delimiter proto_name
  then {| own := own sprites; prototype := Some bucket |}
  else {| own := <[delimiter := bucket]> (own sprites); prototype := prototype sprites |}.

(** [for (let i = 0; i < delimiters.length; i++) { sprites[delimiters[i]] = []; ... }] *)
Fixpoint group_all `{CaseMapping} (data_frames : RawFrames) (delimiters : list string)
    (sprites : SpritesObject) : outcome SpritesObject :=
  match delimiters with
  | [] => Ok sprites
  | d :: rest =>
      bucket <- scan data_frames d ;;
      group_all data_frames rest (assign_bucket d bucket sprites)
  end.

(** The key of the element [i] of an array. *)
Definition index_key (i : nat) : string := NilEmpty.string_of_uint (Nat.to_uint i).

(** The keys [for (const frame in sprites)] takes from the prototype, after
    the own keys: the indices of the array that no own key hides. *)
Definition inherited_keys (sprites : SpritesObject) : list string :=
  match prototype sprites with
  | Some items =>
      List.filter (fun key => match own sprites !! key with Some _ => false | None => true end)
        (map index_key (seq 0 (length items)))
  | None => []
  end.

(** [for (const frame in sprites) { sprites[frame].frame =
    calculateScaleRatio(sprites[frame]) }]. Under an own key [sprites[frame]]
    is a bucket. Under an inherited index it is a grouped frame, which is no
    array: [calculateScaleRatio] then walks its keys and hands the number
    under the first, [x], to [processFrameArray], whose [for ... of] throws a
    TypeError. *)
Definition scale_buckets (sprites : SpritesObject) : outcome Parsed :=
  match inherited_keys sprites with
  | [] =>
      let buckets :=
        (fun items => {| bucket_items := items; bucket_frame := scaled_array items |})
          <$> own sprites in
      Ok (match prototype sprites with
          | Some items => Inheriting items buckets
          | None => Sprites buckets
          end)
  | _ :: _ => Throw TypeError
  end.

(** [Object.values(data.frames).flat()] *)
Definition entry_frames (e : HashEntry) : list FrameData :=
  match e with
  | Single f => [f]
  | Group fs => fs
  end.

Definition flatten (data_frames : RawFrames) : list FrameData :=
  match data_frames with
  | ArrayForm l => l
  | HashForm l => concat (map (fun kv => entry_frames (snd kv)) l)
  end.

(** [parseFrames], for the current [spriteDataRef] and [animationNames]; the
    result is [None] when the function returns undefined. An array, empty or
    not, is truthy, so only an absent list of names takes the last branch. *)
Definition parseFrames `{CaseMapping} (data : option SpriteData)
    (animationNames : option (list string)) : outcome (option Parsed) :=
  match data with
  | Some data =>
      match animationNames with
      | Some delimiters =>
          sprites <- group_all (frames data) delimiters {| own := ∅; prototype := None |} ;;
          parsed <- scale_buckets sprites ;;
          Ok (Some parsed)
      | None => Ok (Some (Flat (scaled_array (flatten (frames data)))))
      end
  | None => Ok None
  end.

(** ** Numbers: Math.round *)

(** [Math.round(x)]: NaN, the zeros and the infinities are returned as they
    are; a finite [x = ±m·2^e] with [e >= 0] is integral already; otherwise
    the result is [floor(x + 1/2)], the nearest integer with ties towards
    +∞, and a result of zero keeps the sign of [x]. *)
Definition round_half_up (s : bool) (m : positive) (e : Z) : Z :=
  (cond_Zopp s (Zpos m) * 2 + 2 ^ (- e)) / 2 ^ (- e + 1).

Definition Math_round (x : float) : float :=
  match Prim2SF x with
  | S754_finite s m e =>
      if 0 <=? e then x
      else
        let n := round_half_up s m e in
        if n =? 0 then (if s then neg_zero else zero)
        else SF2Prim (binary_normalize prec emax n 0 false)
  | _ => x
  end.

(** ** The canvas *)

Record Image : Type := { width : float; height : float }.

Record Texture : Type := { image : option Image }.

(** The collaborators of grid inference: whether [canvas.getContext('2d')]
    yields a context, [ctx.drawImage(image, 0, 0)], and
    [ctx.getImageData(sx, sy, sw, sh).data] on the canvas the image was drawn
    on. The last two may throw. *)
Record Host : Type := {
  getContext : bool;
  drawImage : Image -> outcome unit;
  getImageData : Image -> float -> float -> float -> float -> outcome (list byte)
}.

(** ** Loops *)

(** [for (let i = start; i < bound; i++) { body }], with the variables the
    body updates as the state [St]. *)
Fixpoint for_lt {St : Type} (fuel : nat) (i bound : float)
    (body : float -> St -> outcome St) (s : St) : outcome St :=
  match fuel with
  | O => OutOfFuel
  | S fuel' =>
      if (i <? bound)%float then
        s' <- body i s ;;
        for_lt fuel' (i + 1)%float bound body s'
      else Ok s
  end.

(** ** getRowsAndColumns *)

Record GridLayout : Type := {
  rows : float;
  columns : float;
  frameWidth : float;
  frameHeight : float;
  emptyFrames : list SpriteMetaDimension
}.

Definition push {A : Type} (l : list A) (a : A) : list A := l ++ [a].

(** The body of the inner loop, for the cell [(row, col)]. *)
Definition inspect_cell (host : Host) (img : Image) (totalFrames cols frameWidth frameHeight : float)
    (row col : float) (emptyFrames : list SpriteMetaDimension) : outcome (list SpriteMetaDimension) :=
  let frameIndex := (row * cols + col)%float in
  if (totalFrames <=? frameIndex)%float then
    Ok (push emptyFrames {| row := row; col := col |})
  else
    frameData <- getImageData host img (col * frameWidth)%float (row * frameHeight)%float
                   frameWidth frameHeight ;;
    if checkIfFrameIsEmpty frameData
    then Ok (push emptyFrames {| row := row; col := col |})
    else Ok emptyFrames.

Definition getRowsAndColumns (fuel : nat) (host : Host) (texture : Texture) (totalFrames : float)
    : outcome GridLayout :=
  match image texture with
  | Some img =>
      if negb (getContext host) then Throw ContextUnavailable
      else
        _ <- drawImage host img ;;
        let width := width img in
        let height := height img in
        let cols := Math_round (PrimFloat.sqrt (totalFrames * (width / height))) in
        let rows := Math_round (totalFrames / cols) in
        let frameWidth := (width / cols)%float in
        let frameHeight := (height / rows)%float in
        emptyFrames <-
          for_lt fuel 0%float rows
            (fun row => for_lt fuel 0%float cols
               (inspect_cell host img totalFrames cols frameWidth frameHeight row)) [] ;;
        Ok {| rows := rows; columns := cols; frameWidth := frameWidth;
              frameHeight := frameHeight; emptyFrames := emptyFrames |}
  | None =>
      Ok {| rows := 0; columns := 0; frameWidth := 0; frameHeight := 0; emptyFrames := [] |}
  end.

(** ** parseSpriteData, sprite-only case *)

(** The frame pushed for the cell [(row, col)]. *)
Definition frame_at (frameWidth frameHeight row col : float) : FrameData :=
  {| frame := Rect.mk (col * frameWidth) (row * frameHeight) frameWidth frameHeight;
     rotated := false;
     trimmed := false;
     spriteSourceSize := Rect.mk 0 0 frameWidth frameHeight;
     sourceSize := Size.mk frameWidth frameHeight;
     filename := None |}.

(** [emptyFrames.some((coord) => coord.row === row && coord.col === col)] *)
Definition isExcluded (emptyFrames : list SpriteMetaDimension) (r c : float) : bool :=
  existsb (fun coord => (row coord =? r)%float && (col coord =? c)%float) emptyFrames.

Definition emit_cell (layout : GridLayout) (r c : float) (acc : list FrameData)
    : outcome (list FrameData) :=
  if isExcluded (emptyFrames layout) r c then Ok acc
  else Ok (push acc (frame_at (frameWidth layout) (frameHeight layout) r c)).

(** The two loops filling [nonJsonFrames.frames]. *)
Definition nonJsonFrames (fuel : nat) (layout : GridLayout) : outcome (list FrameData) :=
  for_lt fuel 0%float (rows layout)
    (fun r => for_lt fuel 0%float (columns layout) (emit_cell layout r)) [].

(** What [numberOfFrames] has to be for [if (... && numberOfFrames)]. *)
Definition truthy (numberOfFrames : option float) : option float :=
  match numberOfFrames with
  | Some n => if (n =? 0)%float || is_nan n then None else Some n
  | None => None
  end.

Record StandaloneData : Type := {
  standalone_frames : list (Scaled FrameData);
  standalone_meta : MetaData
}.

(** [parseSpriteData(null, texture)]: the value left in [spriteDataRef] when a
    frame count was given ([None] when it was not, and the ref keeps what it
    held). Reading [image.width] of a texture without image throws. *)
Definition parseSpriteData (fuel : nat) (host : Host) (texture : Texture)
    (numberOfFrames : option float) : outcome (option StandaloneData) :=
  match truthy numberOfFrames with
  | Some n =>
      match image texture with
      | None => Throw TypeError
      | Some img =>
          layout <- getRowsAndColumns fuel host texture n ;;
          fs <- nonJsonFrames fuel layout ;;
          Ok (Some {| standalone_frames := scaled_array fs;
                      standalone_meta :=
                        {| version := "1.0";
                           size := Size.mk (width img) (height img);
                           meta_rows := rows layout;
                           meta_columns := columns layout;
                           meta_frameWidth := frameWidth layout;
                           meta_frameHeight := frameHeight layout;
                           scale := "1" |} |})
      end
  | None => Ok None
  end.

(** ** Vocabulary of the statements *)

(** The value of a loop counter after [k] increments from 0. *)
Fixpoint counter (k : nat) : float :=
  match k with
  | O => 0%float
  | S k' => (counter k' + 1)%float
  end.

(** [for (let i = 0; i < bound; i++)] runs its body with [i = counter k]. *)
Definition reaches (bound : float) (k : nat) : Prop :=
  forall j, (j <= k)%nat -> (counter j <? bound)%float = true.

(** The loop runs its body exactly [n] times. *)
Definition trips (bound : float) (n : nat) : Prop :=
  (forall k, (k < n)%nat -> (counter k <? bound)%float = true) /\
  (counter n <? bound)%float = false.

(** The cells of a grid of [R] rows and [C] columns, row-major. *)
Definition cells (R C : nat) : list (nat * nat) :=
  flat_map (fun r => map (pair r) (seq 0 C)) (seq 0 R).

Definition cell (r c : nat) : SpriteMetaDimension :=
  {| row := counter r; col := counter c |}.

(** A body run for each counter of a list, in order, until one fails. *)
Fixpoint run_body {St : Type} (body : float -> St -> outcome St) (ks : list nat) (s : St)
    : outcome St :=
  match ks with
  | [] => Ok s
  | k :: ks' => s' <- body (counter k) s ;; run_body body ks' s'
  end.

(** [sub] occurs in [s]. *)
Definition is_substring (sub s : string) : Prop :=
  exists pre post, s = (pre ++ sub ++ post)%string.

(** Two characters that are one letter up to its case: they are equal, or
    one is a capital letter of ASCII and the other its small form, 32 places
    further. *)
Definition capital (c : ascii) : bool :=
  ((65 <=? nat_of_ascii c) && (nat_of_ascii c <=? 90))%nat.

Definition same_letter (a b : ascii) : Prop :=
  a = b \/
  (capital a = true /\ nat_of_ascii b = (nat_of_ascii a + 32)%nat) \/
  (capital b = true /\ nat_of_ascii a = (nat_of_ascii b + 32)%nat).

Inductive same_letters : string -> string -> Prop :=
| same_letters_empty : same_letters EmptyString EmptyString
| same_letters_next (a b : ascii) (s t : string) :
    same_letter a b -> same_letters s t -> same_letters (String a s) (String b t).


(** Whether grouping puts a frame of the array form, or an entry of the hash
    form, into the bucket of [name]. *)
Definition named_by `{CaseMapping} (name : string) (f : FrameData) : bool :=
  match filename f with
  | Some key => matches_name key name
  | None => false
  end.

Definition keyed_by `{CaseMapping} (name : string) (kv : string * FrameData) : bool :=
  matches_name (fst kv) name.

(** The bucket [parseFrames] holds under [name] once grouping is over. *)
Definition bucket_of (items : list GroupedFrame) : Bucket :=
  {| bucket_items := items; bucket_frame := scaled_array items |}.

(** A manifest with no layout information, for the examples. *)
Definition no_meta : MetaData :=
  {| version := ""; size := Size.mk 0 0; meta_rows := 0; meta_columns := 0;
     meta_frameWidth := 0; meta_frameHeight := 0; scale := "" |}.

(** A frame of [w] by [h] pixels at the origin. *)
Definition plain_frame (w h : float) : FrameData :=
  {| frame := Rect.mk 0 0 w h; rotated := false; trimmed := false;
     spriteSourceSize := Rect.mk 0 0 w h; sourceSize := Size.mk w h; filename := None |}.

(** A manifest in hash form whose values are frames. *)
Definition hash_of (l : list (string * FrameData)) : RawFrames :=
  HashForm (map (fun kv => (fst kv, Single (snd kv))) l).

Definition with_filename (name : string) (f : FrameData) : FrameData :=
  {| frame := frame f; rotated := rotated f; trimmed := trimmed f;
     spriteSourceSize := spriteSourceSize f; sourceSize := sourceSize f;
     filename := Some name |}.

(** Whether grid inference marks the cell [(r, c)] empty, or the exception
    that sampling it throws. *)
Definition marks (host : Host) (img : Image) (totalFrames cols frameWidth frameHeight : float)
    (r c : float) : outcome bool :=
  if (totalFrames <=? r * cols + c)%float then Ok true
  else
    frameData <- getImageData host img (c * frameWidth)%float (r * frameHeight)%float
                   frameWidth frameHeight ;;
    Ok (checkIfFrameIsEmpty frameData).

Definition returned (o : outcome bool) : bool :=
  match o with
  | Ok b => b
  | _ => false
  end.

(** A walk over the cells of a grid that tests each cell and collects
    something for those that pass: the shape of the loops of grid inference
    and of the manifest built from a grid. *)
Section CollectCells.
Context {X : Type}.
Variable test : float -> float -> outcome bool.
Variable mk : float -> float -> X.

Definition collect_cell (r c : float) (acc : list X) : outcome (list X) :=
b <- test r c ;; Ok (if b then push acc (mk r c) else acc).

Definition collect_rows (cols : float) (fuel : nat) (r : float) (acc : list X) : outcome (list X) :=
for_lt fuel 0%float cols (collect_cell r) acc.

Definition kept (rc : nat * nat) : bool := returned (test (counter (fst rc)) (counter (snd rc))).

Definition made (rc : nat * nat) : X := mk (counter (fst rc)) (counter (snd rc)).
End CollectCells.

(** The grid the formulas of [getRowsAndColumns] give. *)
Definition inferred_columns (img : Image) (totalFrames : float) : float :=
  Math_round (PrimFloat.sqrt (totalFrames * (width img / height img))).

Definition inferred_rows (img : Image) (totalFrames : float) : float :=
  Math_round (totalFrames / inferred_columns img totalFrames).

Definition inferred_marks (host : Host) (img : Image) (totalFrames : float) : float -> float -> outcome bool :=
  marks host img totalFrames (inferred_columns img totalFrames)
    (width img / inferred_columns img totalFrames)
    (height img / inferred_rows img totalFrames).

(** The sheet of the examples: 512 by 256 pixels. *)
Definition sheet : Image := {| width := 512; height := 256 |}.

Definition sheet_texture : Texture := {| image := Some sheet |}.

(** A canvas on which every sampled region is one opaque black pixel. *)
Definition opaque_host : Host :=
  {| getContext := true;
     drawImage := fun _ => Ok tt;
     getImageData := fun _ _ _ _ _ => Ok [x00; x00; x00; xff] |}.

(** A canvas of two pixels a region: the region sampled at (128, 0) is
    transparent, though not black, the one at (256, 0) is transparent in its
    first pixel only, and every other region is opaque. *)
Definition pierced_host : Host :=
  {| getContext := true;
     drawImage := fun _ => Ok tt;
     getImageData := fun _ sx sy _ _ =>
       if ((sx =? 128) && (sy =? 0))%float
       then Ok [x00; x00; x00; x00; xff; x10; x00; x00]
       else if ((sx =? 256) && (sy =? 0))%float
       then Ok [x00; x00; x00; x00; x00; x00; x00; xff]
       else Ok [x00; x00; x00; xff; xff; x10; x00; xff] |}.

(** The cells [nonJsonFrames] keeps and the frames it makes of them. *)
Definition included (layout : GridLayout) (rc : nat * nat) : bool :=
  negb (isExcluded (emptyFrames layout) (counter (fst rc)) (counter (snd rc))).

Definition frame_of_cell (layout : GridLayout) (rc : nat * nat) : FrameData :=
  frame_at (frameWidth layout) (frameHeight layout) (counter (fst rc)) (counter (snd rc)).

(** ** Binary64 values as real numbers *)

(** Powers of two, and the real number a mantissa and an exponent stand for. *)
Definition bpow (e : Z) : R := powerRZ 2 e.

Definition F2R (m e : Z) : R := (IZR m * bpow e)%R.

Definition located (m e : Z) (l : location) (x : R) : Prop :=
  match l with
  | loc_Exact => x = F2R m e
  | loc_Inexact Lt => (F2R m e < x < F2R m e + bpow e / 2)%R
  | loc_Inexact Eq => x = (F2R m e + bpow e / 2)%R
  | loc_Inexact Gt => (F2R m e + bpow e / 2 < x < F2R (m + 1) e)%R
  end.

(** The exponent a binary64 number equal to [x >= 0] would have. *)
Definition canon (E : Z) (x : R) : Prop :=
  -1074 <= E /\ (x < bpow (E + 53))%R /\ (-1074 < E -> (bpow (E + 52) <= x)%R).

(** What [binary_round_aux] makes of a rounded mantissa [m] at the exponent
    [E] of the format, for a result that is not negative. *)
Definition rnd_result (m E : Z) : spec_float :=
  if m =? 2 ^ 53 then
    if E + 1 <=? 971 then S754_finite false (2 ^ 52) (E + 1) else S754_infinity false
  else
    match m with
    | Z0 => S754_zero false
    | Zpos p => if E <=? 971 then S754_finite false p E else S754_infinity false
    | Zneg _ => S754_nan
    end.

(** An integer that orders the results other than NaN as [SFcompare] does. *)
Definition rank (r : spec_float) : Z :=
  match r with
  | S754_zero _ => 0
  | S754_finite false m e => (e + 2000) * 2 ^ 54 + Zpos m
  | S754_finite true m e => - ((e + 2000) * 2 ^ 54 + Zpos m)
  | S754_infinity false => 2 ^ 70
  | S754_infinity true => - 2 ^ 70
  | S754_nan => 0
  end.

Definition number_result (r : spec_float) : Prop :=
  match r with
  | S754_zero _ => True
  | S754_finite _ m e => -2000 < e <= 971 /\ Zpos m < 2 ^ 54
  | S754_infinity _ => True
  | S754_nan => False
  end.

Definition nonneg_result (r : spec_float) : Prop :=
  match r with
  | S754_zero _ => True
  | S754_finite false m e => -2000 < e <= 971 /\ Zpos m < 2 ^ 54
  | S754_infinity false => True
  | _ => False
  end.

Definition SF_one : spec_float := S754_finite false (2 ^ 52) (-52).

(** A binary64 number that is not negative: a zero of either sign, a positive
    finite number or +∞, and not NaN. *)
Definition nonneg (x : float) : Prop := (0 <=? x)%float = true.

(** A binary64 number other than NaN: the only value that differs from
    itself is NaN. *)
Definition number (x : float) : Prop := (x =? x)%float = true.

Definition num_rank (x : float) : Z := rank (Prim2SF x).

(** ** Largest frames *)

(** [acc] is what the search for the largest frame holds after the frames
    [seen]: nothing when none was seen, else the area of one of them that
    none exceeds. *)
Definition tops {A : Type} `{HasFrame A} (seen : list A) (acc : option Largest) : Prop :=
  match acc with
  | None => seen = []
  | Some l =>
      (exists f, In f seen /\ area f = largest_area l) /\
      (forall f, In f seen -> num_rank (area f) <= num_rank (largest_area l))
  end.

(** A strip of 16 by 1024 pixels, and its texture. *)
Definition strip : Image := {| width := 16; height := 1024 |}.

Definition strip_texture : Texture := {| image := Some strip |}.

(** ** Numbers: Math.min *)

(** [Math.min(x, y)]: NaN when an argument is NaN, and -0 is below +0. *)
Definition Math_min (x y : float) : float :=
  if is_nan x || is_nan y then nan
  else if (x <? y)%float then x
  else if (y <? x)%float then y
  else if get_sign x then x else y.

(** ** calculateAspectRatio *)

(** The [viewport] of the renderer state, and a [THREE.Vector3]. *)
Module Viewport.
Record t : Type := mk { aspect : float; width : float; height : float }.
End Viewport.

Module Vector3.
Record t : Type := mk { x : float; y : float; z : float }.
End Vector3.

Definition calculateAspectRatio (viewport : Viewport.t) (width height factor : float)
    : Vector3.t :=
  let adaptedHeight :=
    (height * (if (width / height <? Viewport.aspect viewport)
               then Viewport.width viewport / width
               else Viewport.height viewport / height))%float in
  let adaptedWidth :=
    (width * (if (width / height <? Viewport.aspect viewport)
              then Viewport.width viewport / width
              else Viewport.height viewport / height))%float in
  let scaleX := (adaptedWidth * factor)%float in
  let scaleY := (adaptedHeight * factor)%float in
  let currentMaxScale := 1%float in
  let finalMaxScaleW := Math_min currentMaxScale scaleX in
  let finalMaxScaleH := Math_min currentMaxScale scaleY in
  if (currentMaxScale <? scaleX)%float
  then Vector3.mk currentMaxScale (scaleY / scaleX * currentMaxScale) 1
  else Vector3.mk finalMaxScaleW finalMaxScaleH 1.

(** [aspectFactor], the binary64 number the literal 0.1 denotes. *)
Definition aspectFactor : float := 0x1.999999999999ap-4%float.

(** ** getFirstItem *)

(** The argument of [getFirstItem]: an array, an object holding an array
    under each key (its entries in key order), or anything else. *)
Inductive Param (A : Type) : Type :=
| ArrayParam (l : list A)
| RecordParam (r : list (string * list A))
| OtherParam.
Arguments ArrayParam {A} l.
Arguments RecordParam {A} r.
Arguments OtherParam {A}.

(** What it returns: an item, undefined (index 0 of an empty array), or the
    literal [{ w: 0, h: 0, sourceSize: { w: 0, h: 0 } }]. *)
Inductive FirstItem (A : Type) : Type :=
| Item (a : A)
| Undefined
| ZeroSized.
Arguments Item {A} a.
Arguments Undefined {A}.
Arguments ZeroSized {A}.

(** [param[keys[0]][0]] of an object without keys reads index 0 of
    undefined, which throws. *)
Definition getFirstItem {A : Type} (param : Param A) : outcome (FirstItem A) :=
  match param with
  | ArrayParam l =>
      Ok (match l with a :: _ => Item a | [] => Undefined end)
  | RecordParam r =>
      match r with
      | (_, first) :: _ => Ok (match first with a :: _ => Item a | [] => Undefined end)
      | [] => Throw TypeError
      end
  | OtherParam => Ok ZeroSized
  end.

(** [getFirstItem(param).sourceSize]: reading a property of undefined
    throws. *)
Definition first_sourceSize {A : Type} (sourceSize_of : A -> Size.t) (param : Param A)
    : outcome Size.t :=
  item <- getFirstItem param ;;
  match item with
  | Item a => Ok (sourceSize_of a)
  | Undefined => Throw TypeError
  | ZeroSized => Ok (Size.mk 0 0)
  end.

(** ** The keys of an object *)

Definition digit (c : ascii) : option N :=
  let n := N_of_ascii c in
  if ((48 <=? n) && (n <=? 57))%N then Some (n - 48)%N else None.

Fixpoint digits_value (s : string) (acc : N) : option N :=
  match s with
  | EmptyString => Some acc
  | String c s' =>
      match digit c with
      | Some d => digits_value s' (10 * acc + d)%N
      | None => None
      end
  end.

(** An array index: the canonical decimal form of an integer from 0 to
    2^32 - 2. *)
Definition array_index (s : string) : option N :=
  match s with
  | EmptyString => None
  | String c rest =>
      if Ascii.eqb c "0" then
        match rest with
        | EmptyString => Some 0%N
        | String _ _ => None
        end
      else
        match digits_value s 0 with
        | Some n => if (n <=? 4294967294)%N then Some n else None
        | None => None
        end
  end.

(** The own keys of [sprites] in the order in which the assignments
    [sprites[name] = []] create them: assigning under a key that exists
    creates nothing, and neither does assigning under [__proto__]. *)
Definition created_keys (names : list string) : list string :=
  fold_left (fun keys name =>
               if String.eqb name proto_name || existsb (String.eqb name) keys
               then keys else keys ++ [name])
    names [].

Fixpoint insert_index (n : N) (key : string) (l : list (N * string)) : list (N * string) :=
  match l with
  | [] => [(n, key)]
  | (n', key') :: l' =>
      if (n <=? n')%N then (n, key) :: l else (n', key') :: insert_index n key l'
  end.

(** [Object.keys(obj)] of an object whose string keys were created in the
    order [created]: the array indices in ascending order, then the other
    keys in the order of their creation. *)
Definition Object_keys (created : list string) : list string :=
  map snd
    (fold_right (fun key acc =>
                   match array_index key with
                   | Some n => insert_index n key acc
                   | None => acc
                   end) [] created)
  ++ List.filter (fun key => match array_index key with Some _ => false | None => true end)
       created.

(** ** parseSpriteData, with a manifest *)

(** The entries of the object [parseFrames] returns for the names given, in
    key order. *)
Definition sprites_entries (delimiters : list string) (sprites : gmap string Bucket)
    : list (string * list GroupedFrame) :=
  omap (fun key => (fun bucket => (key, bucket_items bucket)) <$> sprites !! key)
    (Object_keys (created_keys delimiters)).

(** [spriteObj]: the manifest, whose frames are now the parsed ones, and
    the aspect vector. *)
Record SpriteObj : Type := {
  spriteData_frames : Parsed;
  spriteData_meta : MetaData;
  aspect : Vector3.t
}.

(** [parseSpriteData(json, texture)] for a manifest and a texture: the
    manifest's [frames] are replaced by what [parseFrames] returns before
    [getFirstItem] reads them. *)
Definition parseSpriteData_json `{CaseMapping} (viewport : Viewport.t)
    (animationNames : option (list string)) (json : SpriteData) : outcome SpriteObj :=
  parsed <- parseFrames (Some json) animationNames ;;
  match parsed with
  | Some (Flat spritesArr) =>
      size <- first_sourceSize (fun f => sourceSize (base f)) (ArrayParam spritesArr) ;;
      Ok {| spriteData_frames := Flat spritesArr;
            spriteData_meta := meta json;
            aspect := calculateAspectRatio viewport (Size.w size) (Size.h size) aspectFactor |}
  | Some (Sprites sprites) =>
      size <- first_sourceSize g_sourceSize
                (RecordParam (sprites_entries
                                (match animationNames with
                                 | Some delimiters => delimiters
                                 | None => []
                                 end) sprites)) ;;
      Ok {| spriteData_frames := Sprites sprites;
            spriteData_meta := meta json;
            aspect := calculateAspectRatio viewport (Size.w size) (Size.h size) aspectFactor |}
  | Some (Inheriting items sprites) =>
      size <- first_sourceSize g_sourceSize
                (RecordParam (sprites_entries
                                (match animationNames with
                                 | Some delimiters => delimiters
                                 | None => []
                                 end) sprites)) ;;
      Ok {| spriteData_frames := Inheriting items sprites;
            spriteData_meta := meta json;
            aspect := calculateAspectRatio viewport (Size.w size) (Size.h size) aspectFactor |}
  | None => Throw TypeError
  end.

(** ** Normalising what is normalised already *)

(** [{...frame, scaleRatio}] has the [frame] of the frame it copies. *)
#[export] Instance Scaled_HasFrame {A : Type} `{HasFrame A} : HasFrame (Scaled A) :=
  fun s => frame_of (base s).

(** ** Loading *)

(** What a load asks of the network, in order: [fetch(url)] of a manifest
    and [textureLoader.load(url)]. *)
Inductive Request : Type :=
| FetchJson (url : string)
| LoadTexture (url : string).

Inductive LoadError : Type :=
| MissingUrl   (* new Error('Either textureUrl or input must be provided') *)
| InvalidUrl.  (* new Error('A valid texture URL must be provided') *)

(** Whether a [string | null | undefined] is truthy. *)
Definition nonempty (url : option string) : bool :=
  match url with
  | Some (String _ _) => true
  | _ => false
  end.

Definition loadJsonAndTextureAndExecuteCallback (jsonUrl textureUrl : string) : list Request :=
  [FetchJson jsonUrl; LoadTexture textureUrl].

(** [textureUrl ?? input] falls back to [input] only when [textureUrl] is
    undefined. *)
Definition loadStandaloneSprite (input textureUrl : option string) : LoadError + list Request :=
  if negb (nonempty textureUrl) && negb (nonempty input) then inl MissingUrl
  else
    let validUrl := match textureUrl with Some url => Some url | None => input end in
    if negb (nonempty validUrl) then inl InvalidUrl
    else inr (match validUrl with Some url => [LoadTexture url] | None => [] end).

Definition loadJsonAndTexture (input : option string) (textureUrl : string)
    (jsonUrl : option string) : LoadError + list Request :=
  if nonempty jsonUrl && nonempty (Some textureUrl) then
    inr (loadJsonAndTextureAndExecuteCallback (default EmptyString jsonUrl) textureUrl)
  else loadStandaloneSprite input (Some textureUrl).

(** [loadJsonRef.current]: its parameters are named in the other order. *)
Definition loadJsonRef (textureUrl jsonUrl : string) : list Request :=
  loadJsonAndTextureAndExecuteCallback textureUrl jsonUrl.

(** The layout effect of a render with [input] and [json]; [None] when it
    loads nothing. The refs are made by [useRef] in the first render and
    never assigned again, so [loadStandaloneSpriteRef.current] calls the
    [loadStandaloneSprite] of the first render, which reads the [input] of
    that render, here [first_input]. In the first render the two are the
    same. *)
Definition layoutEffect (first_input input json : option string)
    : option (LoadError + list Request) :=
  if nonempty json && nonempty input then
    Some (inr (loadJsonRef (default EmptyString json) (default EmptyString input)))
  else if nonempty input then Some (loadStandaloneSprite first_input None)
  else None.

(** ** More vocabulary *)

(** The scales [calculateAspectRatio] clamps. *)
Definition fitted (viewport : Viewport.t) (width height side : float) : float :=
  (side * (if (width / height <? Viewport.aspect viewport)
           then Viewport.width viewport / width
           else Viewport.height viewport / height))%float.

Definition scaleX (viewport : Viewport.t) (width height factor : float) : float :=
  (fitted viewport width height width * factor)%float.

Definition scaleY (viewport : Viewport.t) (width height factor : float) : float :=
  (fitted viewport width height height * factor)%float.

(** The binary64 result that stands for the integer [k]. *)
Definition represents (k : Z) (r : spec_float) : Prop :=
  match r with
  | S754_zero false => k = 0
  | S754_finite false m e => F2R (Z.pos m) e = IZR k
  | _ => False
  end.

(** Where [i++] stops growing: 2^53 + 1 rounds to 2^53. *)
Definition two53 : float := 0x1p53%float.

(** The binary64 number of an integer, as [Math.round] returns it. *)
Definition integer (z : Z) : float := of_uint63 (Uint63.of_Z z).

(** [x] is the positive finite number whose value is the real [v]. *)
Definition holds (v : R) (x : float) : Prop :=
  exists m e, Prim2SF x = S754_finite false m e /\ F2R (Z.pos m) e = v.

(** Whether the cell [rc] of a sheet of square cells of side [s] is fully
    transparent on the canvas: the sample of its rectangle has no alpha but
    0. *)
Definition sampled_empty (host : Host) (img : Image) (s : Z) (rc : nat * nat) : bool :=
  returned
    (frameData <- getImageData host img (integer (Z.of_nat (snd rc) * s))
                    (integer (Z.of_nat (fst rc) * s)) (integer s) (integer s) ;;
     Ok (checkIfFrameIsEmpty frameData)).

(** The frame of the cell [rc] of such a sheet. *)
Definition square_frame (s : Z) (rc : nat * nat) : FrameData :=
  {| frame := Rect.mk (integer (Z.of_nat (snd rc) * s)) (integer (Z.of_nat (fst rc) * s))
                (integer s) (integer s);
     rotated := false;
     trimmed := false;
     spriteSourceSize := Rect.mk 0 0 (integer s) (integer s);
     sourceSize := Size.mk (integer s) (integer s);
     filename := None |}.

(** Whether the cell [rc] of a grid of [c] columns lies beyond the first [t]
    cells, row by row. *)
Definition beyond (t c : Z) (rc : nat * nat) : bool :=
  t <=? Z.of_nat (fst rc) * c + Z.of_nat (snd rc).

(** * Properties *)

(** ** Binary64 arithmetic *)

Lemma bpow_gt_0 (e : Z) : (0 < bpow e)%R.
Proof. apply powerRZ_lt. lra. Qed.

Lemma bpow_plus (a b : Z) : bpow (a + b) = (bpow a * bpow b)%R.
Proof. apply powerRZ_add. lra. Qed.

Lemma bpow_0 : bpow 0 = 1%R.
Proof. reflexivity. Qed.

Lemma bpow_1 : bpow 1 = 2%R.
Proof. unfold bpow. simpl. lra. Qed.

Lemma bpow_succ (e : Z) : bpow (e + 1) = (2 * bpow e)%R.
Proof. rewrite bpow_plus, bpow_1. lra. Qed.

Lemma bpow_IZR (n : Z) : 0 <= n -> bpow n = IZR (2 ^ n).
Proof.
  revert n. apply natlike_ind.
  - reflexivity.
  - intros n Hn IH. unfold Z.succ. rewrite bpow_succ, IH, Z.pow_add_r by lia.
    rewrite mult_IZR. simpl. lra.
Qed.

Lemma bpow_ge_1 (n : Z) : 0 <= n -> (1 <= bpow n)%R.
Proof.
  intros Hn. rewrite bpow_IZR by assumption. apply IZR_le.
  pose proof (Z.pow_pos_nonneg 2 n). lia.
Qed.

Lemma bpow_le (a b : Z) : a <= b -> (bpow a <= bpow b)%R.
Proof.
  intros Hab. replace b with (a + (b - a)) by lia. rewrite bpow_plus.
  pose proof (bpow_gt_0 a). pose proof (bpow_ge_1 (b - a) ltac:(lia)). nra.
Qed.

Lemma bpow_lt (a b : Z) : a < b -> (bpow a < bpow b)%R.
Proof.
  intros Hab. replace b with (a + 1 + (b - a - 1)) by lia.
  rewrite bpow_plus, bpow_succ.
  pose proof (bpow_gt_0 a). pose proof (bpow_ge_1 (b - a - 1) ltac:(lia)). nra.
Qed.

Lemma bpow_lt_inv (a b : Z) : (bpow a < bpow b)%R -> a < b.
Proof.
  intros Hlt. destruct (Z_lt_le_dec a b) as [|Hge]; auto.
  apply bpow_le in Hge. lra.
Qed.

Lemma F2R_bpow (e k : Z) : 0 <= k -> F2R (2 ^ k) e = bpow (k + e).
Proof.
  intros Hk. unfold F2R. rewrite <- bpow_IZR by assumption. now rewrite bpow_plus.
Qed.

(** The number of binary digits of a mantissa. *)
Lemma digits2_pos_bounds (p : positive) :
  2 ^ (Zpos (digits2_pos p) - 1) <= Zpos p < 2 ^ Zpos (digits2_pos p).
Proof.
  induction p as [p IH|p IH|]; simpl digits2_pos.
  - rewrite Pos2Z.inj_succ. unfold Z.succ.
    replace (Z.pos (digits2_pos p) + 1 - 1) with (Z.pos (digits2_pos p) - 1 + 1) by lia.
    rewrite !Z.pow_add_r by lia. lia.
  - rewrite Pos2Z.inj_succ. unfold Z.succ.
    replace (Z.pos (digits2_pos p) + 1 - 1) with (Z.pos (digits2_pos p) - 1 + 1) by lia.
    rewrite !Z.pow_add_r by lia. lia.
  - simpl. lia.
Qed.

Lemma Zdigits2_bounds (m : Z) :
  0 < m -> 2 ^ (Zdigits2 m - 1) <= m < 2 ^ Zdigits2 m.
Proof.
  destruct m as [|p|p]; try lia. intros _. apply digits2_pos_bounds.
Qed.

Lemma Zdigits2_pos (m : Z) : 0 < m -> 0 < Zdigits2 m.
Proof. destruct m; simpl; lia. Qed.

Lemma Zdigits2_le (m : Z) (k : Z) : 0 <= k -> 0 <= m < 2 ^ k -> Zdigits2 m <= k.
Proof.
  intros Hk [Hm Hlt]. destruct (Z.eq_dec m 0) as [->|Hne]; [simpl; lia|].
  pose proof (Zdigits2_bounds m ltac:(lia)) as [Hlo _].
  destruct (Z_le_gt_dec (Zdigits2 m) k) as [|Hgt]; auto.
  assert (2 ^ k <= 2 ^ (Zdigits2 m - 1)) by (apply Z.pow_le_mono_r; lia). lia.
Qed.

(** In reals: a positive mantissa of [d] digits at exponent [e]. *)
Lemma F2R_digits (m e : Z) :
  0 < m -> (bpow (Zdigits2 m + e - 1) <= F2R m e < bpow (Zdigits2 m + e))%R.
Proof.
  intros Hm. pose proof (Zdigits2_bounds m Hm) as [Hlo Hhi].
  pose proof (Zdigits2_pos m Hm) as Hd.
  unfold F2R.
  replace (Zdigits2 m + e - 1) with ((Zdigits2 m - 1) + e) by lia.
  rewrite !bpow_plus, (bpow_IZR (Zdigits2 m - 1)), (bpow_IZR (Zdigits2 m)) by lia.
  pose proof (bpow_gt_0 e). apply IZR_le in Hlo. apply IZR_lt in Hhi. split.
  - apply Rmult_le_compat_r; lra.
  - apply Rmult_lt_compat_r; lra.
Qed.

(** ** Where a real number lies in a cell of the grid of exponent [e] *)

Lemma fexp_eq (e : Z) : fexp prec emax e = Z.max (e - 53) (-1074).
Proof. reflexivity. Qed.

Lemma F2R_succ (m e : Z) : F2R (m + 1) e = (F2R m e + bpow e)%R.
Proof. unfold F2R. rewrite plus_IZR. lra. Qed.

Lemma located_bounds (m e : Z) (l : location) (x : R) :
  located m e l x -> (F2R m e <= x < F2R (m + 1) e)%R.
Proof.
  rewrite F2R_succ. pose proof (bpow_gt_0 e).
  destruct l as [|[| |]]; cbn [located]; rewrite ?F2R_succ; lra.
Qed.

Lemma shr_record_of_loc_m (m : Z) (l : location) : shr_m (shr_record_of_loc m l) = m.
Proof. destruct l as [|[| |]]; reflexivity. Qed.

Lemma loc_of_shr_record_of_loc (m : Z) (l : location) :
  loc_of_shr_record (shr_record_of_loc m l) = l.
Proof. destruct l as [|[| |]]; reflexivity. Qed.

Lemma IZR_xO (p : positive) : IZR (Z.pos p~0) = (2 * IZR (Z.pos p))%R.
Proof. change (Z.pos p~0) with (2 * Z.pos p). now rewrite mult_IZR. Qed.

Lemma IZR_xI (p : positive) : IZR (Z.pos p~1) = (2 * IZR (Z.pos p) + 1)%R.
Proof. change (Z.pos p~1) with (2 * Z.pos p + 1). now rewrite plus_IZR, mult_IZR. Qed.

Lemma shr_1_located (mrs : shr_record) (e : Z) (x : R) :
  0 <= shr_m mrs ->
  located (shr_m mrs) e (loc_of_shr_record mrs) x ->
  0 <= shr_m (shr_1 mrs) /\
  located (shr_m (shr_1 mrs)) (e + 1) (loc_of_shr_record (shr_1 mrs)) x.
Proof.
  destruct mrs as [m r s]. cbn [shr_m]. intros Hm Hloc.
  pose proof (bpow_gt_0 e) as HB.
  destruct m as [|[p|p|]|p]; try lia;
    (split; [destruct r, s; cbn [shr_1 shr_m orb]; lia|]);
    destruct r, s;
    cbn [located loc_of_shr_record shr_1 shr_m orb] in Hloc |- *; unfold F2R in *;
    rewrite ?bpow_succ;
    rewrite ?plus_IZR in *;
    rewrite ?(IZR_xO p), ?(IZR_xI p) in Hloc;
    lra.
Qed.

Lemma iter_pos_shr_1_located (p : positive) :
  forall (mrs : shr_record) (e : Z) (x : R),
    0 <= shr_m mrs ->
    located (shr_m mrs) e (loc_of_shr_record mrs) x ->
    0 <= shr_m (SpecFloat.iter_pos shr_1 p mrs) /\
    located (shr_m (SpecFloat.iter_pos shr_1 p mrs)) (e + Zpos p)
      (loc_of_shr_record (SpecFloat.iter_pos shr_1 p mrs)) x.
Proof.
  induction p as [p IH|p IH|]; intros mrs e x Hm Hloc; cbn [SpecFloat.iter_pos].
  - destruct (shr_1_located mrs e x Hm Hloc) as [H1 L1].
    destruct (IH _ _ _ H1 L1) as [H2 L2].
    destruct (IH _ _ _ H2 L2) as [H3 L3].
    split; auto. replace (e + Z.pos p~1) with (e + 1 + Z.pos p + Z.pos p) by lia. exact L3.
  - destruct (IH _ _ _ Hm Hloc) as [H2 L2].
    destruct (IH _ _ _ H2 L2) as [H3 L3].
    split; auto. replace (e + Z.pos p~0) with (e + Z.pos p + Z.pos p) by lia. exact L3.
  - apply shr_1_located; assumption.
Qed.

(** The first step of rounding: the mantissa is cut at the exponent of the
    format, and what is cut off is remembered as a location. *)
Lemma shr_fexp_spec (m e : Z) (l : location) (x : R) :
  0 <= m ->
  located m e l x ->
  e <= fexp prec emax (Zdigits2 m + e) ->
  0 <= shr_m (fst (shr_fexp prec emax m e l)) /\
  located (shr_m (fst (shr_fexp prec emax m e l))) (snd (shr_fexp prec emax m e l))
    (loc_of_shr_record (fst (shr_fexp prec emax m e l))) x /\
  canon (snd (shr_fexp prec emax m e l)) x.
Proof.
  intros Hm Hloc Hfine.
  assert (HE : snd (shr_fexp prec emax m e l) = fexp prec emax (Zdigits2 m + e)).
  { unfold shr_fexp, shr.
    destruct (fexp prec emax (Zdigits2 m + e) - e) eqn:Hn; cbn [snd]; lia. }
  assert (Hcanon : canon (fexp prec emax (Zdigits2 m + e)) x).
  { pose proof (located_bounds _ _ _ _ Hloc) as [Hlo Hhi].
    rewrite fexp_eq in *. unfold canon.
    destruct (Z.eq_dec m 0) as [->|Hne].
    - simpl Zdigits2 in *. rewrite Z.add_0_l in *.
      assert (e <= -1074) by lia.
      replace (Z.max (e - 53) (-1074)) with (-1074) by lia.
      split; [lia|]. split; [|lia].
      unfold F2R in Hhi. simpl in Hhi. rewrite Rmult_1_l in Hhi.
      pose proof (bpow_le e (-1074 + 53) ltac:(lia)). lra.
    - pose proof (F2R_digits m e ltac:(lia)) as [Hdlo Hdhi].
      assert (Hx : (bpow (Zdigits2 m + e - 1) <= x < bpow (Zdigits2 m + e))%R).
      { split; [lra|].
        pose proof (Zdigits2_bounds m ltac:(lia)) as [_ Hlt].
        pose proof (Zdigits2_pos m ltac:(lia)).
        assert (m + 1 <= 2 ^ Zdigits2 m) as Hle by lia.
        apply IZR_le in Hle. rewrite <- bpow_IZR in Hle by lia.
        unfold F2R in Hhi. rewrite bpow_plus.
        pose proof (bpow_gt_0 e). nra. }
      split; [lia|]. split.
      + pose proof (bpow_le (Zdigits2 m + e) (Z.max (Zdigits2 m + e - 53) (-1074) + 53)
                      ltac:(lia)). lra.
      + intros Hgt.
        pose proof (bpow_le (Z.max (Zdigits2 m + e - 53) (-1074) + 52) (Zdigits2 m + e - 1)
                      ltac:(lia)). lra. }
  rewrite HE. split; [|split; [|exact Hcanon]].
  - unfold shr_fexp, shr.
    destruct (fexp prec emax (Zdigits2 m + e) - e) eqn:Hn; simpl;
      rewrite ?shr_record_of_loc_m; auto.
    apply iter_pos_shr_1_located with (e := e) (x := x).
    + now rewrite shr_record_of_loc_m.
    + now rewrite shr_record_of_loc_m, loc_of_shr_record_of_loc.
  - unfold shr_fexp, shr.
    destruct (fexp prec emax (Zdigits2 m + e) - e) eqn:Hn; simpl.
    + rewrite shr_record_of_loc_m, loc_of_shr_record_of_loc.
      replace (fexp prec emax (Zdigits2 m + e)) with e by lia. exact Hloc.
    + replace (fexp prec emax (Zdigits2 m + e)) with (e + Z.pos p) by lia.
      apply iter_pos_shr_1_located.
      * now rewrite shr_record_of_loc_m.
      * now rewrite shr_record_of_loc_m, loc_of_shr_record_of_loc.
    + lia.
Qed.

(** ** Rounding to nearest, ties to even *)

Lemma round_nearest_even_bounds (m : Z) (l : location) :
  m <= round_nearest_even m l <= m + 1.
Proof.
  destruct l as [|[| |]]; simpl; try lia. destruct (Z.even m); lia.
Qed.

Lemma round_nearest_even_mono (m E : Z) (l l' : location) (x y : R) :
  located m E l x -> located m E l' y -> (x <= y)%R ->
  round_nearest_even m l <= round_nearest_even m l'.
Proof.
  intros Hx Hy Hxy. pose proof (bpow_gt_0 E) as HB.
  destruct l as [|[| |]], l' as [|[| |]]; cbn [located] in Hx, Hy;
    rewrite ?F2R_succ in *; cbn [round_nearest_even];
    try (destruct (Z.even m)); try lia; exfalso; lra.
Qed.

Lemma canon_mono (E E' : Z) (x y : R) :
  canon E x -> canon E' y -> (x <= y)%R -> E <= E'.
Proof.
  intros (HE & Hx & Hx') (HE' & Hy & Hy') Hxy.
  destruct (Z_le_gt_dec E E') as [|Hgt]; auto.
  specialize (Hx' ltac:(lia)).
  pose proof (bpow_le (E' + 53) (E + 52) ltac:(lia)). lra.
Qed.

Lemma canon_mantissa (m E : Z) (l : location) (x : R) :
  0 <= m -> located m E l x -> canon E x ->
  m < 2 ^ 53 /\ (-1074 < E -> 2 ^ 52 <= m).
Proof.
  intros Hm Hloc (HE & Hx & Hx').
  pose proof (located_bounds _ _ _ _ Hloc) as [Hlo Hhi].
  pose proof (bpow_gt_0 E) as HB. split.
  - apply lt_IZR. rewrite <- bpow_IZR by lia.
    rewrite (Z.add_comm E 53), bpow_plus in Hx. unfold F2R in Hlo. nra.
  - intros Hgt. specialize (Hx' Hgt).
    assert (Hlt : 2 ^ 52 < m + 1); [|lia].
    apply lt_IZR. rewrite <- bpow_IZR by lia.
    rewrite (Z.add_comm E 52), bpow_plus in Hx'. unfold F2R in Hhi. nra.
Qed.

Lemma shr_unchanged (mrs : shr_record) (e n : Z) : n <= 0 -> shr mrs e n = (mrs, e).
Proof. destruct n; simpl; auto; lia. Qed.

Lemma rnd_result_spec (m E : Z) :
  0 <= m <= 2 ^ 53 -> -1074 <= E ->
  (let '(mrs, e) := shr_fexp prec emax m E loc_Exact in
   match shr_m mrs with
   | Z0 => S754_zero false
   | Zpos p => if e <=? emax - prec then S754_finite false p e else S754_infinity false
   | Zneg _ => S754_nan
   end) = rnd_result m E.
Proof.
  intros Hm HE. unfold rnd_result.
  destruct (m =? 2 ^ 53) eqn:Hmax.
  - apply Z.eqb_eq in Hmax. subst m. unfold shr_fexp. rewrite fexp_eq.
    change (Zdigits2 (2 ^ 53)) with 54.
    replace (Z.max (54 + E - 53) (-1074) - E) with 1 by lia.
    reflexivity.
  - apply Z.eqb_neq in Hmax. unfold shr_fexp. rewrite fexp_eq.
    assert (Hd : Zdigits2 m <= 53) by (apply Zdigits2_le; lia).
    rewrite shr_unchanged by lia. cbn [shr_record_of_loc shr_m].
    reflexivity.
Qed.

(** The result of [binary_round_aux] on a number that is not negative. *)
Lemma binary_round_aux_spec (m e : Z) (l : location) (x : R) :
  0 <= m -> located m e l x -> e <= fexp prec emax (Zdigits2 m + e) ->
  exists m1 l1 E,
    0 <= m1 /\ located m1 E l1 x /\ canon E x /\
    binary_round_aux prec emax false m e l = rnd_result (round_nearest_even m1 l1) E.
Proof.
  intros Hm Hloc Hfine.
  destruct (shr_fexp_spec m e l x Hm Hloc Hfine) as (Hm1 & Hloc1 & Hcanon).
  unfold binary_round_aux.
  destruct (shr_fexp prec emax m e l) as [mrs E] eqn:Hshr. cbn [fst snd] in *.
  exists (shr_m mrs), (loc_of_shr_record mrs), E. repeat split; auto; try apply Hcanon.
  pose proof (canon_mantissa _ _ _ _ Hm1 Hloc1 Hcanon) as [Hlt _].
  pose proof (round_nearest_even_bounds (shr_m mrs) (loc_of_shr_record mrs)).
  apply rnd_result_spec; [lia|apply Hcanon].
Qed.

Lemma rnd_result_nonneg (m E : Z) :
  0 <= m <= 2 ^ 53 -> -1074 <= E -> nonneg_result (rnd_result m E).
Proof.
  intros Hm HE. unfold rnd_result.
  destruct (m =? 2 ^ 53) eqn:Hmax.
  - destruct (E + 1 <=? 971) eqn:Hle; simpl; auto. apply Z.leb_le in Hle. lia.
  - apply Z.eqb_neq in Hmax. destruct m as [|p|p]; simpl; auto; try lia.
    destruct (E <=? 971) eqn:Hle; simpl; auto. apply Z.leb_le in Hle. lia.
Qed.

Lemma rnd_result_rank_mono (m E m' E' : Z) :
  0 <= m <= 2 ^ 53 -> 0 <= m' <= 2 ^ 53 -> -1074 <= E ->
  (E = E' /\ m <= m') \/ (E < E' /\ 2 ^ 52 <= m') ->
  rank (rnd_result m E) <= rank (rnd_result m' E').
Proof.
  intros Hm Hm' HE Hcase. unfold rnd_result.
  change (2 ^ 53) with 9007199254740992 in *.
  change (2 ^ 52) with 4503599627370496 in *.
  destruct (m =? 9007199254740992) eqn:H1; destruct (m' =? 9007199254740992) eqn:H2;
    rewrite ?Z.eqb_eq, ?Z.eqb_neq in *;
    repeat match goal with
           | |- context [?a <=? ?b] => destruct (Z.leb_spec a b)
           end;
    destruct m as [|p|p]; destruct m' as [|p'|p']; try lia;
    cbn [rank]; change (2 ^ 54) with 18014398509481984; change (2 ^ 70) with 1180591620717411303424;
    lia.
Qed.

(** Rounding is monotone: of two numbers that are not negative, the larger
    does not round to the smaller result. *)
Lemma binary_round_aux_mono (m e : Z) (l : location) (x : R)
    (m' e' : Z) (l' : location) (y : R) :
  0 <= m -> located m e l x -> e <= fexp prec emax (Zdigits2 m + e) ->
  0 <= m' -> located m' e' l' y -> e' <= fexp prec emax (Zdigits2 m' + e') ->
  (x <= y)%R ->
  nonneg_result (binary_round_aux prec emax false m e l) /\
  nonneg_result (binary_round_aux prec emax false m' e' l') /\
  rank (binary_round_aux prec emax false m e l) <=
  rank (binary_round_aux prec emax false m' e' l').
Proof.
  intros Hm Hloc Hfine Hm' Hloc' Hfine' Hxy.
  destruct (binary_round_aux_spec m e l x Hm Hloc Hfine)
    as (m1 & l1 & E & Hm1 & Hloc1 & Hcanon & ->).
  destruct (binary_round_aux_spec m' e' l' y Hm' Hloc' Hfine')
    as (m1' & l1' & E' & Hm1' & Hloc1' & Hcanon' & ->).
  pose proof (canon_mantissa _ _ _ _ Hm1 Hloc1 Hcanon) as [Hlt Hnorm].
  pose proof (canon_mantissa _ _ _ _ Hm1' Hloc1' Hcanon') as [Hlt' Hnorm'].
  pose proof (round_nearest_even_bounds m1 l1) as Hr.
  pose proof (round_nearest_even_bounds m1' l1') as Hr'.
  pose proof (canon_mono _ _ _ _ Hcanon Hcanon' Hxy) as HEE.
  assert (HE : -1074 <= E) by apply Hcanon.
  assert (HE' : -1074 <= E') by apply Hcanon'.
  split; [apply rnd_result_nonneg; lia|]. split; [apply rnd_result_nonneg; lia|].
  apply rnd_result_rank_mono; try lia.
  destruct (Z.eq_dec E E') as [<-|Hne].
  - left. split; [reflexivity|].
    pose proof (located_bounds _ _ _ _ Hloc1) as [Hlo Hhi].
    pose proof (located_bounds _ _ _ _ Hloc1') as [Hlo' Hhi'].
    assert (Hmm : m1 <= m1').
    { assert (m1 < m1' + 1); [|lia]. apply lt_IZR.
      pose proof (bpow_gt_0 E). unfold F2R in *. nra. }
    destruct (Z.eq_dec m1 m1') as [<-|Hneq].
    + apply (round_nearest_even_mono m1 E l1 l1' x y); assumption.
    + lia.
  - right. split; [lia|]. specialize (Hnorm' ltac:(lia)). lia.
Qed.

(** ** Division *)

Lemma new_location_located (d q r e : Z) (x : R) :
  0 < d -> 0 <= r < d ->
  x = ((IZR q + IZR r / IZR d) * bpow e)%R ->
  located q e (new_location d r) x.
Proof.
  intros Hd Hr ->. pose proof (bpow_gt_0 e) as HB.
  assert (HdR : (0 < IZR d)%R) by (apply IZR_lt; lia).
  assert (Hfrac : forall c : R, ((IZR q + c) * bpow e = F2R q e + c * bpow e)%R)
    by (intros c; unfold F2R; lra).
  rewrite Hfrac.
  assert (Hlt1 : (IZR r / IZR d < 1)%R).
  { apply Rmult_lt_reg_r with (IZR d); auto. unfold Rdiv.
    rewrite Rmult_assoc, Rinv_l, Rmult_1_r, Rmult_1_l by lra. apply IZR_lt. lia. }
  assert (Hhalf : forall c : comparison,
             (2 * r ?= d) = c ->
             match c with
             | Lt => (IZR r / IZR d < 1 / 2)%R
             | Eq => (IZR r / IZR d = 1 / 2)%R
             | Gt => (1 / 2 < IZR r / IZR d)%R
             end).
  { intros c Hc. destruct (Z.compare_spec (2 * r) d) as [Heq|Hlt|Hgt]; subst c.
    - apply IZR_eq in Heq. rewrite mult_IZR in Heq. field_simplify_eq; lra.
    - apply IZR_lt in Hlt. rewrite mult_IZR in Hlt.
      apply Rmult_lt_reg_r with (IZR d); auto. unfold Rdiv.
      rewrite Rmult_assoc, Rinv_l, Rmult_1_r by lra. lra.
    - apply IZR_lt in Hgt. rewrite mult_IZR in Hgt.
      apply Rmult_lt_reg_r with (IZR d); auto. unfold Rdiv at 2.
      rewrite (Rmult_assoc (IZR r)), Rinv_l, Rmult_1_r by lra. lra. }
  assert (Hpos : r <> 0 -> (0 < IZR r / IZR d)%R).
  { intros Hne. apply Rdiv_lt_0_compat; auto. apply IZR_lt. lia. }
  unfold new_location, new_location_even, new_location_odd.
  destruct (Z.even d) eqn:Heven; destruct (r =? 0) eqn:Hr0;
    rewrite ?Z.eqb_eq, ?Z.eqb_neq in Hr0.
  - subst r. cbn [located]. unfold Rdiv. rewrite Rmult_0_l. lra.
  - specialize (Hpos Hr0). pose proof (Hhalf _ eq_refl) as Hh.
    destruct (2 * r ?= d); cbn [located]; rewrite ?F2R_succ; nra.
  - subst r. cbn [located]. unfold Rdiv. rewrite Rmult_0_l. lra.
  - specialize (Hpos Hr0).
    assert (Hodd : 2 * r <> d).
    { intros Heq. rewrite <- Heq, Z.even_mul in Heven. discriminate. }
    pose proof (Hhalf _ eq_refl) as Hh.
    destruct (Z.compare_spec (2 * r + 1) d) as [Heq|Hlt|Hgt];
      destruct (Z.compare_spec (2 * r) d) as [Heq'|Hlt'|Hgt']; try lia;
      cbn [located]; rewrite ?F2R_succ; nra.
Qed.

Lemma fexp_mono (a b : Z) : a <= b -> fexp prec emax a <= fexp prec emax b.
Proof. rewrite !fexp_eq. lia. Qed.

Lemma F2R_pos (m e : Z) : 0 < m -> (0 < F2R m e)%R.
Proof.
  intros Hm. unfold F2R. apply Rmult_lt_0_compat; [now apply IZR_lt|apply bpow_gt_0].
Qed.

Lemma located_below_digits (q e : Z) (l : location) (x : R) :
  0 <= q -> located q e l x -> (x < bpow (Zdigits2 q + e))%R.
Proof.
  intros Hq Hloc. pose proof (located_bounds _ _ _ _ Hloc) as [_ Hhi].
  pose proof (bpow_gt_0 e) as HB.
  destruct (Z.eq_dec q 0) as [->|Hne].
  - change (Zdigits2 0) with 0. change (0 + 1) with 1 in Hhi.
    unfold F2R in Hhi. rewrite Rmult_1_l in Hhi. now rewrite Z.add_0_l.
  - pose proof (Zdigits2_bounds q ltac:(lia)) as [_ Hlt].
    pose proof (Zdigits2_pos q ltac:(lia)).
    assert (q + 1 <= 2 ^ Zdigits2 q) as Hle by lia.
    apply IZR_le in Hle. rewrite <- bpow_IZR in Hle by lia.
    unfold F2R in Hhi. rewrite bpow_plus. nra.
Qed.

(** A cell at an exponent the format allows for a number of its size. *)
Lemma fine_of_lower_bound (q e D : Z) (l : location) (x : R) :
  0 <= q -> located q e l x ->
  (bpow (D - 1) <= x)%R -> e <= fexp prec emax D ->
  e <= fexp prec emax (Zdigits2 q + e).
Proof.
  intros Hq Hloc Hlow He.
  pose proof (located_below_digits _ _ _ _ Hq Hloc) as Hhi.
  assert (HD : D <= Zdigits2 q + e).
  { assert (D - 1 < Zdigits2 q + e); [|lia]. apply bpow_lt_inv. lra. }
  pose proof (fexp_mono _ _ HD). lia.
Qed.

Lemma SFdiv_core_binary_spec (m1 m2 : positive) (e1 e2 : Z) :
  let '(q, e, l) := SFdiv_core_binary prec emax (Zpos m1) e1 (Zpos m2) e2 in
  0 <= q /\
  located q e l (F2R (Zpos m1) e1 / F2R (Zpos m2) e2)%R /\
  e <= fexp prec emax (Zdigits2 q + e).
Proof.
  unfold SFdiv_core_binary.
  set (D := Zdigits2 (Z.pos m1) + e1 - (Zdigits2 (Z.pos m2) + e2)).
  set (e := Z.min (fexp prec emax D) (e1 - e2)).
  set (s := e1 - e2 - e).
  assert (Hs : 0 <= s) by (unfold s, e; lia).
  set (m' := match s with Z.pos _ => Z.shiftl (Z.pos m1) s | 0 => Z.pos m1 | Z.neg _ => 0 end).
  assert (Hm' : m' = Z.pos m1 * 2 ^ s).
  { unfold m'. destruct s as [|p|p] eqn:Hsp; try lia.
    now rewrite Z.shiftl_mul_pow2 by lia. }
  pose proof (Z_div_mod m' (Z.pos m2) ltac:(lia)) as Hdiv.
  destruct (Z.div_eucl m' (Z.pos m2)) as [q r]. destruct Hdiv as [Hqr Hr].
  assert (Hq : 0 <= q).
  { assert (0 < m') by (rewrite Hm'; pose proof (Z.pow_pos_nonneg 2 s); lia). nia. }
  pose proof (bpow_gt_0 e) as HB. pose proof (bpow_gt_0 e2) as HB2.
  assert (H2 : (0 < IZR (Z.pos m2))%R) by (apply IZR_lt; lia).
  assert (Hx : (F2R (Z.pos m1) e1 / F2R (Z.pos m2) e2 =
                (IZR q + IZR r / IZR (Z.pos m2)) * bpow e)%R).
  { unfold F2R.
    replace e1 with (s + e + e2) by (unfold s; lia).
    rewrite !bpow_plus, (bpow_IZR s) by lia.
    assert (Hm'R : (IZR (Z.pos m1) * IZR (2 ^ s) = IZR (Z.pos m2) * IZR q + IZR r)%R).
    { rewrite <- !mult_IZR, <- plus_IZR. f_equal. lia. }
    field_simplify_eq; [|lra]. nra. }
  assert (Hloc : located q e (new_location (Z.pos m2) r)
                   (F2R (Z.pos m1) e1 / F2R (Z.pos m2) e2)).
  { apply new_location_located; auto; lia. }
  split; [exact Hq|]. split; [exact Hloc|].
  apply (fine_of_lower_bound q e D _ _ Hq Hloc); [|unfold e; lia].
  pose proof (F2R_digits (Z.pos m1) e1 ltac:(lia)) as [Hlo1 _].
  pose proof (F2R_digits (Z.pos m2) e2 ltac:(lia)) as [_ Hhi2].
  pose proof (F2R_pos (Z.pos m2) e2 ltac:(lia)) as Hp2.
  replace (D - 1) with ((Zdigits2 (Z.pos m1) + e1 - 1) - (Zdigits2 (Z.pos m2) + e2))
    by (unfold D; lia).
  set (a := Zdigits2 (Z.pos m1) + e1 - 1) in *.
  set (b := Zdigits2 (Z.pos m2) + e2) in *.
  replace a with ((a - b) + b) in Hlo1 by lia. rewrite bpow_plus in Hlo1.
  pose proof (bpow_gt_0 (a - b)). pose proof (bpow_gt_0 b).
  apply Rmult_le_reg_r with (F2R (Z.pos m2) e2); auto.
  unfold Rdiv. rewrite Rmult_assoc, Rinv_l, Rmult_1_r by lra. nra.
Qed.

(** ** Square root *)

Lemma sqrt_above (a b : R) : (0 <= a)%R -> (a * a < b)%R -> (a < sqrt b)%R.
Proof.
  intros Ha Hlt. rewrite <- (sqrt_square a) at 1 by assumption.
  apply sqrt_lt_1; nra.
Qed.

Lemma sqrt_below (a b : R) : (0 <= a)%R -> (0 <= b)%R -> (b < a * a)%R -> (sqrt b < a)%R.
Proof.
  intros Ha Hb Hlt. rewrite <- (sqrt_square a) at 1 by assumption.
  apply sqrt_lt_1; nra.
Qed.

Lemma sqrt_at_least (a b : R) : (0 <= a)%R -> (a * a <= b)%R -> (a <= sqrt b)%R.
Proof.
  intros Ha Hle. rewrite <- (sqrt_square a) at 1 by assumption.
  apply sqrt_le_1; nra.
Qed.

Lemma SFsqrt_core_binary_spec (m : positive) (e : Z) :
  let '(q, e', l) := SFsqrt_core_binary prec emax (Zpos m) e in
  0 <= q /\
  located q e' l (sqrt (F2R (Zpos m) e)) /\
  e' <= fexp prec emax (Zdigits2 q + e').
Proof.
  unfold SFsqrt_core_binary.
  set (K := Z.div2 (Zdigits2 (Z.pos m) + e + 1)).
  set (e' := Z.min (fexp prec emax K) (Z.div2 e)).
  set (s := e - 2 * e').
  assert (Hdiv2 : forall z, 2 * Z.div2 z <= z <= 2 * Z.div2 z + 1).
  { intros z. rewrite Z.div2_div. pose proof (Z.div_mod z 2 ltac:(lia)).
    pose proof (Z.mod_pos_bound z 2 ltac:(lia)). lia. }
  assert (Hs : 0 <= s) by (unfold s, e'; pose proof (Hdiv2 e); lia).
  set (m' := match s with Z.pos _ => Z.shiftl (Z.pos m) s | 0 => Z.pos m | Z.neg _ => 0 end).
  assert (Hm' : m' = Z.pos m * 2 ^ s).
  { unfold m'. destruct s as [|p|p] eqn:Hsp; try lia.
    now rewrite Z.shiftl_mul_pow2 by lia. }
  assert (Hm'pos : 0 < m') by (rewrite Hm'; pose proof (Z.pow_pos_nonneg 2 s); lia).
  pose proof (Z.sqrtrem_spec m' ltac:(lia)) as Hsqrt.
  destruct (Z.sqrtrem m') as [q r]. destruct Hsqrt as [Hqr Hr].
  assert (Hq : 0 <= q) by lia.
  pose proof (bpow_gt_0 e') as HB.
  assert (HqR : (0 <= IZR q)%R) by (apply IZR_le; lia).
  assert (Hvalue : F2R (Z.pos m) e = (IZR m' * (bpow e' * bpow e'))%R).
  { unfold F2R. replace e with (s + (e' + e')) by (unfold s; lia).
    rewrite !bpow_plus, (bpow_IZR s), Hm', mult_IZR by lia. lra. }
  assert (Hx : sqrt (F2R (Z.pos m) e) = (sqrt (IZR m') * bpow e')%R).
  { rewrite Hvalue, sqrt_mult_alt by (apply IZR_le; lia).
    now rewrite sqrt_square by lra. }
  assert (Hm'R : IZR m' = (IZR q * IZR q + IZR r)%R).
  { rewrite <- mult_IZR, <- plus_IZR. now f_equal. }
  assert (HrR : (0 <= IZR r <= 2 * IZR q)%R).
  { split; [apply IZR_le; lia|]. replace 2%R with (IZR 2) by reflexivity.
    rewrite <- mult_IZR. apply IZR_le. lia. }
  assert (Hloc : located q e'
                   (if r =? 0 then loc_Exact
                    else loc_Inexact (if r <=? q then Lt else Gt))
                   (sqrt (F2R (Z.pos m) e))).
  { rewrite Hx. destruct (r =? 0) eqn:Hr0.
    - apply Z.eqb_eq in Hr0. subst r. cbn [located]. unfold F2R.
      rewrite Hm'R. simpl (IZR 0). rewrite Rplus_0_r, sqrt_square by assumption. reflexivity.
    - apply Z.eqb_neq in Hr0.
      assert (Hrpos : (1 <= IZR r)%R) by (apply IZR_le; lia).
      assert (Hlow : (IZR q < sqrt (IZR m'))%R) by (apply sqrt_above; lra).
      assert (Hup : (sqrt (IZR m') < IZR q + 1)%R) by (apply sqrt_below; nra).
      destruct (r <=? q) eqn:Hrq; cbn [located]; rewrite ?F2R_succ; unfold F2R.
      + apply Z.leb_le in Hrq. apply IZR_le in Hrq.
        assert (sqrt (IZR m') < IZR q + 1 / 2)%R by (apply sqrt_below; nra).
        nra.
      + apply Z.leb_gt in Hrq. assert (q + 1 <= r) as Hrq' by lia.
        apply IZR_le in Hrq'. rewrite plus_IZR in Hrq'.
        assert (IZR q + 1 / 2 < sqrt (IZR m'))%R by (apply sqrt_above; nra).
        nra. }
  split; [exact Hq|]. split; [exact Hloc|].
  apply (fine_of_lower_bound q e' K _ _ Hq Hloc); [|unfold e'; lia].
  pose proof (F2R_digits (Z.pos m) e ltac:(lia)) as [Hlo _].
  pose proof (bpow_gt_0 (K - 1)) as HK.
  apply sqrt_at_least; [lra|].
  rewrite <- bpow_plus.
  pose proof (bpow_le (K - 1 + (K - 1)) (Zdigits2 (Z.pos m) + e - 1)
                ltac:(unfold K; pose proof (Hdiv2 (Zdigits2 (Z.pos m) + e + 1)); lia)).
  lra.
Qed.

(** ** The order of binary64 numbers *)

Lemma nonneg_number_result (r : spec_float) : nonneg_result r -> number_result r.
Proof. destruct r as [s|[|]| |[|] m e]; cbn [nonneg_result number_result]; tauto. Qed.

Lemma compare_opp (a b : Z) : CompOpp (a ?= b) = (- a ?= - b).
Proof. rewrite <- Z.compare_antisym. symmetry. apply Z.compare_opp. Qed.

Lemma compare_finite (m m' : positive) (e e' : Z) :
  Z.pos m < 2 ^ 54 -> Z.pos m' < 2 ^ 54 ->
  match e ?= e' with
  | Lt => Lt
  | Gt => Gt
  | Eq => Pos.compare_cont Eq m m'
  end = ((e + 2000) * 2 ^ 54 + Z.pos m ?= (e' + 2000) * 2 ^ 54 + Z.pos m').
Proof.
  intros Hm Hm'. change (Pos.compare_cont Eq m m') with (Z.pos m ?= Z.pos m').
  change (2 ^ 54) with 18014398509481984 in *.
  destruct (Z.compare_spec e e') as [->|Hlt|Hgt].
  - destruct (Z.compare_spec (Z.pos m) (Z.pos m')) as [Heq|Hlt|Hgt]; symmetry.
    + apply Z.compare_eq_iff. lia.
    + apply Z.compare_lt_iff. lia.
    + apply Z.compare_gt_iff. lia.
  - symmetry. apply Z.compare_lt_iff. lia.
  - symmetry. apply Z.compare_gt_iff. lia.
Qed.

Lemma SFcompare_rank (r r' : spec_float) :
  number_result r -> number_result r' ->
  SFcompare r r' = Some (rank r ?= rank r').
Proof.
  destruct r as [s|[|]| |[|] m e], r' as [s'|[|]| |[|] m' e']; cbn [number_result];
    try tauto; intros Hr Hr'; cbn [SFcompare rank];
    try reflexivity;
    try (f_equal; symmetry; apply Z.compare_lt_iff;
         change (2 ^ 54) with 18014398509481984 in *;
         change (2 ^ 70) with 1180591620717411303424 in *; lia);
    try (f_equal; symmetry; apply Z.compare_gt_iff;
         change (2 ^ 54) with 18014398509481984 in *;
         change (2 ^ 70) with 1180591620717411303424 in *; lia).
  - f_equal. rewrite <- compare_opp, <- compare_finite by tauto.
    now destruct (e ?= e').
  - f_equal. apply compare_finite; tauto.
Qed.

Lemma rank_bounds (r : spec_float) : nonneg_result r -> 0 <= rank r <= 2 ^ 70.
Proof.
  destruct r as [s|[|]| |[|] m e]; cbn [nonneg_result rank]; try tauto;
    change (2 ^ 54) with 18014398509481984 in *;
    change (2 ^ 70) with 1180591620717411303424 in *; lia.
Qed.

Lemma valid_finite (s : bool) (m : positive) (e : Z) :
  valid_binary (S754_finite s m e) = true ->
  e <= 971 /\ Z.pos m < 2 ^ 53 /\ canon e (F2R (Z.pos m) e).
Proof.
  cbn [SpecFloat.valid_binary]. unfold SpecFloat.bounded, SpecFloat.canonical_mantissa.
  rewrite andb_true_iff, Z.eqb_eq, Z.leb_le, fexp_eq.
  change (emax - prec) with 971. intros [Hcanon Hle].
  change (Z.pos (digits2_pos m)) with (Zdigits2 (Z.pos m)) in Hcanon.
  pose proof (F2R_digits (Z.pos m) e ltac:(lia)) as [Hlo Hhi].
  pose proof (Zdigits2_bounds (Z.pos m) ltac:(lia)) as [_ Hlt].
  pose proof (Zdigits2_pos (Z.pos m) ltac:(lia)) as Hd.
  split; [exact Hle|]. split.
  - assert (2 ^ Zdigits2 (Z.pos m) <= 2 ^ 53) by (apply Z.pow_le_mono_r; lia). lia.
  - unfold canon. split; [lia|]. split.
    + pose proof (bpow_le (Zdigits2 (Z.pos m) + e) (e + 53) ltac:(lia)). lra.
    + intros Hgt.
      pose proof (bpow_le (e + 52) (Zdigits2 (Z.pos m) + e - 1) ltac:(lia)). lra.
Qed.

Lemma valid_nonneg_result (r : spec_float) :
  valid_binary r = true -> SFleb (S754_zero false) r = true -> nonneg_result r.
Proof.
  intros Hvalid Hle. destruct r as [s|[|]| |[|] m e]; cbn [nonneg_result]; auto;
    try discriminate.
  apply valid_finite in Hvalid as (He & Hm & Hcanon & _).
  change (2 ^ 54) with 18014398509481984. change (2 ^ 53) with 9007199254740992 in Hm. lia.
Qed.

(** The order of the ranks is the order of the values. *)
Lemma rank_le_F2R (m m' : positive) (e e' : Z) :
  valid_binary (S754_finite false m e) = true ->
  valid_binary (S754_finite false m' e') = true ->
  rank (S754_finite false m e) <= rank (S754_finite false m' e') ->
  (F2R (Z.pos m) e <= F2R (Z.pos m') e')%R.
Proof.
  intros Hv Hv' Hkey.
  apply valid_finite in Hv as (He & Hm & HE & Hhi & Hlo).
  apply valid_finite in Hv' as (He' & Hm' & HE' & Hhi' & Hlo').
  cbn [rank] in Hkey.
  change (2 ^ 54) with 18014398509481984 in *. change (2 ^ 53) with 9007199254740992 in *.
  destruct (Z.eq_dec e e') as [<-|Hne].
  - unfold F2R. pose proof (bpow_gt_0 e).
    assert (Z.pos m <= Z.pos m') as Hle by lia. apply IZR_le in Hle. nra.
  - assert (e < e') by lia. specialize (Hlo' ltac:(lia)).
    pose proof (bpow_le (e + 53) (e' + 52) ltac:(lia)). lra.
Qed.

Lemma rank_lt_F2R (m m' : positive) (e e' : Z) :
  valid_binary (S754_finite false m e) = true ->
  valid_binary (S754_finite false m' e') = true ->
  rank (S754_finite false m e) < rank (S754_finite false m' e') ->
  (F2R (Z.pos m) e < F2R (Z.pos m') e')%R.
Proof.
  intros Hv Hv' Hkey.
  apply valid_finite in Hv as (He & Hm & HE & Hhi & Hlo).
  apply valid_finite in Hv' as (He' & Hm' & HE' & Hhi' & Hlo').
  cbn [rank] in Hkey.
  change (2 ^ 54) with 18014398509481984 in *. change (2 ^ 53) with 9007199254740992 in *.
  destruct (Z.eq_dec e e') as [<-|Hne].
  - unfold F2R. pose proof (bpow_gt_0 e).
    assert (Z.pos m < Z.pos m') as Hlt by lia. apply IZR_lt in Hlt. nra.
  - assert (e < e') by lia. specialize (Hlo' ltac:(lia)).
    pose proof (bpow_le (e + 53) (e' + 52) ltac:(lia)). lra.
Qed.

(** Quotients by a positive number, as values of the format. *)
Lemma SFdiv_finite (m1 m2 : positive) (e1 e2 : Z) :
  exists q e l,
    SFdiv prec emax (S754_finite false m1 e1) (S754_finite false m2 e2)
    = binary_round_aux prec emax false q e l /\
    0 <= q /\
    located q e l (F2R (Z.pos m1) e1 / F2R (Z.pos m2) e2)%R /\
    e <= fexp prec emax (Zdigits2 q + e).
Proof.
  pose proof (SFdiv_core_binary_spec m1 m2 e1 e2) as Hcore.
  cbn [SFdiv xorb].
  destruct (SFdiv_core_binary prec emax (Z.pos m1) e1 (Z.pos m2) e2) as [[q e] l].
  exists q, e, l. tauto.
Qed.

Lemma SFsqrt_finite (m : positive) (e : Z) :
  exists q e' l,
    SFsqrt prec emax (S754_finite false m e) = binary_round_aux prec emax false q e' l /\
    0 <= q /\
    located q e' l (sqrt (F2R (Z.pos m) e)) /\
    e' <= fexp prec emax (Zdigits2 q + e').
Proof.
  pose proof (SFsqrt_core_binary_spec m e) as Hcore.
  cbn [SFsqrt].
  destruct (SFsqrt_core_binary prec emax (Z.pos m) e) as [[q e'] l].
  exists q, e', l. tauto.
Qed.

(** The quotient of a number that is not negative by a larger one grows with
    the dividend. *)
Lemma SFdiv_mono (a b d : spec_float) :
  valid_binary a = true -> valid_binary b = true -> valid_binary d = true ->
  nonneg_result a -> nonneg_result b -> nonneg_result d ->
  rank a <= rank b -> rank b < rank d ->
  nonneg_result (SFdiv prec emax a d) /\
  nonneg_result (SFdiv prec emax b d) /\
  rank (SFdiv prec emax a d) <= rank (SFdiv prec emax b d).
Proof.
  intros Va Vb Vd Na Nb Nd Hab Hbd.
  pose proof (rank_bounds a Na) as Ka. pose proof (rank_bounds b Nb) as Kb.
  pose proof (rank_bounds d Nd) as Kd.
  destruct d as [sd|[|]| |[|] md ed]; cbn [nonneg_result] in Nd; try tauto;
    try (cbn [rank] in Hbd, Kd; lia).
  - (* the divisor is infinite *)
    destruct a as [sa|[|]| |[|] ma ea]; cbn [nonneg_result] in Na; try tauto;
      try (cbn [rank] in *; lia);
      destruct b as [sb|[|]| |[|] mb eb]; cbn [nonneg_result] in Nb; try tauto;
        try (cbn [rank] in *; lia);
        cbn [SFdiv nonneg_result rank]; auto; lia.
  - (* the divisor is finite *)
    destruct b as [sb|[|]| |[|] mb eb]; cbn [nonneg_result] in Nb; try tauto;
      try (cbn [rank] in Hbd, Kd; lia).
    + (* b is zero: so is a *)
      destruct a as [sa|[|]| |[|] ma ea]; cbn [nonneg_result] in Na; try tauto;
        try (exfalso; cbn [rank] in *;
             change (2 ^ 54) with 18014398509481984 in *;
             change (2 ^ 70) with 1180591620717411303424 in *; lia);
        try solve [cbn [SFdiv nonneg_result rank]; auto with zarith].
    + destruct (SFdiv_finite mb md eb ed) as (q' & e' & l' & -> & Hq' & Hloc' & Hfine').
      destruct a as [sa|[|]| |[|] ma ea]; cbn [nonneg_result] in Na; try tauto;
        try (exfalso; cbn [rank] in *;
             change (2 ^ 54) with 18014398509481984 in *;
             change (2 ^ 70) with 1180591620717411303424 in *; lia).
      * (* a is zero *)
        destruct (binary_round_aux_mono q' e' l' _ q' e' l' _ Hq' Hloc' Hfine' Hq' Hloc' Hfine'
                    (Rle_refl _)) as (Nq & _ & _).
        cbn [SFdiv nonneg_result rank]. pose proof (rank_bounds _ Nq). tauto.
      * destruct (SFdiv_finite ma md ea ed) as (q & e & l & -> & Hq & Hloc & Hfine).
        apply (binary_round_aux_mono q e l _ q' e' l' _ Hq Hloc Hfine Hq' Hloc' Hfine').
        pose proof (rank_le_F2R _ _ _ _ Va Vb Hab) as Hle.
        pose proof (F2R_pos (Z.pos md) ed ltac:(lia)) as Hd.
        apply Rmult_le_compat_r; [|exact Hle].
        apply Rlt_le, Rinv_0_lt_compat, Hd.
Qed.

Lemma SF_one_rounds :
  0 <= 2 ^ 52 /\ located (2 ^ 52) (-52) loc_Exact 1%R /\
  -52 <= fexp prec emax (Zdigits2 (2 ^ 52) + -52) /\
  binary_round_aux prec emax false (2 ^ 52) (-52) loc_Exact = SF_one.
Proof.
  split; [lia|]. split; [|split; [vm_compute; discriminate|reflexivity]].
  cbn [located]. rewrite F2R_bpow by lia. reflexivity.
Qed.

(** A number that is not negative, divided by a larger one, is at most 1. *)
Lemma SFdiv_le_one (a d : spec_float) :
  valid_binary a = true -> valid_binary d = true ->
  nonneg_result a -> nonneg_result d ->
  rank a < rank d ->
  nonneg_result (SFdiv prec emax a d) /\ rank (SFdiv prec emax a d) <= rank SF_one.
Proof.
  intros Va Vd Na Nd Had.
  pose proof (rank_bounds a Na) as Ka. pose proof (rank_bounds d Nd) as Kd.
  assert (K1 : 0 <= rank SF_one) by (vm_compute; discriminate).
  destruct a as [sa|[|]| |[|] ma ea]; cbn [nonneg_result] in Na; try tauto;
    try (exfalso; cbn [rank] in *; lia);
    destruct d as [sd|[|]| |[|] md ed]; cbn [nonneg_result] in Nd; try tauto;
      try (exfalso; cbn [rank] in *;
           change (2 ^ 54) with 18014398509481984 in *;
           change (2 ^ 70) with 1180591620717411303424 in *; lia);
      try solve [cbn [SFdiv nonneg_result xorb]; split; [exact I|exact K1]].
  destruct (SFdiv_finite ma md ea ed) as (q & e & l & -> & Hq & Hloc & Hfine).
  destruct SF_one_rounds as (H1 & Hloc1 & Hfine1 & Hone).
  rewrite <- Hone.
  destruct (binary_round_aux_mono q e l _ (2 ^ 52) (-52) loc_Exact 1%R
              Hq Hloc Hfine H1 Hloc1 Hfine1) as (Nq & _ & Hkey); [|tauto].
  pose proof (rank_lt_F2R _ _ _ _ Va Vd Had) as Hlt.
  pose proof (F2R_pos (Z.pos md) ed ltac:(lia)) as Hd.
  apply Rmult_le_reg_r with (F2R (Z.pos md) ed); auto.
  unfold Rdiv. rewrite Rmult_assoc, Rinv_l, Rmult_1_r by lra. lra.
Qed.

(** The square root grows with its argument. *)
Lemma SFsqrt_mono (u v : spec_float) :
  valid_binary u = true -> valid_binary v = true ->
  nonneg_result u -> nonneg_result v ->
  rank u <= rank v ->
  nonneg_result (SFsqrt prec emax u) /\
  nonneg_result (SFsqrt prec emax v) /\
  rank (SFsqrt prec emax u) <= rank (SFsqrt prec emax v).
Proof.
  intros Vu Vv Nu Nv Huv.
  pose proof (rank_bounds u Nu) as Ku. pose proof (rank_bounds v Nv) as Kv.
  assert (Hself : forall m e,
             nonneg_result (SFsqrt prec emax (S754_finite false m e))).
  { intros m e. destruct (SFsqrt_finite m e) as (q & e' & l & -> & Hq & Hloc & Hfine).
    apply (binary_round_aux_mono q e' l _ q e' l _ Hq Hloc Hfine Hq Hloc Hfine (Rle_refl _)). }
  destruct u as [su|[|]| |[|] mu eu]; cbn [nonneg_result] in Nu; try tauto;
    destruct v as [sv|[|]| |[|] mv ev]; cbn [nonneg_result] in Nv; try tauto;
      try (exfalso; cbn [rank] in *;
           change (2 ^ 54) with 18014398509481984 in *;
           change (2 ^ 70) with 1180591620717411303424 in *; lia);
      try solve [cbn [SFsqrt nonneg_result rank]; auto with zarith].
  - (* zero, finite *)
    pose proof (Hself mv ev) as Hn. pose proof (rank_bounds _ Hn).
    cbn [SFsqrt nonneg_result rank] in *. tauto.
  - (* finite, infinite *)
    pose proof (Hself mu eu) as Hn. pose proof (rank_bounds _ Hn).
    split; [exact Hn|]. split; [exact I|]. cbn [SFsqrt rank] in *. tauto.
  - (* finite, finite *)
    destruct (SFsqrt_finite mu eu) as (q & e & l & -> & Hq & Hloc & Hfine).
    destruct (SFsqrt_finite mv ev) as (q' & e' & l' & -> & Hq' & Hloc' & Hfine').
    apply (binary_round_aux_mono q e l _ q' e' l' _ Hq Hloc Hfine Hq' Hloc' Hfine').
    apply sqrt_le_1_alt. now apply rank_le_F2R.
Qed.

(** ** Addition of numbers that are not negative *)

Lemma Pos_iter_xO (m d : positive) : Z.pos (Pos.iter xO m d) = Z.pos m * 2 ^ Z.pos d.
Proof.
  induction d as [|d IH] using Pos.peano_ind.
  - simpl. lia.
  - rewrite Pos.iter_succ, Pos2Z.inj_succ, Z.pow_succ_r by lia.
    rewrite Pos2Z.inj_xO, IH. lia.
Qed.

Lemma shl_align_spec (m : positive) (e e' : Z) :
  snd (shl_align m e e') = Z.min e e' /\
  Z.pos (fst (shl_align m e e')) = Z.pos m * 2 ^ (e - Z.min e e').
Proof.
  unfold shl_align. destruct (e' - e) as [|d|d] eqn:Hd; cbn [fst snd].
  - replace (Z.min e e') with e by lia. rewrite Z.sub_diag. simpl. lia.
  - replace (Z.min e e') with e by lia. rewrite Z.sub_diag. simpl. lia.
  - replace (Z.min e e') with e' by lia. rewrite Pos_iter_xO.
    replace (e - e') with (Z.pos d) by lia. split; reflexivity.
Qed.

Lemma F2R_shift (m e k : Z) : 0 <= k -> F2R (m * 2 ^ k) (e - k) = F2R m e.
Proof.
  intros Hk. unfold F2R. rewrite mult_IZR, <- bpow_IZR by assumption.
  replace e with (k + (e - k)) at 2 by lia. rewrite bpow_plus. lra.
Qed.

Lemma binary_round_spec (m : positive) (e : Z) :
  exists mz ez,
    binary_round prec emax false m e = binary_round_aux prec emax false mz ez loc_Exact /\
    0 <= mz /\ located mz ez loc_Exact (F2R (Z.pos m) e) /\
    ez <= fexp prec emax (Zdigits2 mz + ez).
Proof.
  unfold binary_round.
  pose proof (shl_align_spec m e (fexp prec emax (Z.pos (digits2_pos m) + e))) as [Hez Hmz].
  destruct (shl_align m e (fexp prec emax (Z.pos (digits2_pos m) + e))) as [mz ez].
  cbn [fst snd] in *. exists (Z.pos mz), ez.
  assert (Hloc : located (Z.pos mz) ez loc_Exact (F2R (Z.pos m) e)).
  { cbn [located]. rewrite Hmz, Hez.
    replace (Z.min e (fexp prec emax (Z.pos (digits2_pos m) + e)))
      with (e - (e - Z.min e (fexp prec emax (Z.pos (digits2_pos m) + e)))) at 2 by lia.
    rewrite F2R_shift by lia. reflexivity. }
  split; [reflexivity|]. split; [lia|]. split; [exact Hloc|].
  apply (fine_of_lower_bound (Z.pos mz) ez (Zdigits2 (Z.pos m) + e) _ _ ltac:(lia) Hloc).
  - apply (F2R_digits (Z.pos m) e). lia.
  - rewrite Hez. change (Zdigits2 (Z.pos m)) with (Z.pos (digits2_pos m)). lia.
Qed.

Lemma SFadd_finite (m1 m2 : positive) (e1 e2 : Z) :
  exists mz ez,
    SFadd prec emax (S754_finite false m1 e1) (S754_finite false m2 e2)
    = binary_round_aux prec emax false mz ez loc_Exact /\
    0 <= mz /\ located mz ez loc_Exact (F2R (Z.pos m1) e1 + F2R (Z.pos m2) e2)%R /\
    ez <= fexp prec emax (Zdigits2 mz + ez).
Proof.
  cbn [SFadd cond_Zopp].
  pose proof (shl_align_spec m1 e1 (Z.min e1 e2)) as [_ H1].
  pose proof (shl_align_spec m2 e2 (Z.min e1 e2)) as [_ H2].
  rewrite H1, H2.
  replace (Z.min e1 (Z.min e1 e2)) with (Z.min e1 e2) by lia.
  replace (Z.min e2 (Z.min e1 e2)) with (Z.min e1 e2) by lia.
  set (ez := Z.min e1 e2).
  assert (Hsum : exists M, Z.pos m1 * 2 ^ (e1 - ez) + Z.pos m2 * 2 ^ (e2 - ez) = Z.pos M).
  { pose proof (Z.pow_pos_nonneg 2 (e1 - ez) ltac:(lia) ltac:(unfold ez; lia)).
    pose proof (Z.pow_pos_nonneg 2 (e2 - ez) ltac:(lia) ltac:(unfold ez; lia)).
    destruct (Z.pos m1 * 2 ^ (e1 - ez) + Z.pos m2 * 2 ^ (e2 - ez)) as [|M|M] eqn:HM;
      try nia. now exists M. }
  destruct Hsum as [M HM]. rewrite HM. cbn [binary_normalize].
  assert (Hvalue : F2R (Z.pos M) ez = (F2R (Z.pos m1) e1 + F2R (Z.pos m2) e2)%R).
  { rewrite <- HM. unfold F2R at 1. rewrite plus_IZR, Rmult_plus_distr_r.
    fold (F2R (Z.pos m1 * 2 ^ (e1 - ez)) ez). fold (F2R (Z.pos m2 * 2 ^ (e2 - ez)) ez).
    replace ez with (e1 - (e1 - ez)) at 2 by lia.
    replace ez with (e2 - (e2 - ez)) at 4 by lia.
    rewrite !F2R_shift by (unfold ez; lia). reflexivity. }
  rewrite <- Hvalue. apply binary_round_spec.
Qed.

(** ** The primitive operations *)

Lemma nonneg_result_of (x : float) : nonneg x -> nonneg_result (Prim2SF x).
Proof.
  unfold nonneg. rewrite FloatAxioms.leb_spec. apply valid_nonneg_result, Prim2SF_valid.
Qed.

Lemma nonneg_of_result (x : float) : nonneg_result (Prim2SF x) -> nonneg x.
Proof.
  intros Hn. unfold nonneg. rewrite FloatAxioms.leb_spec. unfold SFleb.
  change (Prim2SF 0) with (S754_zero false).
  rewrite (SFcompare_rank (S754_zero false) (Prim2SF x) I (nonneg_number_result _ Hn)).
  pose proof (rank_bounds _ Hn) as [Hlo _]. cbn [rank].
  destruct (Z.compare_spec 0 (rank (Prim2SF x))); auto; lia.
Qed.

Lemma number_result_of (x : float) : number x -> number_result (Prim2SF x).
Proof.
  unfold number. rewrite FloatAxioms.eqb_spec. pose proof (Prim2SF_valid x) as Hvalid.
  destruct (Prim2SF x) as [s|s| |s m e]; cbn [number_result]; auto; try discriminate.
  intros _. apply valid_finite in Hvalid as (He & Hm & Hcanon & _).
  change (2 ^ 54) with 18014398509481984. change (2 ^ 53) with 9007199254740992 in Hm. lia.
Qed.

Lemma nonneg_number (x : float) : nonneg x -> number x.
Proof.
  intros Hx. apply nonneg_result_of in Hx. unfold number.
  rewrite FloatAxioms.eqb_spec. unfold SFeqb.
  rewrite (SFcompare_rank _ _ (nonneg_number_result _ Hx) (nonneg_number_result _ Hx)).
  now rewrite Z.compare_refl.
Qed.

Lemma leb_rank (x y : float) :
  number x -> number y -> ((x <=? y)%float = true <-> num_rank x <= num_rank y).
Proof.
  intros Hx Hy. rewrite FloatAxioms.leb_spec. unfold SFleb, num_rank.
  rewrite (SFcompare_rank _ _ (number_result_of x Hx) (number_result_of y Hy)).
  destruct (Z.compare_spec (rank (Prim2SF x)) (rank (Prim2SF y)));
    split; try discriminate; auto; lia.
Qed.

Lemma ltb_rank (x y : float) :
  number x -> number y -> ((x <? y)%float = true <-> num_rank x < num_rank y).
Proof.
  intros Hx Hy. rewrite FloatAxioms.ltb_spec. unfold SFltb, num_rank.
  rewrite (SFcompare_rank _ _ (number_result_of x Hx) (number_result_of y Hy)).
  destruct (Z.compare_spec (rank (Prim2SF x)) (rank (Prim2SF y)));
    split; try discriminate; auto; lia.
Qed.

Lemma eqb_rank (x y : float) :
  number x -> number y -> ((x =? y)%float = true <-> num_rank x = num_rank y).
Proof.
  intros Hx Hy. rewrite FloatAxioms.eqb_spec. unfold SFeqb, num_rank.
  rewrite (SFcompare_rank _ _ (number_result_of x Hx) (number_result_of y Hy)).
  destruct (Z.compare_spec (rank (Prim2SF x)) (rank (Prim2SF y)));
    split; try discriminate; auto; lia.
Qed.

(** Whatever is larger than a number that is not negative is not negative. *)
Lemma ltb_nonneg (x y : float) : nonneg x -> (x <? y)%float = true -> nonneg y.
Proof.
  intros Hx Hlt. apply nonneg_of_result.
  apply nonneg_result_of in Hx. rewrite FloatAxioms.ltb_spec in Hlt. unfold SFltb in Hlt.
  pose proof (Prim2SF_valid y) as Hv.
  destruct (Prim2SF x) as [s|[|]| |[|] m e]; cbn [nonneg_result] in Hx; try tauto;
    destruct (Prim2SF y) as [s'|[|]| |[|] m' e']; cbn [SFcompare] in Hlt;
      try discriminate; try exact I;
      apply (valid_nonneg_result _ Hv); reflexivity.
Qed.

Lemma div_mono (a b d : float) :
  nonneg a -> nonneg b -> (a <=? b)%float = true -> (b <? d)%float = true ->
  nonneg (a / d) /\ nonneg (b / d) /\ (a / d <=? b / d)%float = true.
Proof.
  intros Ha Hb Hab Hbd.
  pose proof (ltb_nonneg _ _ Hb Hbd) as Hd.
  apply (leb_rank _ _ (nonneg_number _ Ha) (nonneg_number _ Hb)) in Hab. apply (ltb_rank _ _ (nonneg_number _ Hb) (nonneg_number _ Hd)) in Hbd.
  destruct (SFdiv_mono (Prim2SF a) (Prim2SF b) (Prim2SF d)
              (Prim2SF_valid a) (Prim2SF_valid b) (Prim2SF_valid d)
              (nonneg_result_of a Ha) (nonneg_result_of b Hb) (nonneg_result_of d Hd)
              Hab Hbd) as (Na & Nb & Hkey).
  change (SFdiv prec emax) with SF64div in *. rewrite <- !FloatAxioms.div_spec in *.
  pose proof (nonneg_of_result _ Na). pose proof (nonneg_of_result _ Nb).
  split; [assumption|]. split; [assumption|]. now apply leb_rank; try apply nonneg_number.
Qed.

Lemma div_le_one (a d : float) :
  nonneg a -> (a <? d)%float = true ->
  nonneg (a / d) /\ (a / d <=? 1)%float = true.
Proof.
  intros Ha Had.
  pose proof (ltb_nonneg _ _ Ha Had) as Hd.
  apply (ltb_rank _ _ (nonneg_number _ Ha) (nonneg_number _ Hd)) in Had.
  destruct (SFdiv_le_one (Prim2SF a) (Prim2SF d) (Prim2SF_valid a) (Prim2SF_valid d)
              (nonneg_result_of a Ha) (nonneg_result_of d Hd) Had) as (Na & Hkey).
  change (SFdiv prec emax) with SF64div in *. rewrite <- !FloatAxioms.div_spec in *.
  pose proof (nonneg_of_result _ Na) as Hq.
  split; [assumption|]. apply leb_rank; [now apply nonneg_number|reflexivity|exact Hkey].
Qed.

Lemma sqrt_mono (u v : float) :
  nonneg u -> nonneg v -> (u <=? v)%float = true ->
  nonneg (PrimFloat.sqrt u) /\ nonneg (PrimFloat.sqrt v) /\
  (PrimFloat.sqrt u <=? PrimFloat.sqrt v)%float = true.
Proof.
  intros Hu Hv Huv. apply (leb_rank _ _ (nonneg_number _ Hu) (nonneg_number _ Hv)) in Huv.
  destruct (SFsqrt_mono (Prim2SF u) (Prim2SF v) (Prim2SF_valid u) (Prim2SF_valid v)
              (nonneg_result_of u Hu) (nonneg_result_of v Hv) Huv) as (Nu & Nv & Hkey).
  change (SFsqrt prec emax) with SF64sqrt in *. rewrite <- !FloatAxioms.sqrt_spec in *.
  pose proof (nonneg_of_result _ Nu). pose proof (nonneg_of_result _ Nv).
  split; [assumption|]. split; [assumption|]. now apply leb_rank; try apply nonneg_number.
Qed.

(** The scale ratio of a frame smaller than the largest lies between 0 and 1. *)
Lemma sqrt_div_bounds (a d : float) :
  nonneg a -> (a <? d)%float = true ->
  (0 <=? PrimFloat.sqrt (a / d))%float = true /\
  (PrimFloat.sqrt (a / d) <=? 1)%float = true.
Proof.
  intros Ha Had. destruct (div_le_one a d Ha Had) as [Hq Hle].
  destruct (sqrt_mono (a / d) 1 Hq eq_refl Hle) as (Hs & _ & Hle1).
  split; [exact Hs|exact Hle1].
Qed.

(** ** Counters *)

Lemma add_one_finite (x : float) :
  nonneg x -> num_rank x < 2 ^ 70 ->
  nonneg (x + 1) /\ num_rank (x + 1) < 2 ^ 70.
Proof.
  intros Hx Hfin. unfold num_rank in *.
  pose proof (nonneg_result_of x Hx) as Nx. pose proof (Prim2SF_valid x) as Vx.
  assert (Hgoal : nonneg_result (Prim2SF (x + 1)) /\ rank (Prim2SF (x + 1)) < 2 ^ 70).
  { rewrite FloatAxioms.add_spec. change (Prim2SF 1) with SF_one. unfold SF64add.
    destruct (Prim2SF x) as [s|[|]| |[|] m e]; cbn [nonneg_result] in Nx; try tauto.
    - split; [vm_compute; intuition discriminate|vm_compute; reflexivity].
    - destruct (SFadd_finite m (2 ^ 52) e (-52)) as (mz & ez & Hadd & Hmz & Hloc & Hfine).
      unfold SF_one. rewrite Hadd.
      destruct (SFadd_finite (2 ^ 53 - 1) (2 ^ 52) 971 (-52))
        as (mz' & ez' & Hadd' & Hmz' & Hloc' & Hfine').
      assert (Hmax : SFadd prec emax (S754_finite false (2 ^ 53 - 1) 971)
                       (S754_finite false (2 ^ 52) (-52))
                     = S754_finite false (2 ^ 53 - 1) 971) by (vm_compute; reflexivity).
      rewrite Hmax in Hadd'.
      destruct (binary_round_aux_mono mz ez loc_Exact _ mz' ez' loc_Exact _
                  Hmz Hloc Hfine Hmz' Hloc' Hfine') as (Nz & _ & Hkey).
      + apply Rplus_le_compat_r.
        apply (rank_le_F2R m (2 ^ 53 - 1) e 971 Vx); [vm_compute; reflexivity|].
        apply valid_finite in Vx as (He & Hm & _).
        cbn [rank]. change (2 ^ 54) with 18014398509481984.
        change (2 ^ 53) with 9007199254740992 in Hm.
        change (Z.pos (2 ^ 53 - 1)) with 9007199254740991. lia.
      + split; [exact Nz|]. rewrite <- Hadd' in Hkey.
        eapply Z.le_lt_trans; [exact Hkey|]. vm_compute. reflexivity. }
  destruct Hgoal as [Ng Hk]. split; [now apply nonneg_of_result|exact Hk].
Qed.


(** ** Loops *)

Section ForLoop.
Context {St : Type}.
Variable body : float -> St -> outcome St.
Variable bound : float.

Lemma for_lt_run (n : nat) :
  (counter n <? bound)%float = false ->
  forall (d k : nat) (fuel : nat) (s : St),
    (k + d = n)%nat ->
    (forall j, (k <= j < n)%nat -> (counter j <? bound)%float = true) ->
    (d < fuel)%nat ->
    for_lt fuel (counter k) bound body s = run_body body (seq k d) s.
Proof.
  intros Hstop d. induction d as [|d IH]; intros k fuel s Hk Hlt Hfuel.
  - destruct fuel as [|fuel]; [lia|]. simpl.
    replace k with n by lia. now rewrite Hstop.
  - destruct fuel as [|fuel]; [lia|]. simpl.
    rewrite Hlt by lia.
    destruct (body (counter k) s) as [s'| |]; simpl; auto.
    change (counter k + 1)%float with (counter (S k)).
    apply IH; [lia| |lia]. intros j Hj. apply Hlt. lia.
Qed.

Lemma for_lt_trips (n fuel : nat) (s : St) :
  trips bound n -> (n < fuel)%nat ->
  for_lt fuel 0%float bound body s = run_body body (seq 0 n) s.
Proof.
  intros [Hlt Hstop] Hfuel.
  apply (for_lt_run n Hstop n 0 fuel s); auto.
  intros j Hj. apply Hlt. lia.
Qed.

Lemma for_lt_Ok_inv (fuel : nat) :
  forall (k : nat) (s s' : St),
    for_lt fuel (counter k) bound body s = Ok s' ->
    exists d, (d < fuel)%nat /\
              (forall j, (k <= j < k + d)%nat -> (counter j <? bound)%float = true) /\
              (counter (k + d) <? bound)%float = false /\
              run_body body (seq k d) s = Ok s'.
Proof.
  induction fuel as [|fuel IH]; intros k s s' Hrun; simpl in Hrun; [discriminate|].
  destruct (counter k <? bound)%float eqn:Htest.
  - destruct (body (counter k) s) as [s1| |] eqn:Hbody; simpl in Hrun; try discriminate.
    change (counter k + 1)%float with (counter (S k)) in Hrun.
    destruct (IH _ _ _ Hrun) as (d & Hd & Hlt & Hstop & Hbodies).
    exists (S d). repeat split.
    + lia.
    + intros j Hj. destruct (Nat.eq_dec j k) as [->|Hne]; [assumption|].
      apply Hlt. lia.
    + now replace (k + S d)%nat with (S k + d)%nat by lia.
    + simpl. now rewrite Hbody.
  - exists 0%nat. repeat split; try lia.
    + now rewrite Nat.add_0_r.
    + simpl. congruence.
Qed.

Lemma for_lt_Ok_trips (fuel : nat) (s s' : St) :
  for_lt fuel 0%float bound body s = Ok s' ->
  exists n, (n < fuel)%nat /\ trips bound n /\ run_body body (seq 0 n) s = Ok s'.
Proof.
  intros Hrun. destruct (for_lt_Ok_inv fuel 0 s s' Hrun) as (d & Hd & Hlt & Hstop & Hb).
  exists d. repeat split; auto. intros k Hk. apply Hlt. lia.
Qed.

(** A loop whose test never fails and whose body returns uses up any fuel. *)
Lemma for_lt_diverges :
  (forall k, (counter k <? bound)%float = true) ->
  (forall i s, exists s', body i s = Ok s') ->
  forall fuel k s, for_lt fuel (counter k) bound body s = OutOfFuel.
Proof.
  intros Hlt Hbody. induction fuel as [|fuel IH]; intros k s; simpl; [reflexivity|].
  rewrite Hlt. destruct (Hbody (counter k) s) as [s' ->]. simpl.
  change (counter k + 1)%float with (counter (S k)). apply IH.
Qed.
End ForLoop.

Lemma trips_unique (bound : float) (n m : nat) : trips bound n -> trips bound m -> n = m.
Proof.
  intros [Hn Hn'] [Hm Hm'].
  destruct (Nat.lt_trichotomy n m) as [Hlt|[->|Hlt]]; auto.
  - rewrite (Hm n Hlt) in Hn'. discriminate.
  - rewrite (Hn m Hlt) in Hm'. discriminate.
Qed.

Lemma trips_reaches (bound : float) (n k : nat) :
  trips bound n -> (reaches bound k <-> (k < n)%nat).
Proof.
  intros [Hlt Hstop]. split.
  - intros Hr. destruct (Nat.lt_ge_cases k n) as [|Hge]; auto.
    rewrite (Hr n Hge) in Hstop. discriminate.
  - intros Hk j Hj. apply Hlt. lia.
Qed.

(** Counters that the loop reaches are pairwise distinct. *)
Lemma counter_shift (k k' d : nat) : counter k = counter k' -> counter (k + d) = counter (k' + d).
Proof.
  intros Heq. induction d as [|d IH].
  - now rewrite !Nat.add_0_r.
  - rewrite !Nat.add_succ_r. simpl. now rewrite IH.
Qed.

Lemma trips_counter_inj (bound : float) (n k k' : nat) :
  trips bound n -> (k < n)%nat -> (k' < n)%nat -> counter k = counter k' -> k = k'.
Proof.
  intros [Hlt Hstop].
  assert (Hwlog : forall a b, (a < b)%nat -> (b < n)%nat -> counter a <> counter b).
  { intros a b Hab Hb Heq.
    pose proof (counter_shift a b (n - b) Heq) as Hs.
    replace (b + (n - b))%nat with n in Hs by lia.
    rewrite <- Hs in Hstop. rewrite Hlt in Hstop by lia. discriminate. }
  intros Hk Hk' Heq.
  destruct (Nat.lt_trichotomy k k') as [H|[H|H]]; auto.
  - exfalso. now apply (Hwlog k k').
  - exfalso. now apply (Hwlog k' k).
Qed.

(** ** Row-major walks that collect cells *)

Lemma in_cells (R C r c : nat) : In (r, c) (cells R C) <-> (r < R)%nat /\ (c < C)%nat.
Proof.
  unfold cells. rewrite in_flat_map. split.
  - intros (r' & Hr & Hc). apply in_map_iff in Hc as (c' & Heq & Hc).
    inversion Heq; subst. apply in_seq in Hr, Hc. lia.
  - intros [Hr Hc]. exists r. split; [apply in_seq; lia|].
    apply in_map_iff. exists c. split; [reflexivity|apply in_seq; lia].
Qed.

Lemma cells_succ (R C : nat) : cells (S R) C = cells R C ++ map (pair R) (seq 0 C).
Proof.
  unfold cells. rewrite seq_S, flat_map_app. simpl. now rewrite app_nil_r.
Qed.

Section Collect.
Context {X : Type}.
(** The test of a cell and what is collected for it. *)
Variable test : float -> float -> outcome bool.
Variable mk : float -> float -> X.
Variable cols : float.

Local Abbreviation collect_rows := (collect_rows test mk cols).
Local Abbreviation collect_cell := (collect_cell test mk).
Local Abbreviation kept := (kept test).
Local Abbreviation made := (made mk).

Lemma collect_row (r : nat) (cs : list nat) :
  forall acc l,
    run_body (collect_cell (counter r)) cs acc = Ok l <->
    (forall c, In c cs -> exists b, test (counter r) (counter c) = Ok b) /\
    l = acc ++ map made (List.filter kept (map (pair r) cs)).
Proof.
  induction cs as [|c cs IH]; intros acc l; simpl.
  - rewrite app_nil_r. split.
    + intros [= ->]. split; [intros c []|reflexivity].
    + intros [_ ->]. reflexivity.
  - unfold collect_cell at 1.
    destruct (test (counter r) (counter c)) as [b| |] eqn:Ht; simpl.
    + assert (Hk : kept (r, c) = b) by (unfold kept; simpl; now rewrite Ht).
      rewrite IH, Hk. split.
      * intros [Hall ->]. split.
        -- intros c' [<-|Hin]; eauto.
        -- destruct b; unfold push; simpl; now rewrite <- ?app_assoc.
      * intros [Hall ->]. split.
        -- intros c' Hin. apply Hall. now right.
        -- destruct b; unfold push; simpl; now rewrite <- ?app_assoc.
    + split; [discriminate|]. intros [Hall _].
      destruct (Hall c (or_introl eq_refl)) as [b Hb]. congruence.
    + split; [discriminate|]. intros [Hall _].
      destruct (Hall c (or_introl eq_refl)) as [b Hb]. congruence.
Qed.

Lemma collect_grid (fuel C : nat) :
  trips cols C -> (C < fuel)%nat ->
  forall R acc l,
    run_body (collect_rows fuel) (seq 0 R) acc = Ok l <->
    (forall r c, (r < R)%nat -> (c < C)%nat -> exists b, test (counter r) (counter c) = Ok b) /\
    l = acc ++ map made (List.filter kept (cells R C)).
Proof.
  intros HC Hfuel R. induction R as [|R IH]; intros acc l.
  - simpl. rewrite app_nil_r. split.
    + intros [= ->]. split; [intros; lia|reflexivity].
    + intros [_ ->]. reflexivity.
  - rewrite seq_S, cells_succ. simpl.
    assert (Happ : forall ks ks' (s : list X),
               run_body (collect_rows fuel) (ks ++ ks') s =
               (s' <- run_body (collect_rows fuel) ks s ;; run_body (collect_rows fuel) ks' s')).
    { induction ks as [|k ks IHks]; intros ks' s; simpl; auto.
      destruct (collect_rows fuel (counter k) s); simpl; auto. }
    rewrite Happ. rewrite List.filter_app, map_app, app_assoc.
    destruct (run_body (collect_rows fuel) (seq 0 R) acc) as [l1| |] eqn:Hrows; simpl.
    + apply IH in Hrows as [Hall ->].
      unfold collect_rows at 1. rewrite (for_lt_trips _ _ C fuel _ HC Hfuel).
      destruct (run_body (collect_cell (counter R)) (seq 0 C)
                  (acc ++ map made (List.filter kept (cells R C)))) as [l2| |] eqn:Hrow; simpl.
      * apply collect_row in Hrow as [Hrow ->]. split.
        -- intros [= ->]. split; auto.
           intros r c Hr Hc. destruct (Nat.eq_dec r R) as [->|Hne].
           ++ apply Hrow. apply in_seq. lia.
           ++ apply Hall; lia.
        -- intros [_ ->]. reflexivity.
      * split; [discriminate|]. intros [Hall' _].
        assert (Hok : run_body (collect_cell (counter R)) (seq 0 C)
                        (acc ++ map made (List.filter kept (cells R C))) =
                      Ok ((acc ++ map made (List.filter kept (cells R C))) ++
                            map made (List.filter kept (map (pair R) (seq 0 C))))).
        { apply collect_row. split; auto. intros c Hc. apply in_seq in Hc. apply Hall'; lia. }
        congruence.
      * split; [discriminate|]. intros [Hall' _].
        assert (Hok : run_body (collect_cell (counter R)) (seq 0 C)
                        (acc ++ map made (List.filter kept (cells R C))) =
                      Ok ((acc ++ map made (List.filter kept (cells R C))) ++
                            map made (List.filter kept (map (pair R) (seq 0 C))))).
        { apply collect_row. split; auto. intros c Hc. apply in_seq in Hc. apply Hall'; lia. }
        congruence.
    + split; [discriminate|]. intros [Hall' _].
      assert (Hok : run_body (collect_rows fuel) (seq 0 R) acc =
                    Ok (acc ++ map made (List.filter kept (cells R C)))).
      { apply IH. split; auto. }
      congruence.
    + split; [discriminate|]. intros [Hall' _].
      assert (Hok : run_body (collect_rows fuel) (seq 0 R) acc =
                    Ok (acc ++ map made (List.filter kept (cells R C)))).
      { apply IH. split; auto. }
      congruence.
Qed.

(** The two loops together, when both stop. *)
Lemma collect_returns (rows : float) (R C fuel : nat) :
  trips rows R -> trips cols C -> (R < fuel)%nat -> (C < fuel)%nat ->
  (forall r c, (r < R)%nat -> (c < C)%nat -> exists b, test (counter r) (counter c) = Ok b) ->
  for_lt fuel 0%float rows (collect_rows fuel) [] = Ok (map made (List.filter kept (cells R C))).
Proof.
  intros HR HC HfR HfC Hall.
  rewrite (for_lt_trips _ _ R fuel _ HR HfR).
  apply (collect_grid fuel C HC HfC R [] _). split; auto.
Qed.

(** What a returned walk went through. *)
Lemma collect_Ok_inv (rows : float) (fuel : nat) (l : list X) :
  for_lt fuel 0%float rows (collect_rows fuel) [] = Ok l ->
  exists R C,
    trips rows R /\ (R = 0%nat \/ trips cols C) /\
    (forall r c, (r < R)%nat -> (c < C)%nat -> exists b, test (counter r) (counter c) = Ok b) /\
    l = map made (List.filter kept (cells R C)).
Proof.
  intros Hrun. apply for_lt_Ok_trips in Hrun as (R & HfR & HR & Hrun).
  destruct R as [|R].
  - exists 0%nat, 0%nat. simpl in Hrun. injection Hrun as <-.
    repeat split; auto; try apply HR. intros; lia.
  - assert (HC : exists C, (C < fuel)%nat /\ trips cols C).
    { simpl in Hrun.
      destruct (collect_rows fuel 0%float []) as [l0| |] eqn:H0; try discriminate.
      unfold collect_rows in H0. apply for_lt_Ok_trips in H0 as (C & HfC & HC & _). eauto. }
    destruct HC as (C & HfC & HC). exists (S R), C.
    destruct (proj1 (collect_grid fuel C HC HfC (S R) [] l) Hrun) as [Hall Hl].
    repeat split; auto; apply HR.
Qed.
End Collect.

(** ** checkIfFrameIsEmpty *)

Lemma byte_eqb_x00 (b : byte) : Byte.eqb b x00 = true <-> b = x00.
Proof.
  split; [apply Byte.byte_dec_bl|apply Byte.byte_dec_lb].
Qed.

Lemma checkIfFrameIsEmpty_from_spec (frameData : list byte) (fuel i : nat) :
  (length frameData <= i + 4 * fuel)%nat ->
  checkIfFrameIsEmpty_from fuel frameData i = true <->
  forall k, (i + 4 * k < length frameData)%nat -> nth (i + 4 * k) frameData x00 = x00.
Proof.
  revert i. induction fuel as [|fuel IH]; intros i Hfuel; cbn [checkIfFrameIsEmpty_from].
  - split; auto. intros _ k Hk. lia.
  - destruct (i <? length frameData)%nat eqn:Hi.
    + apply Nat.ltb_lt in Hi.
      destruct (Byte.eqb (nth i frameData x00) x00) eqn:Hb; cbn [negb].
      * apply byte_eqb_x00 in Hb. rewrite IH by lia. split.
        -- intros Hall k Hk. destruct k as [|k].
           ++ now rewrite Nat.mul_0_r, Nat.add_0_r.
           ++ replace (i + 4 * S k)%nat with (i + 4 + 4 * k)%nat in * by lia. now apply Hall.
        -- intros Hall k Hk.
           replace (i + 4 + 4 * k)%nat with (i + 4 * S k)%nat in * by lia. now apply Hall.
      * split; [discriminate|]. intros Hall.
        specialize (Hall 0%nat). rewrite Nat.mul_0_r, Nat.add_0_r in Hall.
        apply byte_eqb_x00 in Hall; [congruence|assumption].
    + apply Nat.ltb_ge in Hi. split; auto. intros _ k Hk. lia.
Qed.

(** [checkIfFrameIsEmpty] answers true exactly when the bytes at the indices
    3, 7, 11, ... are all 0. *)
Lemma checkIfFrameIsEmpty_spec (frameData : list byte) :
  checkIfFrameIsEmpty frameData = true <->
  forall i, (i < length frameData)%nat -> (i mod 4 = 3)%nat -> nth i frameData x00 = x00.
Proof.
  unfold checkIfFrameIsEmpty. rewrite checkIfFrameIsEmpty_from_spec by lia. split.
  - intros Hall i Hi Hmod.
    pose proof (Nat.div_mod_eq i 4) as Hdiv.
    replace i with (3 + 4 * (i / 4))%nat by lia. apply Hall. lia.
  - intros Hall k Hk. apply Hall; auto.
    replace (3 + 4 * k)%nat with (3 + k * 4)%nat by lia.
    now rewrite Nat.Div0.mod_add.
Qed.

(** ** getRowsAndColumns *)

Lemma for_lt_ext {St : Type} (body body' : float -> St -> outcome St) :
  (forall i s, body i s = body' i s) ->
  forall fuel i bound s, for_lt fuel i bound body s = for_lt fuel i bound body' s.
Proof.
  intros Hext. induction fuel as [|fuel IH]; intros i bound s; simpl; auto.
  destruct (i <? bound)%float; auto.
  rewrite Hext. destruct (body' i s); simpl; auto.
Qed.

Lemma inspect_cell_collect (host : Host) (img : Image) (totalFrames cols fw fh r c : float)
    (acc : list SpriteMetaDimension) :
  inspect_cell host img totalFrames cols fw fh r c acc =
  collect_cell (marks host img totalFrames cols fw fh) Build_SpriteMetaDimension r c acc.
Proof.
  unfold inspect_cell, collect_cell, marks.
  destruct (totalFrames <=? r * cols + c)%float; simpl; auto.
  destruct (getImageData host img _ _ fw fh) as [d| |]; simpl; auto.
  destruct (checkIfFrameIsEmpty d); auto.
Qed.

Lemma getRowsAndColumns_scan (fuel : nat) (host : Host) (img : Image) (totalFrames : float) :
  getContext host = true ->
  drawImage host img = Ok tt ->
  getRowsAndColumns fuel host {| image := Some img |} totalFrames =
  (emptyFrames <-
     for_lt fuel 0%float (inferred_rows img totalFrames)
       (collect_rows (inferred_marks host img totalFrames) Build_SpriteMetaDimension
          (inferred_columns img totalFrames) fuel) [] ;;
   Ok {| rows := inferred_rows img totalFrames;
         columns := inferred_columns img totalFrames;
         frameWidth := (width img / inferred_columns img totalFrames)%float;
         frameHeight := (height img / inferred_rows img totalFrames)%float;
         emptyFrames := emptyFrames |}).
Proof.
  intros Hctx Hdraw. unfold getRowsAndColumns. simpl. rewrite Hctx, Hdraw. simpl.
  f_equal. apply for_lt_ext. intros r acc. unfold collect_rows.
  apply for_lt_ext. intros c acc'. apply inspect_cell_collect.
Qed.

Lemma getRowsAndColumns_Ok_image (fuel : nat) (host : Host) (img : Image) (totalFrames : float)
    (layout : GridLayout) :
  getRowsAndColumns fuel host {| image := Some img |} totalFrames = Ok layout ->
  getContext host = true /\ drawImage host img = Ok tt.
Proof.
  unfold getRowsAndColumns. simpl.
  destruct (getContext host); simpl; [|discriminate].
  destruct (drawImage host img) as [[]| |]; simpl; [auto|discriminate|discriminate].
Qed.

(** What a returned grid inference went through: both loops stopped, every
    cell below the frame count was sampled, and the empty cells are the
    marked ones, row-major. *)
Lemma getRowsAndColumns_Ok_inv (fuel : nat) (host : Host) (img : Image) (totalFrames : float)
    (layout : GridLayout) :
  getRowsAndColumns fuel host {| image := Some img |} totalFrames = Ok layout ->
  rows layout = inferred_rows img totalFrames /\
  columns layout = inferred_columns img totalFrames /\
  frameWidth layout = (width img / inferred_columns img totalFrames)%float /\
  frameHeight layout = (height img / inferred_rows img totalFrames)%float /\
  exists R C,
    trips (rows layout) R /\ (R = 0%nat \/ trips (columns layout) C) /\
    (forall r c, (r < R)%nat -> (c < C)%nat ->
       exists b, inferred_marks host img totalFrames (counter r) (counter c) = Ok b) /\
    emptyFrames layout =
      map (fun rc => cell (fst rc) (snd rc))
        (List.filter (kept (inferred_marks host img totalFrames)) (cells R C)).
Proof.
  intros Hrun. destruct (getRowsAndColumns_Ok_image _ _ _ _ _ Hrun) as [Hctx Hdraw].
  rewrite (getRowsAndColumns_scan _ _ _ _ Hctx Hdraw) in Hrun.
  destruct (for_lt fuel 0%float _ _ []) as [l| |] eqn:Hloop; simpl in Hrun; try discriminate.
  injection Hrun as <-. simpl. repeat split.
  destruct (collect_Ok_inv _ _ _ _ _ _ Hloop) as (R & C & HR & HC & Hall & Hl).
  exists R, C. split; [exact HR|]. split; [exact HC|]. split; [exact Hall|exact Hl].
Qed.

Lemma getRowsAndColumns_returns (host : Host) (img : Image) (totalFrames : float)
    (R C fuel : nat) :
  getContext host = true ->
  drawImage host img = Ok tt ->
  trips (inferred_rows img totalFrames) R ->
  trips (inferred_columns img totalFrames) C ->
  (R < fuel)%nat -> (C < fuel)%nat ->
  (forall r c, (r < R)%nat -> (c < C)%nat ->
     exists b, inferred_marks host img totalFrames (counter r) (counter c) = Ok b) ->
  getRowsAndColumns fuel host {| image := Some img |} totalFrames =
  Ok {| rows := inferred_rows img totalFrames;
        columns := inferred_columns img totalFrames;
        frameWidth := (width img / inferred_columns img totalFrames)%float;
        frameHeight := (height img / inferred_rows img totalFrames)%float;
        emptyFrames :=
          map (fun rc => cell (fst rc) (snd rc))
            (List.filter (kept (inferred_marks host img totalFrames)) (cells R C)) |}.
Proof.
  intros Hctx Hdraw HR HC HfR HfC Hall.
  rewrite (getRowsAndColumns_scan _ _ _ _ Hctx Hdraw).
  rewrite (collect_returns _ _ _ _ R C fuel HR HC HfR HfC Hall). reflexivity.
Qed.

(** Membership of a reached cell in the empty cells of a returned layout. *)
Lemma in_made_cells (test : float -> float -> outcome bool) (rowsb colsb : float)
    (R C r c : nat) :
  trips rowsb R -> trips colsb C -> (r < R)%nat -> (c < C)%nat ->
  In (cell r c) (map (fun rc => cell (fst rc) (snd rc)) (List.filter (kept test) (cells R C))) <->
  kept test (r, c) = true.
Proof.
  intros HR HC Hr Hc. rewrite in_map_iff. split.
  - intros ([r' c'] & Heq & Hin). simpl in Heq.
    apply filter_In in Hin as [Hin Hkept]. apply in_cells in Hin as [Hr' Hc'].
    injection Heq as Hrow Hcol.
    apply (trips_counter_inj _ _ _ _ HR Hr' Hr) in Hrow.
    apply (trips_counter_inj _ _ _ _ HC Hc' Hc) in Hcol. now subst.
  - intros Hkept. exists (r, c). split; [reflexivity|].
    apply filter_In. split; [now apply in_cells|assumption].
Qed.

Ltac solve_trips :=
  split;
  [ let k := fresh "k" in
    let Hk := fresh "Hk" in
    intros k Hk;
    repeat (destruct k as [|k]; [vm_compute; reflexivity|]); lia
  | vm_compute; reflexivity ].

Lemma reaches_zero_inv (k : nat) : ~ reaches 0%float k.
Proof.
  intros Hr. specialize (Hr 0%nat (Nat.le_0_l k)). vm_compute in Hr. discriminate.
Qed.

(** The reached cells of a returned layout are the cells of its grid. *)
Lemma reached_cell (rowsb colsb : float) (R C r c : nat) :
  trips rowsb R -> (R = 0%nat \/ trips colsb C) ->
  reaches rowsb r -> reaches colsb c ->
  trips colsb C /\ (r < R)%nat /\ (c < C)%nat.
Proof.
  intros HR HC Hr Hc.
  apply (trips_reaches _ _ _ HR) in Hr.
  destruct HC as [->|HC]; [lia|].
  apply (trips_reaches _ _ _ HC) in Hc. auto.
Qed.

(** C5: without an image, grid inference returns the all-zero layout with no
    empty cell, whatever the frame count and the canvas, and throws nothing. *)
Theorem getRowsAndColumns_without_image :
  forall (fuel : nat) (host : Host) (totalFrames : float),
    getRowsAndColumns fuel host {| image := None |} totalFrames =
    Ok {| rows := 0; columns := 0; frameWidth := 0; frameHeight := 0; emptyFrames := [] |}.
Proof.
  intros fuel host totalFrames. reflexivity.
Qed.

(** C3: in a layout that grid inference returns, every cell the loops reach
    whose index [row * columns + col] is at least the frame count is among
    the empty cells; on the 512 by 256 sheet with 7 frames the grid is 2 by 4
    and the cell (1, 3), of index 7, is the only such cell. *)
Theorem padding_cells_are_empty :
  (forall (fuel : nat) (host : Host) (texture : Texture) (totalFrames : float)
          (layout : GridLayout),
      getRowsAndColumns fuel host texture totalFrames = Ok layout ->
      forall r c,
        reaches (rows layout) r -> reaches (columns layout) c ->
        (totalFrames <=? counter r * columns layout + counter c)%float = true ->
        In (cell r c) (emptyFrames layout)) /\
  (forall (host : Host),
      getContext host = true ->
      drawImage host sheet = Ok tt ->
      (forall sx sy sw sh, exists frameData, getImageData host sheet sx sy sw sh = Ok frameData) ->
      exists layout,
        getRowsAndColumns 5 host sheet_texture 7 = Ok layout /\
        rows layout = 2%float /\ columns layout = 4%float /\
        In {| row := 1; col := 3 |} (emptyFrames layout) /\
        forall r c,
          reaches (rows layout) r -> reaches (columns layout) c ->
          ((7 <=? counter r * columns layout + counter c)%float = true <->
           r = 1%nat /\ c = 3%nat)).
Proof.
  split.
  - intros fuel host [[img|]] totalFrames layout Hrun r c Hr Hc Hidx.
    + destruct (getRowsAndColumns_Ok_inv _ _ _ _ _ Hrun)
        as (Hrows & Hcols & _ & _ & R & C & HR & HC & Hall & ->).
      destruct (reached_cell _ _ _ _ _ _ HR HC Hr Hc) as (HC' & HrR & HcC).
      apply (in_made_cells _ _ _ _ _ _ _ HR HC' HrR HcC).
      unfold kept, inferred_marks, marks. simpl.
      rewrite <- Hcols, Hidx. reflexivity.
    + injection Hrun as <-. simpl in Hr. now apply reaches_zero_inv in Hr.
  - intros host Hctx Hdraw Hdata.
    assert (HR : trips (inferred_rows sheet 7) 2) by solve_trips.
    assert (HC : trips (inferred_columns sheet 7) 4) by solve_trips.
    eexists. split.
    + apply (getRowsAndColumns_returns host sheet 7 2 4 5 Hctx Hdraw HR HC); try lia.
      intros r c _ _. unfold inferred_marks, marks.
      destruct (7 <=? _)%float; eauto.
      destruct (Hdata (counter c * (width sheet / inferred_columns sheet 7))%float
                  (counter r * (height sheet / inferred_rows sheet 7))%float
                  (width sheet / inferred_columns sheet 7)%float
                  (height sheet / inferred_rows sheet 7)%float) as [d ->].
      simpl. eauto.
    + cbn [rows columns emptyFrames].
      split; [vm_compute; reflexivity|]. split; [vm_compute; reflexivity|]. split.
      * change {| row := 1; col := 3 |} with (cell 1 3).
        apply (in_made_cells _ _ _ _ _ _ _ HR HC); try lia.
        unfold kept, inferred_marks, marks. cbn [fst snd].
        replace (7 <=? counter 1 * inferred_columns sheet 7 + counter 3)%float with true
          by (vm_compute; reflexivity).
        reflexivity.
      * intros r c Hr Hc.
        apply (trips_reaches _ _ _ HR) in Hr. apply (trips_reaches _ _ _ HC) in Hc.
        destruct r as [|[|r]]; [| |lia];
          (destruct c as [|[|[|[|c]]]]; [| | | |lia]);
          (split; [intros Hidx; vm_compute in Hidx; try discriminate; auto
                  |intros [? ?]; try discriminate; vm_compute; reflexivity]).
Qed.

Lemma padding_cells_are_empty_witness :
  getRowsAndColumns 5 opaque_host sheet_texture 7 =
    Ok {| rows := 2; columns := 4; frameWidth := 128; frameHeight := 128;
          emptyFrames := [ {| row := 1; col := 3 |} ] |} /\
  In (cell 1 3) [ {| row := 1; col := 3 |} ].
Proof.
  assert (Hrun : getRowsAndColumns 5 opaque_host sheet_texture 7 =
                 Ok {| rows := 2; columns := 4; frameWidth := 128; frameHeight := 128;
                       emptyFrames := [ {| row := 1; col := 3 |} ] |})
    by (vm_compute; reflexivity).
  split; [exact Hrun|].
  apply (proj1 padding_cells_are_empty 5%nat opaque_host sheet_texture 7%float _ Hrun 1%nat 3%nat).
  - intros j Hj. cbn [rows]. do 2 (destruct j as [|j]; [vm_compute; reflexivity|]). lia.
  - intros j Hj. cbn [columns]. do 4 (destruct j as [|j]; [vm_compute; reflexivity|]). lia.
  - vm_compute. reflexivity.
Defined.

(** C4: [checkIfFrameIsEmpty] answers true exactly when the bytes at the
    indices 3, 7, 11, ... are all 0. In a layout that grid inference returns,
    a reached cell whose index is below the frame count was sampled on its
    own rectangle, and it is among the empty cells exactly when every alpha
    byte of its sample is 0. Grid inference does return such a layout
    whenever both loops stop and the canvas can be sampled on the rectangle
    of each such cell; and on the 512 by 256 sheet with 8 frames, drawn on a
    canvas whose cell (0, 1) alone is fully transparent, it returns the 2 by
    4 grid with that one empty cell. *)
Theorem transparent_cells_are_empty :
  (forall (frameData : list byte),
      checkIfFrameIsEmpty frameData = true <->
      forall i, (i < length frameData)%nat -> (i mod 4 = 3)%nat -> nth i frameData x00 = x00) /\
  (forall (fuel : nat) (host : Host) (texture : Texture) (img : Image) (totalFrames : float)
          (layout : GridLayout),
      image texture = Some img ->
      getRowsAndColumns fuel host texture totalFrames = Ok layout ->
      forall r c,
        reaches (rows layout) r -> reaches (columns layout) c ->
        (totalFrames <=? counter r * columns layout + counter c)%float = false ->
        exists frameData,
          getImageData host img (counter c * frameWidth layout)%float
            (counter r * frameHeight layout)%float (frameWidth layout) (frameHeight layout)
          = Ok frameData /\
          (In (cell r c) (emptyFrames layout) <->
           forall i, (i < length frameData)%nat -> (i mod 4 = 3)%nat ->
                     nth i frameData x00 = x00)) /\
  (forall (fuel : nat) (host : Host) (img : Image) (totalFrames : float) (R C : nat),
      getContext host = true ->
      drawImage host img = Ok tt ->
      trips (inferred_rows img totalFrames) R ->
      trips (inferred_columns img totalFrames) C ->
      (R < fuel)%nat -> (C < fuel)%nat ->
      (forall r c,
          (r < R)%nat -> (c < C)%nat ->
          (totalFrames <=? counter r * inferred_columns img totalFrames + counter c)%float
          = false ->
          exists frameData,
            getImageData host img
              (counter c * (width img / inferred_columns img totalFrames))%float
              (counter r * (height img / inferred_rows img totalFrames))%float
              (width img / inferred_columns img totalFrames)%float
              (height img / inferred_rows img totalFrames)%float = Ok frameData) ->
      exists layout,
        getRowsAndColumns fuel host {| image := Some img |} totalFrames = Ok layout /\
        rows layout = inferred_rows img totalFrames /\
        columns layout = inferred_columns img totalFrames /\
        forall r c,
          (r < R)%nat -> (c < C)%nat ->
          (totalFrames <=? counter r * columns layout + counter c)%float = false ->
          exists frameData,
            getImageData host img (counter c * frameWidth layout)%float
              (counter r * frameHeight layout)%float (frameWidth layout) (frameHeight layout)
            = Ok frameData /\
            (In (cell r c) (emptyFrames layout) <->
             forall i, (i < length frameData)%nat -> (i mod 4 = 3)%nat ->
                       nth i frameData x00 = x00)) /\
  getRowsAndColumns 5 pierced_host sheet_texture 8 =
  Ok {| rows := 2; columns := 4; frameWidth := 128; frameHeight := 128;
        emptyFrames := [ {| row := 0; col := 1 |} ] |}.
Proof.
  assert (Hreturned :
            forall (fuel : nat) (host : Host) (texture : Texture) (img : Image)
                   (totalFrames : float) (layout : GridLayout),
              image texture = Some img ->
              getRowsAndColumns fuel host texture totalFrames = Ok layout ->
              forall r c,
                reaches (rows layout) r -> reaches (columns layout) c ->
                (totalFrames <=? counter r * columns layout + counter c)%float = false ->
                exists frameData,
                  getImageData host img (counter c * frameWidth layout)%float
                    (counter r * frameHeight layout)%float (frameWidth layout)
                    (frameHeight layout)
                  = Ok frameData /\
                  (In (cell r c) (emptyFrames layout) <->
                   forall i, (i < length frameData)%nat -> (i mod 4 = 3)%nat ->
                             nth i frameData x00 = x00)).
  { intros fuel host [im] img totalFrames layout Himg Hrun r c Hr Hc Hidx.
    simpl in Himg. subst im.
    destruct (getRowsAndColumns_Ok_inv _ _ _ _ _ Hrun)
      as (Hrows & Hcols & Hfw & Hfh & R & C & HR & HC & Hall & Hempty).
    destruct (reached_cell _ _ _ _ _ _ HR HC Hr Hc) as (HC' & HrR & HcC).
    destruct (Hall r c HrR HcC) as [b Hb].
    assert (Hin : In (cell r c) (emptyFrames layout) <-> b = true).
    { rewrite Hempty, (in_made_cells _ _ _ _ _ _ _ HR HC' HrR HcC).
      unfold kept. cbn [fst snd]. rewrite Hb. reflexivity. }
    unfold inferred_marks, marks in Hb.
    rewrite <- Hfw, <- Hfh, <- Hcols, Hidx in Hb.
    destruct (getImageData host img _ _ _ _) as [d| |]; simpl in Hb; try discriminate.
    injection Hb as <-. exists d. split; [reflexivity|].
    rewrite Hin. apply checkIfFrameIsEmpty_spec. }
  split; [exact checkIfFrameIsEmpty_spec|]. split; [exact Hreturned|]. split.
  - intros fuel host img totalFrames R C Hctx Hdraw HR HC HfR HfC Hdata.
    pose proof (getRowsAndColumns_returns host img totalFrames R C fuel Hctx Hdraw HR HC
                  HfR HfC) as Hrun.
    match type of Hrun with _ -> _ = Ok ?l => exists l end.
    assert (Hrun' := Hrun).
    match type of Hrun' with ?P -> _ => assert (Hall : P) end.
    { intros r c Hr Hc. unfold inferred_marks, marks.
      destruct (totalFrames <=? _)%float eqn:Hidx; [eauto|].
      destruct (Hdata r c Hr Hc Hidx) as [d ->].
      simpl. eauto. }
    specialize (Hrun Hall). clear Hrun'.
    split; [exact Hrun|]. split; [reflexivity|]. split; [reflexivity|].
    intros r c Hr Hc Hidx.
    apply (Hreturned fuel host {| image := Some img |} img totalFrames _ eq_refl Hrun).
    + cbn [rows]. intros j Hj. apply (proj1 HR). lia.
    + cbn [columns]. intros j Hj. apply (proj1 HC). lia.
    + exact Hidx.
  - vm_compute. reflexivity.
Qed.

Lemma transparent_cells_are_empty_witness :
  getRowsAndColumns 5 pierced_host sheet_texture 8 =
    Ok {| rows := 2; columns := 4; frameWidth := 128; frameHeight := 128;
          emptyFrames := [ {| row := 0; col := 1 |} ] |} /\
  (exists frameData,
      getImageData pierced_host sheet (counter 1 * 128)%float (counter 0 * 128)%float 128 128
      = Ok frameData /\
      (In (cell 0 1) [ {| row := 0; col := 1 |} ] <->
       forall i, (i < length frameData)%nat -> (i mod 4 = 3)%nat -> nth i frameData x00 = x00)) /\
  (exists frameData,
      getImageData pierced_host sheet (counter 2 * 128)%float (counter 0 * 128)%float 128 128
      = Ok frameData /\
      (In (cell 0 2) [ {| row := 0; col := 1 |} ] <->
       forall i, (i < length frameData)%nat -> (i mod 4 = 3)%nat -> nth i frameData x00 = x00)).
Proof.
  assert (Hrun : getRowsAndColumns 5 pierced_host sheet_texture 8 =
                 Ok {| rows := 2; columns := 4; frameWidth := 128; frameHeight := 128;
                       emptyFrames := [ {| row := 0; col := 1 |} ] |})
    by (vm_compute; reflexivity).
  split; [exact Hrun|]. split.
  - apply (proj1 (proj2 transparent_cells_are_empty) 5%nat pierced_host sheet_texture sheet
             8%float _ eq_refl Hrun 0%nat 1%nat).
    + intros j Hj. cbn [rows]. do 1 (destruct j as [|j]; [vm_compute; reflexivity|]). lia.
    + intros j Hj. cbn [columns]. do 2 (destruct j as [|j]; [vm_compute; reflexivity|]). lia.
    + vm_compute. reflexivity.
  - apply (proj1 (proj2 transparent_cells_are_empty) 5%nat pierced_host sheet_texture sheet
             8%float _ eq_refl Hrun 0%nat 2%nat).
    + intros j Hj. cbn [rows]. do 1 (destruct j as [|j]; [vm_compute; reflexivity|]). lia.
    + intros j Hj. cbn [columns]. do 3 (destruct j as [|j]; [vm_compute; reflexivity|]). lia.
    + vm_compute. reflexivity.
Defined.

(** ** calculateScaleRatio: what it leaves alone *)

Lemma processFrameArray_base {A : Type} `{HasFrame A} (frameArray : list A) :
  map base (processFrameArray frameArray) = frameArray.
Proof.
  unfold processFrameArray. rewrite map_map. simpl. apply map_id.
Qed.

Lemma processFrameArray_length {A : Type} `{HasFrame A} (frameArray : list A) :
  length (processFrameArray frameArray) = length frameArray.
Proof.
  unfold processFrameArray. apply length_map.
Qed.

Lemma processFrameArray_nth {A : Type} `{HasFrame A} (frameArray : list A) (i : nat) (f : A) :
  nth_error frameArray i = Some f ->
  nth_error (processFrameArray frameArray) i =
  Some {| base := f; scaleRatio := scale_of (find_largest frameArray) f |}.
Proof.
  intros Hnth. unfold processFrameArray.
  rewrite nth_error_map, Hnth. reflexivity.
Qed.

(** C10: [calculateScaleRatio] returns as many frames as it was given, in
    the same order, each the frame it was given with a [scaleRatio] beside
    it; for a record of arrays this holds key by key. The frames given are
    values of the embedding and stay what they were. *)
Theorem calculateScaleRatio_keeps_frames :
  forall (A : Type) (HF : HasFrame A),
    (forall frameArray : list A,
        exists out,
          calculateScaleRatio (FrameArray frameArray) = FrameArray out /\
          length out = length frameArray /\
          map base out = frameArray /\
          forall i f, nth_error frameArray i = Some f ->
                      exists s, nth_error out i = Some {| base := f; scaleRatio := s |}) /\
    (forall r : gmap string (list A),
        exists out,
          calculateScaleRatio (FrameRecord r) = FrameRecord out /\
          forall key, map base <$> (out !! key) = r !! key).
Proof.
  intros A HF. split.
  - intros frameArray. exists (processFrameArray frameArray). repeat split.
    + apply processFrameArray_length.
    + apply processFrameArray_base.
    + intros i f Hnth. eexists. now apply processFrameArray_nth.
  - intros r. exists (processFrameArray <$> r). split; [reflexivity|].
    intros key. rewrite lookup_fmap.
    destruct (r !! key) as [l|]; simpl; [|reflexivity].
    now rewrite processFrameArray_base.
Qed.

(** ** The manifest built from a grid *)

Lemma emit_cell_collect (layout : GridLayout) (r c : float) (acc : list FrameData) :
  emit_cell layout r c acc =
  collect_cell (fun r c => Ok (negb (isExcluded (emptyFrames layout) r c)))
    (frame_at (frameWidth layout) (frameHeight layout)) r c acc.
Proof.
  unfold emit_cell, collect_cell. simpl.
  destruct (isExcluded (emptyFrames layout) r c); reflexivity.
Qed.

Lemma nonJsonFrames_collect (fuel : nat) (layout : GridLayout) :
  nonJsonFrames fuel layout =
  for_lt fuel 0%float (rows layout)
    (collect_rows (fun r c => Ok (negb (isExcluded (emptyFrames layout) r c)))
       (frame_at (frameWidth layout) (frameHeight layout)) (columns layout) fuel) [].
Proof.
  unfold nonJsonFrames. apply for_lt_ext. intros r acc. unfold collect_rows.
  apply for_lt_ext. intros c acc'. apply emit_cell_collect.
Qed.

Lemma isExcluded_spec (emptyFrames : list SpriteMetaDimension) (r c : float) :
  isExcluded emptyFrames r c = true <->
  exists coord, In coord emptyFrames /\
                (row coord =? r)%float = true /\ (col coord =? c)%float = true.
Proof.
  unfold isExcluded. rewrite existsb_exists. split.
  - intros (coord & Hin & Heq). apply andb_true_iff in Heq. eauto.
  - intros (coord & Hin & Hr & Hc). exists coord. split; auto. now rewrite Hr, Hc.
Qed.

Lemma nonJsonFrames_Ok_inv (fuel : nat) (layout : GridLayout) (fs : list FrameData) :
  nonJsonFrames fuel layout = Ok fs ->
  exists R C,
    trips (rows layout) R /\ (R = 0%nat \/ trips (columns layout) C) /\
    fs = map (frame_of_cell layout) (List.filter (included layout) (cells R C)).
Proof.
  rewrite nonJsonFrames_collect. intros Hrun.
  destruct (collect_Ok_inv _ _ _ _ _ _ Hrun) as (R & C & HR & HC & _ & Hfs).
  exists R, C. split; [exact HR|]. split; [exact HC|exact Hfs].
Qed.

Lemma parseSpriteData_Ok_inv (fuel : nat) (host : Host) (texture : Texture)
    (numberOfFrames : option float) (data : StandaloneData) :
  parseSpriteData fuel host texture numberOfFrames = Ok (Some data) ->
  exists n layout fs,
    truthy numberOfFrames = Some n /\
    getRowsAndColumns fuel host texture n = Ok layout /\
    nonJsonFrames fuel layout = Ok fs /\
    standalone_frames data = processFrameArray fs.
Proof.
  unfold parseSpriteData. destruct (truthy numberOfFrames) as [n|]; [|discriminate].
  destruct (image texture) as [img|]; [|discriminate].
  destruct (getRowsAndColumns fuel host texture n) as [layout| |] eqn:Hgrid;
    simpl; try discriminate.
  destruct (nonJsonFrames fuel layout) as [fs| |] eqn:Hfs; simpl; try discriminate.
  intros [= <-]. exists n, layout, fs. repeat split; assumption.
Qed.

(** C9: the manifest of the sprite-only case holds one frame for each cell
    of the grid that is not excluded, in row-major order, and the frame of
    the cell [(row, col)] has [frame = {x: col * frameWidth, y: row *
    frameHeight, w: frameWidth, h: frameHeight}] and [sourceSize = {w:
    frameWidth, h: frameHeight}]; a cell is excluded when a coordinate pair
    of [emptyFrames] equals it. The walk returns when both loops stop, and
    the frames [parseSpriteData] stores are those frames, in that order, each
    with its [scaleRatio]. *)
Theorem manifest_from_grid :
  (forall (layout : GridLayout) (R C fuel : nat),
      trips (rows layout) R -> trips (columns layout) C ->
      (R < fuel)%nat -> (C < fuel)%nat ->
      nonJsonFrames fuel layout =
        Ok (map (frame_of_cell layout) (List.filter (included layout) (cells R C)))) /\
  (forall (fuel : nat) (host : Host) (texture : Texture) (numberOfFrames : option float)
          (data : StandaloneData),
      parseSpriteData fuel host texture numberOfFrames = Ok (Some data) ->
      exists n layout R C,
        truthy numberOfFrames = Some n /\
        getRowsAndColumns fuel host texture n = Ok layout /\
        trips (rows layout) R /\ (R = 0%nat \/ trips (columns layout) C) /\
        map base (standalone_frames data) =
          map (frame_of_cell layout) (List.filter (included layout) (cells R C))) /\
  (forall (layout : GridLayout) (rc : nat * nat),
      frame (frame_of_cell layout rc) =
        Rect.mk (counter (snd rc) * frameWidth layout) (counter (fst rc) * frameHeight layout)
          (frameWidth layout) (frameHeight layout) /\
      sourceSize (frame_of_cell layout rc) = Size.mk (frameWidth layout) (frameHeight layout)) /\
  (forall (layout : GridLayout) (rc : nat * nat),
      included layout rc = false <->
      exists coord, In coord (emptyFrames layout) /\
                    (row coord =? counter (fst rc))%float = true /\
                    (col coord =? counter (snd rc))%float = true).
Proof.
  split; [|split; [|split]].
  - intros layout R C fuel HR HC HfR HfC.
    rewrite nonJsonFrames_collect.
    apply (collect_returns
             (fun r c => Ok (negb (isExcluded (emptyFrames layout) r c)))
             (frame_at (frameWidth layout) (frameHeight layout))
             (columns layout) (rows layout) R C fuel HR HC HfR HfC).
    intros r c _ _. eauto.
  - intros fuel host texture numberOfFrames data Hrun.
    destruct (parseSpriteData_Ok_inv _ _ _ _ _ Hrun) as (n & layout & fs & Hn & Hgrid & Hfs & ->).
    destruct (nonJsonFrames_Ok_inv _ _ _ Hfs) as (R & C & HR & HC & ->).
    exists n, layout, R, C.
    split; [exact Hn|]. split; [exact Hgrid|]. split; [exact HR|]. split; [exact HC|].
    apply processFrameArray_base.
  - intros layout rc. split; reflexivity.
  - intros layout rc. unfold included. rewrite negb_false_iff. apply isExcluded_spec.
Qed.

Lemma manifest_from_grid_witness :
  nonJsonFrames 5 {| rows := 2; columns := 4; frameWidth := 128; frameHeight := 128;
                     emptyFrames := [ {| row := 1; col := 3 |} ] |} =
  Ok (map (frame_of_cell {| rows := 2; columns := 4; frameWidth := 128; frameHeight := 128;
                            emptyFrames := [ {| row := 1; col := 3 |} ] |})
        (List.filter
           (included {| rows := 2; columns := 4; frameWidth := 128; frameHeight := 128;
                        emptyFrames := [ {| row := 1; col := 3 |} ] |})
           (cells 2 4))) /\
  exists n layout R C,
    truthy (Some 7%float) = Some n /\
    getRowsAndColumns 5 opaque_host sheet_texture n = Ok layout /\
    trips (rows layout) R /\ (R = 0%nat \/ trips (columns layout) C) /\
    map base (scaled_array (map (frame_at 128 128 0) [0; 1; 2; 3] ++
                            map (frame_at 128 128 1) [0; 1; 2])%float) =
      map (frame_of_cell layout) (List.filter (included layout) (cells R C)).
Proof.
  split.
  - apply (proj1 manifest_from_grid
             {| rows := 2; columns := 4; frameWidth := 128; frameHeight := 128;
                emptyFrames := [ {| row := 1; col := 3 |} ] |} 2%nat 4%nat 5%nat);
      [solve_trips|solve_trips|lia|lia].
  - apply (proj1 (proj2 manifest_from_grid) 5%nat opaque_host sheet_texture (Some 7%float)
             {| standalone_frames :=
                  scaled_array (map (frame_at 128 128 0) [0; 1; 2; 3] ++
                                map (frame_at 128 128 1) [0; 1; 2])%float;
                standalone_meta :=
                  {| version := "1.0"; size := Size.mk 512 256; meta_rows := 2;
                     meta_columns := 4; meta_frameWidth := 128; meta_frameHeight := 128;
                     scale := "1" |} |}).
    vm_compute. reflexivity.
Defined.

(** ** parseFrames *)

Lemma append_cons (a : ascii) (s t : string) :
  (String a s ++ t)%string = String a (s ++ t)%string.
Proof. reflexivity. Qed.

Lemma append_empty (t : string) : (EmptyString ++ t)%string = t.
Proof. reflexivity. Qed.

Lemma prefix_spec (p s : string) :
  String.prefix p s = true <-> exists post, s = (p ++ post)%string.
Proof.
  revert s. induction p as [|a p IH]; intros s.
  - destruct s; simpl; split; eauto.
  - destruct s as [|b s]; simpl.
    + split; [discriminate|]. intros [post Hpost]. discriminate.
    + destruct (ascii_dec a b) as [->|Hne].
      * rewrite IH. split; intros [post Hpost]; exists post.
        -- rewrite append_cons. congruence.
        -- rewrite append_cons in Hpost. congruence.
      * split; [discriminate|]. intros [post Hpost].
        rewrite append_cons in Hpost. congruence.
Qed.

Lemma is_substring_prefix (sub s : string) :
  String.prefix sub s = true -> is_substring sub s.
Proof.
  intros Hp. apply prefix_spec in Hp as [post Hpost].
  exists EmptyString, post. now rewrite append_empty.
Qed.

Lemma indexOf_from_found (s sub : string) (pos : Z) :
  0 <= pos -> (indexOf_from s sub pos <> -1 <-> is_substring sub s).
Proof.
  revert pos. induction s as [|a s IH]; intros pos Hpos; cbn [indexOf_from].
  - destruct (String.prefix sub "") eqn:Hp.
    + split; [|lia]. intros _. now apply is_substring_prefix.
    + split; [lia|]. intros (pre & post & Heq).
      destruct pre as [|b pre]; [|rewrite append_cons in Heq; discriminate].
      rewrite append_empty in Heq.
      assert (String.prefix sub "" = true) by (apply prefix_spec; eauto). congruence.
  - destruct (String.prefix sub (String a s)) eqn:Hp.
    + split; [|lia]. intros _. now apply is_substring_prefix.
    + rewrite IH by lia. split.
      * intros (pre & post & Heq). exists (String a pre), post.
        rewrite append_cons. now rewrite Heq.
      * intros (pre & post & Heq). destruct pre as [|b pre].
        -- rewrite append_empty in Heq.
           assert (String.prefix sub (String a s) = true) by (apply prefix_spec; eauto).
           congruence.
        -- rewrite append_cons in Heq. injection Heq as _ Heq. now exists pre, post.
Qed.

Lemma append_right_empty (s : string) : (s ++ EmptyString)%string = s.
Proof. induction s as [|c s IH]; [reflexivity|]. now rewrite append_cons, IH. Qed.

Lemma append_associative (s t u : string) : ((s ++ t) ++ u)%string = (s ++ t ++ u)%string.
Proof.
  induction s as [|c s IH]; [now rewrite !append_empty|].
  now rewrite !append_cons, IH.
Qed.

Lemma append_length (s t : string) :
  String.length (s ++ t) = (String.length s + String.length t)%nat.
Proof.
  induction s as [|c s IH]; [now rewrite append_empty|].
  rewrite append_cons. simpl. now rewrite IH.
Qed.

(** *** Lower-casing ASCII *)

Lemma lower_ascii_code (c : ascii) :
  nat_of_ascii (lower_ascii c) =
  if capital c then (nat_of_ascii c + 32)%nat else nat_of_ascii c.
Proof.
  unfold lower_ascii, capital.
  destruct ((65 <=? nat_of_ascii c)%nat && (nat_of_ascii c <=? 90)%nat) eqn:Hcap;
    [|reflexivity].
  apply andb_true_iff in Hcap as [_ Hhi]. apply Nat.leb_le in Hhi.
  apply nat_ascii_embedding. lia.
Qed.

Lemma nat_of_ascii_inj (a b : ascii) : nat_of_ascii a = nat_of_ascii b -> a = b.
Proof.
  intros Heq. rewrite <- (ascii_nat_embedding a), <- (ascii_nat_embedding b). now rewrite Heq.
Qed.

Lemma capital_bounds (c : ascii) :
  capital c = true <-> (65 <= nat_of_ascii c <= 90)%nat.
Proof.
  unfold capital. rewrite andb_true_iff, !Nat.leb_le. reflexivity.
Qed.

Lemma lower_ascii_same (a b : ascii) : lower_ascii a = lower_ascii b <-> same_letter a b.
Proof.
  split.
  - intros Heq. apply (f_equal nat_of_ascii) in Heq. rewrite !lower_ascii_code in Heq.
    unfold same_letter.
    destruct (capital a) eqn:Ha, (capital b) eqn:Hb.
    + left. apply nat_of_ascii_inj. lia.
    + right. left. split; [reflexivity|lia].
    + right. right. split; [reflexivity|lia].
    + left. now apply nat_of_ascii_inj.
  - intros [->|[[Ha Hb]|[Hb Ha]]]; [reflexivity| |];
      apply nat_of_ascii_inj; rewrite !lower_ascii_code.
    + rewrite Ha. apply capital_bounds in Ha.
      destruct (capital b) eqn:Hb'; [apply capital_bounds in Hb'; lia|lia].
    + rewrite Hb. apply capital_bounds in Hb.
      destruct (capital a) eqn:Ha'; [apply capital_bounds in Ha'; lia|lia].
Qed.

Lemma ascii_lower_same (s t : string) : ascii_lower s = ascii_lower t <-> same_letters s t.
Proof.
  split.
  - revert t. induction s as [|a s IH]; intros [|b t] Heq; simpl in Heq; try discriminate.
    + constructor.
    + injection Heq as Hab Hst. constructor; [now apply lower_ascii_same|now apply IH].
  - intros Hsame. induction Hsame as [|a b s t Hab _ IH]; [reflexivity|].
    simpl. apply lower_ascii_same in Hab. now rewrite Hab, IH.
Qed.




(** *** Grouping *)

Section Grouping.
Context {lower : CaseMapping}.

Lemma matches_name_spec (key name : string) :
  matches_name key name = true <-> is_substring (toLowerCase name) (toLowerCase key).
Proof.
  unfold matches_name, indexOf. rewrite negb_true_iff, Z.eqb_neq.
  apply indexOf_from_found. lia.
Qed.

(** On strings of ASCII characters every mapping that folds ASCII matches as
    the mapping of the examples does. *)
Lemma matches_name_ascii (key name : string) :
  ascii_folding lower -> ascii_only key = true -> ascii_only name = true ->
  matches_name key name = @matches_name ascii_mapping key name.
Proof.
  intros Hfold Hkey Hname. unfold matches_name.
  now rewrite (Hfold key Hkey), (Hfold name Hname).
Qed.


Lemma scan_array_spec (delimiter : string) (l : list FrameData) :
  scan_array delimiter l = map grouped (List.filter (named_by delimiter) l).
Proof.
  induction l as [|value l IH]; simpl; [reflexivity|].
  unfold named_by at 1. destruct (filename value) as [key|]; [|exact IH].
  destruct (matches_name key delimiter); simpl; now rewrite IH.
Qed.

Lemma scan_hash_spec (delimiter : string) (l : list (string * FrameData)) :
  scan_hash delimiter (map (fun kv => (fst kv, Single (snd kv))) l) =
  Ok (map (fun kv => grouped (snd kv)) (List.filter (keyed_by delimiter) l)).
Proof.
  induction l as [|[key value] l IH]; simpl; [reflexivity|].
  rewrite IH. simpl.
  change (keyed_by delimiter (key, value)) with (matches_name key delimiter).
  destruct (matches_name key delimiter); reflexivity.
Qed.

(** Grouping, when every scan returns: each name given other than
    [__proto__] ends up with the bucket of its own scan as an own property,
    whatever came before under that name, and the scan of [__proto__] ends up
    as the prototype. *)
Lemma group_all_lookup (data_frames : RawFrames) (found : string -> list GroupedFrame) :
  (forall d, scan data_frames d = Ok (found d)) ->
  forall (delimiters : list string) (sprites : SpritesObject),
  exists sprites',
    group_all data_frames delimiters sprites = Ok sprites' /\
    (forall name,
        (In name delimiters -> name <> proto_name ->
         own sprites' !! name = Some (found name)) /\
        (~ In name delimiters \/ name = proto_name ->
         own sprites' !! name = own sprites !! name)) /\
    (In proto_name delimiters -> prototype sprites' = Some (found proto_name)) /\
    (~ In proto_name delimiters -> prototype sprites' = prototype sprites).
Proof.
  intros Hscan delimiters. induction delimiters as [|d rest IH]; intros sprites; simpl.
  - exists sprites. split; [reflexivity|]. split; [|split].
    + intros name. split; [intros []|reflexivity].
    + intros [].
    + reflexivity.
  - rewrite Hscan. simpl.
    destruct (IH (assign_bucket d (found d) sprites)) as (sprites' & Hrun & Hown & Hin & Hout).
    exists sprites'. split; [exact Hrun|].
    unfold assign_bucket in Hown, Hin, Hout.
    destruct (String.eqb d proto_name) eqn:Hd.
    + apply String.eqb_eq in Hd. subst d. cbn [own prototype] in *. split; [|split].
      * intros name. split.
        -- intros [<-|Hname] Hne; [contradiction|]. now apply Hown.
        -- intros [Hnin| ->].
           ++ apply Hown. left. tauto.
           ++ apply Hown. now right.
      * intros _. destruct (in_dec string_dec proto_name rest) as [Hrest|Hrest].
        -- now apply Hin.
        -- now rewrite (Hout Hrest).
      * intros Hnin. exfalso. apply Hnin. now left.
    + apply String.eqb_neq in Hd. cbn [own prototype] in *. split; [|split].
      * intros name. split.
        -- intros [<-|Hname] Hne.
           ++ destruct (in_dec string_dec d rest) as [Hrest|Hrest].
              ** now apply Hown.
              ** rewrite (proj2 (Hown d)) by now left. apply lookup_insert_eq.
           ++ now apply Hown.
        -- intros [Hnin| ->].
           ++ rewrite (proj2 (Hown name)) by (left; tauto).
              apply lookup_insert_ne. intros ->. apply Hnin. now left.
           ++ rewrite (proj2 (Hown proto_name)) by now right.
              now apply lookup_insert_ne.
      * intros [Heq|Hrest]; [contradiction|now apply Hin].
      * intros Hnin. apply Hout. tauto.
Qed.

(** Without the name [__proto__] the object keeps its prototype and the
    second pass throws nothing. *)
Lemma parseFrames_grouped (data : SpriteData) (found : string -> list GroupedFrame)
    (names : list string) :
  (forall d, scan (frames data) d = Ok (found d)) ->
  ~ In proto_name names ->
  exists sprites,
    parseFrames (Some data) (Some names) = Ok (Some (Sprites sprites)) /\
    forall name,
      (In name names -> sprites !! name = Some (bucket_of (found name))) /\
      (~ In name names -> sprites !! name = None).
Proof.
  intros Hscan Hplain. unfold parseFrames.
  destruct (group_all_lookup _ _ Hscan names {| own := ∅; prototype := None |})
    as (sprites & -> & Hown & _ & Hproto).
  specialize (Hproto Hplain). cbn [bind prototype] in *.
  unfold scale_buckets, inherited_keys. rewrite Hproto. cbn [bind].
  eexists. split; [reflexivity|]. intros name. rewrite lookup_fmap. split.
  - intros Hin. rewrite (proj1 (Hown name) Hin); [reflexivity|].
    intros ->. contradiction.
  - intros Hnin. rewrite (proj2 (Hown name)) by now left.
    cbn [own]. now rewrite lookup_empty.
Qed.

(** With it, the second pass throws or the object returned inherits from an
    array; the own buckets are the same. *)
Lemma parseFrames_names (data : SpriteData) (found : string -> list GroupedFrame)
    (names : list string) :
  (forall d, scan (frames data) d = Ok (found d)) ->
  parseFrames (Some data) (Some names) = Throw TypeError \/
  exists sprites,
    (parseFrames (Some data) (Some names) = Ok (Some (Sprites sprites)) \/
     exists items, parseFrames (Some data) (Some names) = Ok (Some (Inheriting items sprites))) /\
    forall name,
      (In name names -> name <> proto_name -> sprites !! name = Some (bucket_of (found name))) /\
      (~ In name names \/ name = proto_name -> sprites !! name = None).
Proof.
  intros Hscan. unfold parseFrames.
  destruct (group_all_lookup _ _ Hscan names {| own := ∅; prototype := None |})
    as (sprites & -> & Hown & _ & _).
  cbn [bind]. unfold scale_buckets.
  destruct (inherited_keys sprites) as [|key keys]; [|now left].
  right. cbn [bind]. eexists. split.
  - destruct (prototype sprites) as [items|]; [right; exists items; reflexivity|now left].
  - intros name. rewrite lookup_fmap. split.
    + intros Hin Hne. now rewrite (proj1 (Hown name) Hin Hne).
    + intros Hnin. rewrite (proj2 (Hown name) Hnin). cbn [own]. now rewrite lookup_empty.
Qed.
End Grouping.




(** C7, counterexample: with an empty list of names the result is an empty
    mapping, not the flat sequence of all frames. *)
Lemma empty_names_are_not_absent :
  parseFrames (Some {| frames := ArrayForm [plain_frame 2 2]; meta := no_meta |}) (Some [])
  = Ok (Some (Sprites ∅)) /\
  parseFrames (Some {| frames := ArrayForm [plain_frame 2 2]; meta := no_meta |}) (Some [])
  <> Ok (Some (Flat (scaled_array
                       (flatten (frames {| frames := ArrayForm [plain_frame 2 2];
                                           meta := no_meta |}))))).
Proof.
  split.
  - unfold parseFrames. simpl. now rewrite fmap_empty.
  - unfold parseFrames. simpl. discriminate.
Qed.

(** C7, as amended: when no list of names is given, the frames of the
    manifest are normalised as one sequence: the array as it is, or the
    values under the keys of a hash taken in key order and flattened one
    level; every frame is kept, in order, with its [scaleRatio]. An empty
    list of names is a list: it yields the empty mapping. *)
Theorem absent_names_flatten :
  forall (lower : CaseMapping) (data : SpriteData),
    parseFrames (Some data) None = Ok (Some (Flat (processFrameArray (flatten (frames data))))) /\
    map base (processFrameArray (flatten (frames data))) = flatten (frames data) /\
    (forall l, flatten (ArrayForm l) = l) /\
    (forall kvs, flatten (HashForm kvs) = concat (map (fun kv => entry_frames (snd kv)) kvs)) /\
    (forall l, flatten (hash_of l) = map snd l) /\
    parseFrames (Some data) (Some []) = Ok (Some (Sprites ∅)).
Proof.
  intros lower data.
  split; [reflexivity|]. split; [apply processFrameArray_base|].
  split; [reflexivity|]. split; [reflexivity|]. split.
  - intros l. unfold hash_of, flatten. rewrite map_map. simpl.
    induction l as [|kv l IH]; simpl; [reflexivity|]. now rewrite IH.
  - unfold parseFrames. simpl. now rewrite fmap_empty.
Qed.

(** ** Counters stay finite *)

Lemma counter_finite (k : nat) : nonneg (counter k) /\ num_rank (counter k) < 2 ^ 70.
Proof.
  induction k as [|k [Hn Hk]]; simpl.
  - split; [reflexivity|vm_compute; reflexivity].
  - now apply add_one_finite.
Qed.

Lemma counter_below_infinity (k : nat) : (counter k <? infinity)%float = true.
Proof.
  destruct (counter_finite k) as [Hn Hk].
  apply ltb_rank; [now apply nonneg_number|reflexivity|exact Hk].
Qed.

(** Grid inference with no column and infinitely many rows: the loop over
    the rows never ends, whatever the fuel. *)
Lemma getRowsAndColumns_diverges (fuel : nat) (host : Host) (img : Image) (totalFrames : float) :
  getContext host = true ->
  drawImage host img = Ok tt ->
  inferred_columns img totalFrames = 0%float ->
  inferred_rows img totalFrames = infinity ->
  getRowsAndColumns fuel host {| image := Some img |} totalFrames = OutOfFuel.
Proof.
  intros Hctx Hdraw Hcols Hrows.
  rewrite (getRowsAndColumns_scan _ _ _ _ Hctx Hdraw), Hrows, Hcols.
  destruct fuel as [|fuel]; [reflexivity|].
  change 0%float with (counter 0) at 1.
  rewrite for_lt_diverges; [reflexivity|apply counter_below_infinity|].
  intros i acc. exists acc. reflexivity.
Qed.

(** C2, where the code fails: on a strip of 16 by 1024 pixels with 8 frames
    the formulas give 0 columns and infinitely many rows, and the loop over
    the rows never ends: no amount of fuel lets grid inference return. *)
Theorem getRowsAndColumns_hangs_on_strip :
  forall (fuel : nat) (host : Host),
    getContext host = true ->
    drawImage host strip = Ok tt ->
    inferred_columns strip 8 = 0%float /\
    inferred_rows strip 8 = infinity /\
    getRowsAndColumns fuel host strip_texture 8 = OutOfFuel.
Proof.
  intros fuel host Hctx Hdraw.
  assert (Hcols : inferred_columns strip 8 = 0%float) by (vm_compute; reflexivity).
  assert (Hrows : inferred_rows strip 8 = infinity) by (vm_compute; reflexivity).
  split; [exact Hcols|]. split; [exact Hrows|].
  now apply getRowsAndColumns_diverges.
Qed.

Lemma getRowsAndColumns_hangs_on_strip_witness :
  inferred_columns strip 8 = 0%float /\
  inferred_rows strip 8 = infinity /\
  getRowsAndColumns 1000 opaque_host strip_texture 8 = OutOfFuel.
Proof.
  apply (getRowsAndColumns_hangs_on_strip 1000 opaque_host); reflexivity.
Defined.

(** ** calculateScaleRatio: the ratios *)

Section ScaleRatio.
Context {A : Type} `{HasFrame A}.

Lemma largest_step_tops (seen : list A) (acc : option Largest) (f : A) :
  (forall g, In g seen -> number (area g)) -> number (area f) ->
  tops seen acc -> tops (seen ++ [f]) (largest_step acc f).
Proof.
  intros Hseen Hf Htops. unfold largest_step. fold (area f).
  destruct acc as [l|]; cbn [tops] in *.
  - destruct Htops as [(g & Hg & Hgl) Hmax].
    assert (Hl : number (largest_area l)) by (rewrite <- Hgl; auto).
    destruct (largest_area l <? area f)%float eqn:Hlt; cbn [tops largest_area].
    + apply (ltb_rank _ _ Hl Hf) in Hlt. split.
      * exists f. split; [apply in_or_app; right; now left|reflexivity].
      * intros g' Hg'. apply in_app_or in Hg' as [Hg'|[<-|[]]]; [|lia].
        specialize (Hmax g' Hg'). lia.
    + assert (Hge : num_rank (area f) <= num_rank (largest_area l)).
      { destruct (Z_le_gt_dec (num_rank (area f)) (num_rank (largest_area l))) as [|Hgt]; auto.
        assert ((largest_area l <? area f)%float = true) by (apply ltb_rank; auto; lia).
        congruence. }
      split.
      * exists g. split; [apply in_or_app; now left|assumption].
      * intros g' Hg'. apply in_app_or in Hg' as [Hg'|[<-|[]]]; auto.
  - subst seen. split.
    + exists f. split; [now left|reflexivity].
    + intros g' [<-|[]]. cbn [largest_area]. lia.
Qed.

Lemma fold_largest_tops (frameArray seen : list A) (acc : option Largest) :
  (forall g, In g (seen ++ frameArray) -> number (area g)) ->
  tops seen acc -> tops (seen ++ frameArray) (fold_left largest_step frameArray acc).
Proof.
  revert seen acc. induction frameArray as [|f rest IH]; intros seen acc Hall Htops; simpl.
  - now rewrite app_nil_r.
  - replace (seen ++ f :: rest) with ((seen ++ [f]) ++ rest) in * by now rewrite <- app_assoc.
    apply IH; [exact Hall|].
    apply largest_step_tops; auto.
    + intros g Hg. apply Hall. apply in_or_app. left. apply in_or_app. now left.
    + apply Hall. apply in_or_app. left. apply in_or_app. right. now left.
Qed.

Lemma find_largest_tops (frameArray : list A) :
  (forall g, In g frameArray -> number (area g)) ->
  tops frameArray (find_largest frameArray).
Proof.
  intros Hall. apply (fold_largest_tops frameArray [] None); [exact Hall|reflexivity].
Qed.

(** The ratio of one frame of a sequence of frames none of whose areas is
    NaN. *)
Lemma scale_of_spec (frameArray : list A) (l : Largest) (f : A) :
  (forall g, In g frameArray -> number (area g)) ->
  tops frameArray (Some l) -> In f frameArray ->
  number (largest_area l) /\
  num_rank (area f) <= num_rank (largest_area l) /\
  ((area f =? largest_area l)%float = true -> scale_of (Some l) f = 1%float) /\
  ((area f =? largest_area l)%float = false ->
   (area f <? largest_area l)%float = true /\
   scale_of (Some l) f = PrimFloat.sqrt (area f / largest_area l)) /\
  (nonneg (area f) ->
   (0 <=? scale_of (Some l) f)%float = true /\ (scale_of (Some l) f <=? 1)%float = true).
Proof.
  intros Hall [(g & Hg & Hgl) Hmax] Hf.
  assert (Hl : number (largest_area l)) by (rewrite <- Hgl; auto).
  pose proof (Hall f Hf) as Ha. pose proof (Hmax f Hf) as Hle.
  split; [exact Hl|]. split; [exact Hle|].
  unfold scale_of. fold (area f).
  destruct (area f =? largest_area l)%float eqn:Heq.
  - split; [reflexivity|]. split; [discriminate|]. intros _. split; reflexivity.
  - assert (Hlt : (area f <? largest_area l)%float = true).
    { apply ltb_rank; auto.
      destruct (Z.eq_dec (num_rank (area f)) (num_rank (largest_area l))) as [Hk|Hk]; [|lia].
      apply (eqb_rank _ _ Ha Hl) in Hk. congruence. }
    split; [discriminate|]. split; [auto|].
    intros Hpos. apply sqrt_div_bounds; assumption.
Qed.
End ScaleRatio.

Lemma find_largest_nonempty {A : Type} `{HasFrame A} (frameArray : list A) :
  frameArray <> [] ->
  (forall g, In g frameArray -> number (area g)) ->
  exists l, find_largest frameArray = Some l /\ tops frameArray (Some l).
Proof.
  intros Hne Hall. pose proof (find_largest_tops frameArray Hall) as Htops.
  destruct (find_largest frameArray) as [l|]; [eauto|].
  cbn [tops] in Htops. contradiction.
Qed.

(** C1, counterexample: a frame of area 0 beside a frame of area 4 is given
    the ratio 0, which is not above 0; of two frames of areas -1 and -4 the
    second is given the ratio 2, which is above 1; and after a frame whose
    area is NaN a frame of area 4, the largest there is, is given NaN. *)
Lemma scale_ratio_outside_unit_interval :
  (nth_error (processFrameArray [plain_frame 2 2; plain_frame 0 2]) 1
   = Some {| base := plain_frame 0 2; scaleRatio := 0 |} /\
   (0 <? 0)%float = false) /\
  (nth_error (processFrameArray [plain_frame (-1) 1; plain_frame (-2) 2]) 1
   = Some {| base := plain_frame (-2) 2; scaleRatio := 2 |} /\
   (2 <=? 1)%float = false) /\
  (nth_error (processFrameArray [plain_frame nan 1; plain_frame 2 2]) 1
   = Some {| base := plain_frame 2 2; scaleRatio := nan |} /\
   (nan =? 1)%float = false).
Proof.
  repeat split; vm_compute; reflexivity.
Qed.

(** C1, as amended: in a sequence of frames that is not empty and none of
    whose areas is NaN, the frames of maximal area are given the ratio 1 and
    every other frame the square root of its area over the maximal one; the
    ratio of a frame whose area is not negative lies between 0 and 1, both
    included. A record of sequences is normalised key by key, each sequence
    against its own largest frame. *)
Theorem scale_ratio_of_largest :
  (forall (A : Type) (HF : HasFrame A) (frameArray : list A),
      frameArray <> [] ->
      (forall f, In f frameArray -> (area f =? area f)%float = true) ->
      exists maxArea,
        (exists f, In f frameArray /\ area f = maxArea) /\
        (forall f, In f frameArray -> (area f <=? maxArea)%float = true) /\
        forall i f,
          nth_error frameArray i = Some f ->
          exists s,
            nth_error (processFrameArray frameArray) i
            = Some {| base := f; scaleRatio := s |} /\
            ((area f =? maxArea)%float = true -> s = 1%float) /\
            ((area f =? maxArea)%float = false ->
             s = PrimFloat.sqrt (area f / maxArea)) /\
            ((0 <=? area f)%float = true ->
             (0 <=? s)%float = true /\ (s <=? 1)%float = true)) /\
  (forall (A : Type) (HF : HasFrame A) (r : gmap string (list A)) (key : string)
          (bucket : list A),
      r !! key = Some bucket ->
      exists out,
        calculateScaleRatio (FrameRecord r) = FrameRecord out /\
        out !! key = Some (processFrameArray bucket)) /\
  (forall items : list GroupedFrame,
      bucket_frame (bucket_of items) = processFrameArray items).
Proof.
  split; [|split].
  - intros A HF frameArray Hne Hall.
    destruct (find_largest_nonempty frameArray Hne Hall) as (l & Hfind & Htops).
    exists (largest_area l). split; [apply Htops|]. split.
    + intros f Hf.
      destruct (scale_of_spec frameArray l f Hall Htops Hf) as (Hl & Hle & _).
      apply leb_rank; auto. now apply Hall.
    + intros i f Hnth. eexists. split; [now apply processFrameArray_nth|].
      rewrite Hfind.
      destruct (scale_of_spec frameArray l f Hall Htops (nth_error_In _ _ Hnth))
        as (Hl & Hle & Hone & Hsqrt & Hrange).
      split; [exact Hone|]. split; [|exact Hrange].
      intros Hneq. now apply Hsqrt.
  - intros A HF r key bucket Hkey. eexists. split; [reflexivity|].
    now rewrite lookup_fmap, Hkey.
  - intros items. reflexivity.
Qed.

Lemma scale_ratio_of_largest_witness :
  exists maxArea,
    (exists f, In f [plain_frame 2 2; plain_frame 0 2; plain_frame 1 1] /\ area f = maxArea) /\
    (forall f, In f [plain_frame 2 2; plain_frame 0 2; plain_frame 1 1] ->
               (area f <=? maxArea)%float = true) /\
    forall i f,
      nth_error [plain_frame 2 2; plain_frame 0 2; plain_frame 1 1] i = Some f ->
      exists s,
        nth_error (processFrameArray [plain_frame 2 2; plain_frame 0 2; plain_frame 1 1]) i
        = Some {| base := f; scaleRatio := s |} /\
        ((area f =? maxArea)%float = true -> s = 1%float) /\
        ((area f =? maxArea)%float = false -> s = PrimFloat.sqrt (area f / maxArea)) /\
        ((0 <=? area f)%float = true -> (0 <=? s)%float = true /\ (s <=? 1)%float = true).
Proof.
  apply (proj1 scale_ratio_of_largest FrameData _
           [plain_frame 2 2; plain_frame 0 2; plain_frame 1 1]).
  - discriminate.
  - intros f [<-|[<-|[<-|[]]]]; reflexivity.
Defined.

(** C8, counterexample: beside a frame of area 1, two frames whose areas
    are the two binary64 numbers just below 1 are given the same ratio; two
    frames of areas -4 and -1 are both given NaN, which is not below or equal
    to itself; and so are two frames of areas 1 and 4 that follow a frame
    whose area is NaN. *)
Lemma scale_ratio_not_strictly_monotone :
  (map scaleRatio
     (processFrameArray [plain_frame 1 1; plain_frame 0x1.ffffffffffffep-1 1;
                         plain_frame 0x1.fffffffffffffp-1 1])
   = [1; 0x1.fffffffffffffp-1; 0x1.fffffffffffffp-1]%float /\
   (area (plain_frame 0x1.ffffffffffffep-1 1) <? area (plain_frame 0x1.fffffffffffffp-1 1))%float
   = true /\
   (0x1.fffffffffffffp-1 <? 0x1.fffffffffffffp-1)%float = false) /\
  (map scaleRatio (processFrameArray [plain_frame 1 1; plain_frame (-4) 1; plain_frame (-1) 1])
   = [1; nan; nan]%float /\
   (area (plain_frame (-4) 1) <? area (plain_frame (-1) 1))%float = true /\
   (nan <=? nan)%float = false) /\
  (map scaleRatio (processFrameArray [plain_frame nan 1; plain_frame 1 1; plain_frame 2 2])
   = [nan; nan; nan]%float /\
   (area (plain_frame 1 1) <? area (plain_frame 2 2))%float = true).
Proof.
  repeat split; vm_compute; reflexivity.
Qed.

(** C8, as amended: in a sequence of frames none of whose areas is NaN, a
    frame whose area is not negative is never given a larger ratio than a
    frame of larger area. *)
Theorem scale_ratio_monotone :
  forall (A : Type) (HF : HasFrame A) (frameArray : list A) (i1 i2 : nat) (f1 f2 : A),
    (forall f, In f frameArray -> (area f =? area f)%float = true) ->
    nth_error frameArray i1 = Some f1 ->
    nth_error frameArray i2 = Some f2 ->
    (0 <=? area f1)%float = true ->
    (area f1 <? area f2)%float = true ->
    exists s1 s2,
      nth_error (processFrameArray frameArray) i1 = Some {| base := f1; scaleRatio := s1 |} /\
      nth_error (processFrameArray frameArray) i2 = Some {| base := f2; scaleRatio := s2 |} /\
      (s1 <=? s2)%float = true.
Proof.
  intros A HF frameArray i1 i2 f1 f2 Hall Hn1 Hn2 Ha1 Hlt.
  assert (Hne : frameArray <> []) by (intros ->; destruct i1; discriminate).
  destruct (find_largest_nonempty frameArray Hne Hall) as (l & Hfind & Htops).
  pose proof (nth_error_In _ _ Hn1) as Hin1. pose proof (nth_error_In _ _ Hn2) as Hin2.
  exists (scale_of (Some l) f1), (scale_of (Some l) f2).
  rewrite (processFrameArray_nth _ _ _ Hn1), (processFrameArray_nth _ _ _ Hn2), Hfind.
  split; [reflexivity|]. split; [reflexivity|].
  destruct (scale_of_spec frameArray l f1 Hall Htops Hin1)
    as (Hl & Hle1 & _ & Hsqrt1 & _).
  destruct (scale_of_spec frameArray l f2 Hall Htops Hin2)
    as (_ & Hle2 & Hone2 & Hsqrt2 & _).
  pose proof (ltb_nonneg _ _ Ha1 Hlt) as Ha2.
  pose proof (proj1 (ltb_rank _ _ (Hall f1 Hin1) (Hall f2 Hin2)) Hlt) as Hk.
  assert (Hneq1 : (area f1 =? largest_area l)%float = false).
  { destruct (area f1 =? largest_area l)%float eqn:Heq; [|reflexivity].
    apply (eqb_rank _ _ (Hall f1 Hin1) Hl) in Heq. lia. }
  destruct (Hsqrt1 Hneq1) as [Hlt1 ->].
  destruct (area f2 =? largest_area l)%float eqn:Heq2.
  - rewrite (Hone2 eq_refl). now apply sqrt_div_bounds.
  - destruct (Hsqrt2 eq_refl) as [Hlt2 ->].
    assert (Hle : (area f1 <=? area f2)%float = true)
      by (apply leb_rank; [now apply Hall|now apply Hall|lia]).
    destruct (div_mono _ _ _ Ha1 Ha2 Hle Hlt2) as (Hq1 & Hq2 & Hq).
    now apply sqrt_mono.
Qed.

Lemma scale_ratio_monotone_witness :
  exists s1 s2,
    nth_error (processFrameArray [plain_frame 2 2; plain_frame 0 2; plain_frame 1 1]) 1
    = Some {| base := plain_frame 0 2; scaleRatio := s1 |} /\
    nth_error (processFrameArray [plain_frame 2 2; plain_frame 0 2; plain_frame 1 1]) 2
    = Some {| base := plain_frame 1 1; scaleRatio := s2 |} /\
    (s1 <=? s2)%float = true.
Proof.
  apply (scale_ratio_monotone FrameData _
           [plain_frame 2 2; plain_frame 0 2; plain_frame 1 1] 1 2
           (plain_frame 0 2) (plain_frame 1 1)).
  - intros f [<-|[<-|[<-|[]]]]; reflexivity.
  - reflexivity.
  - reflexivity.
  - reflexivity.
  - reflexivity.
Defined.

(** ** Grid inference, when it returns *)

(** X1: the layout grid inference returns has the columns, rows and frame size
    of its formulas, with no rounding of the frame size; it returns whenever
    both loops stop and every cell below the frame count can be sampled. On
    the 512 by 256 sheet with 8 frames it returns a grid of 2 rows and 4
    columns of 128 by 128 pixels. *)
Theorem grid_dimensions :
  (forall (fuel : nat) (host : Host) (texture : Texture) (img : Image) (totalFrames : float)
          (layout : GridLayout),
      image texture = Some img ->
      getRowsAndColumns fuel host texture totalFrames = Ok layout ->
      columns layout = Math_round (PrimFloat.sqrt (totalFrames * (width img / height img))) /\
      rows layout = Math_round (totalFrames / columns layout) /\
      frameWidth layout = (width img / columns layout)%float /\
      frameHeight layout = (height img / rows layout)%float) /\
  (forall (host : Host) (img : Image) (totalFrames : float) (R C fuel : nat),
      getContext host = true ->
      drawImage host img = Ok tt ->
      trips (inferred_rows img totalFrames) R ->
      trips (inferred_columns img totalFrames) C ->
      (R < fuel)%nat -> (C < fuel)%nat ->
      (forall sx sy sw sh, exists frameData, getImageData host img sx sy sw sh = Ok frameData) ->
      exists layout, getRowsAndColumns fuel host {| image := Some img |} totalFrames = Ok layout) /\
  (forall (host : Host),
      getContext host = true ->
      drawImage host sheet = Ok tt ->
      (forall sx sy sw sh, exists frameData, getImageData host sheet sx sy sw sh = Ok frameData) ->
      exists layout,
        getRowsAndColumns 5 host sheet_texture 8 = Ok layout /\
        rows layout = 2%float /\ columns layout = 4%float /\
        frameWidth layout = 128%float /\ frameHeight layout = 128%float).
Proof.
  assert (Hreturns : forall (host : Host) (img : Image) (totalFrames : float) (R C fuel : nat),
             getContext host = true ->
             drawImage host img = Ok tt ->
             trips (inferred_rows img totalFrames) R ->
             trips (inferred_columns img totalFrames) C ->
             (R < fuel)%nat -> (C < fuel)%nat ->
             (forall sx sy sw sh, exists frameData,
                   getImageData host img sx sy sw sh = Ok frameData) ->
             getRowsAndColumns fuel host {| image := Some img |} totalFrames =
             Ok {| rows := inferred_rows img totalFrames;
                   columns := inferred_columns img totalFrames;
                   frameWidth := (width img / inferred_columns img totalFrames)%float;
                   frameHeight := (height img / inferred_rows img totalFrames)%float;
                   emptyFrames :=
                     map (fun rc => cell (fst rc) (snd rc))
                       (List.filter (kept (inferred_marks host img totalFrames)) (cells R C)) |}).
  { intros host img totalFrames R C fuel Hctx Hdraw HR HC HfR HfC Hdata.
    apply getRowsAndColumns_returns; auto.
    intros r c _ _. unfold inferred_marks, marks.
    destruct (totalFrames <=? _)%float; eauto.
    destruct (Hdata (counter c * (width img / inferred_columns img totalFrames))%float
                (counter r * (height img / inferred_rows img totalFrames))%float
                (width img / inferred_columns img totalFrames)%float
                (height img / inferred_rows img totalFrames)%float) as [d ->].
    simpl. eauto. }
  split; [|split].
  - intros fuel host [im] img totalFrames layout Himg Hrun. simpl in Himg. subst im.
    destruct (getRowsAndColumns_Ok_inv _ _ _ _ _ Hrun) as (Hrows & Hcols & Hfw & Hfh & _).
    rewrite Hfw, Hfh, Hrows, Hcols. repeat split; reflexivity.
  - intros host img totalFrames R C fuel Hctx Hdraw HR HC HfR HfC Hdata.
    eexists. now apply (Hreturns host img totalFrames R C fuel).
  - intros host Hctx Hdraw Hdata.
    assert (HR : trips (inferred_rows sheet 8) 2) by solve_trips.
    assert (HC : trips (inferred_columns sheet 8) 4) by solve_trips.
    eexists. split.
    + apply (Hreturns host sheet 8%float 2%nat 4%nat 5%nat Hctx Hdraw HR HC); auto; lia.
    + cbn [rows columns frameWidth frameHeight].
      repeat split; vm_compute; reflexivity.
Qed.

Lemma grid_dimensions_witness :
  exists layout,
    getRowsAndColumns 5 opaque_host sheet_texture 8 = Ok layout /\
    rows layout = 2%float /\ columns layout = 4%float /\
    frameWidth layout = 128%float /\ frameHeight layout = 128%float.
Proof.
  apply (proj2 (proj2 grid_dimensions) opaque_host); [reflexivity|reflexivity|].
  intros sx sy sw sh. eexists. reflexivity.
Defined.

(** ** Further properties of normalisation and grouping *)

(** X2: an empty sequence is returned empty, a sequence of one frame whose
    area is a number gets the ratio 1, and a sequence of one frame whose area
    is NaN gets the ratio NaN. *)
Theorem degenerate_sequences :
  (forall (A : Type) (HF : HasFrame A),
      processFrameArray (@nil A) = []) /\
  (forall (A : Type) (HF : HasFrame A) (f : A),
      (area f =? area f)%float = true ->
      processFrameArray [f] = [ {| base := f; scaleRatio := 1 |} ]) /\
  (forall (A : Type) (HF : HasFrame A) (f : A),
      (area f =? area f)%float = false ->
      processFrameArray [f] = [ {| base := f; scaleRatio := nan |} ]).
Proof.
  split; [reflexivity|]. split.
  - intros A HF f Hnum. unfold processFrameArray, find_largest, scale_of. simpl.
    fold (area f). now rewrite Hnum.
  - intros A HF f Hnan. unfold processFrameArray, find_largest, scale_of. simpl.
    fold (area f). rewrite Hnan. do 2 f_equal.
    assert (Harea : Prim2SF (area f) = S754_nan).
    { rewrite FloatAxioms.eqb_spec in Hnan. unfold SFeqb in Hnan.
      destruct (Prim2SF (area f)) as [[|]|[|]| |[|] m e]; cbn [SFcompare] in Hnan;
        try discriminate; auto;
        rewrite Z.compare_refl, Pos.compare_cont_refl in Hnan; discriminate. }
    apply Prim2SF_inj.
    rewrite FloatAxioms.sqrt_spec, FloatAxioms.div_spec, Harea. reflexivity.
Qed.

Lemma degenerate_sequences_witness :
  processFrameArray [plain_frame 3 4] = [ {| base := plain_frame 3 4; scaleRatio := 1 |} ] /\
  processFrameArray [plain_frame nan 1] = [ {| base := plain_frame nan 1; scaleRatio := nan |} ].
Proof.
  split.
  - apply (proj1 (proj2 degenerate_sequences) FrameData _ (plain_frame 3 4)). reflexivity.
  - apply (proj2 (proj2 degenerate_sequences) FrameData _ (plain_frame nan 1)). reflexivity.
Defined.

Lemma scan_hash_group `{CaseMapping} (delimiter key : string) (fs : list FrameData)
    (l : list (string * HashEntry)) :
  In (key, Group fs) l -> scan_hash delimiter l = Throw TypeError.
Proof.
  induction l as [|[k [f|fs']] l IH]; simpl; intros Hin.
  - contradiction.
  - destruct Hin as [Heq|Hin]; [discriminate|]. now rewrite IH.
  - reflexivity.
Qed.

(** X3: grouping a manifest in hash form that holds an array of frames under
    some key, as the declared type of [frames] allows, throws a TypeError as
    soon as one name is given. *)
Theorem grouping_arrays_throws :
  forall (lower : CaseMapping) (m : MetaData) (l : list (string * HashEntry)) (key : string)
         (fs : list FrameData) (name : string) (names : list string),
    In (key, Group fs) l ->
    parseFrames (Some {| frames := HashForm l; meta := m |}) (Some (name :: names))
    = Throw TypeError.
Proof.
  intros lower m l key fs name names Hin. unfold parseFrames. simpl.
  now rewrite (scan_hash_group name key fs l Hin).
Qed.

Lemma grouping_arrays_throws_witness :
  parseFrames
    (Some {| frames := HashForm [("run"%string, Group [plain_frame 1 1])]; meta := no_meta |})
    (Some ["run"%string])
  = Throw TypeError.
Proof.
  apply (grouping_arrays_throws ascii_mapping no_meta
           [("run"%string, Group [plain_frame 1 1])]
           "run"%string [plain_frame 1 1] "run"%string []).
  now left.
Defined.
(** ** Counters are exact up to 2^53 *)

Lemma F2R_inj (m m' E : Z) : F2R m E = F2R m' E -> m = m'.
Proof.
  unfold F2R. intros Heq. pose proof (bpow_gt_0 E).
  apply eq_IZR. nra.
Qed.

Lemma F2R_lt_inv (m m' E : Z) : (F2R m E < F2R m' E)%R -> m < m'.
Proof.
  unfold F2R. intros Hlt. pose proof (bpow_gt_0 E).
  apply lt_IZR. nra.
Qed.

(** A real number that is a multiple of the unit is located exactly. *)
Lemma located_multiple (m M E : Z) (l : location) :
  located m E l (F2R M E) -> l = loc_Exact /\ m = M.
Proof.
  destruct l as [|[| |]]; cbn [located].
  - intros Heq. split; [reflexivity|]. symmetry. now apply (F2R_inj _ _ E).
  - intros Heq. exfalso. pose proof (bpow_gt_0 E).
    assert (F2R m E < F2R M E)%R by lra. apply (F2R_lt_inv _ _ E) in H0.
    assert (F2R M E < F2R (m + 1) E)%R by (rewrite F2R_succ; lra).
    apply (F2R_lt_inv _ _ E) in H1. lia.
  - intros [Hlo Hhi]. exfalso.
    apply (F2R_lt_inv _ _ E) in Hlo.
    assert (F2R M E < F2R (m + 1) E)%R.
    { rewrite F2R_succ. pose proof (bpow_gt_0 E). lra. }
    apply (F2R_lt_inv _ _ E) in H. lia.
  - intros [Hlo Hhi]. exfalso. pose proof (bpow_gt_0 E).
    assert (F2R m E < F2R M E)%R by lra. apply (F2R_lt_inv _ _ E) in H0.
    apply (F2R_lt_inv _ _ E) in Hhi. lia.
Qed.

Lemma IZR_as_F2R (n E : Z) : E <= 0 -> IZR n = F2R (n * 2 ^ (- E)) E.
Proof.
  intros HE. replace E with (0 - (- E)) at 2 by lia.
  rewrite F2R_shift by lia. unfold F2R. rewrite bpow_0. lra.
Qed.

(** Rounding an integer from 1 to 2^53 gives the number that stands for it. *)
Lemma round_integer (mz ez n : Z) (l : location) :
  0 <= mz -> located mz ez l (IZR n) ->
  ez <= fexp prec emax (Zdigits2 mz + ez) -> 1 <= n <= 2 ^ 53 ->
  exists m e,
    binary_round_aux prec emax false mz ez l = S754_finite false m e /\
    F2R (Z.pos m) e = IZR n /\ Z.pos m < 2 ^ 53 /\ -1074 <= e <= 971.
Proof.
  intros Hmz Hloc Hfine Hn.
  destruct (binary_round_aux_spec mz ez l _ Hmz Hloc Hfine)
    as (m1 & l1 & E & Hm1 & Hloc1 & Hcanon & ->).
  pose proof (canon_mantissa _ _ _ _ Hm1 Hloc1 Hcanon) as [Hlt _].
  destruct Hcanon as (HE & Hhi & Hlo).
  assert (HE1 : E <= 1).
  { destruct (Z_le_gt_dec E 1) as [|Hgt]; auto. exfalso.
    specialize (Hlo ltac:(lia)).
    pose proof (bpow_lt 53 (E + 52) ltac:(lia)) as Hb.
    rewrite (bpow_IZR 53) in Hb by lia.
    assert (IZR n <= IZR (2 ^ 53))%R by (apply IZR_le; lia). lra. }
  assert (Hmult : exists M, IZR n = F2R M E).
  { destruct (Z.eq_dec E 1) as [->|Hne].
    - exists (2 ^ 52). specialize (Hlo ltac:(lia)).
      rewrite F2R_bpow by lia. change (52 + 1) with 53.
      change (1 + 52) with 53 in Hlo. rewrite (bpow_IZR 53) in * by lia.
      apply le_IZR in Hlo. f_equal. lia.
    - exists (n * 2 ^ (- E)). apply IZR_as_F2R. lia. }
  destruct Hmult as [M HM]. rewrite HM in Hloc1.
  apply located_multiple in Hloc1 as [-> ->].
  cbn [round_nearest_even].
  assert (HMpos : 0 < M).
  { destruct (Z_lt_le_dec 0 M) as [|Hle]; auto. exfalso.
    assert (F2R M E <= 0)%R.
    { unfold F2R. pose proof (bpow_gt_0 E). apply IZR_le in Hle. nra. }
    assert (1 <= IZR n)%R by (apply IZR_le; lia). lra. }
  unfold rnd_result.
  destruct (M =? 2 ^ 53) eqn:Hmax; [apply Z.eqb_eq in Hmax; lia|].
  destruct M as [|p|p]; try lia.
  destruct (E <=? 971) eqn:Hle; [|apply Z.leb_gt in Hle; lia].
  exists p, E. repeat split; auto; lia.
Qed.

Lemma F2R_one : F2R (2 ^ 52) (-52) = 1%R.
Proof. rewrite F2R_bpow by lia. reflexivity. Qed.

(** Adding 1 to the number that stands for [k] gives the one that stands
    for [k + 1], up to 2^53. *)
Lemma add_one_exact (x : float) (k : Z) :
  0 <= k < 2 ^ 53 -> represents k (Prim2SF x) -> represents (k + 1) (Prim2SF (x + 1)).
Proof.
  intros Hk Hx. rewrite FloatAxioms.add_spec. change (Prim2SF 1) with SF_one. unfold SF64add.
  destruct (Prim2SF x) as [[|]|[|]| |[|] m e]; cbn [represents] in Hx; try tauto.
  - subst k. change (F2R (2 ^ 52) (-52) = IZR (0 + 1)). rewrite F2R_one. reflexivity.
  - destruct (SFadd_finite m (2 ^ 52) e (-52)) as (mz & ez & Hadd & Hmz & Hloc & Hfine).
    unfold SF_one. rewrite Hadd.
    change (Z.pos (2 ^ 52)) with (2 ^ 52) in Hloc.
    rewrite Hx, F2R_one, <- plus_IZR in Hloc.
    assert (Hpos : 1 <= k).
    { destruct (Z_le_gt_dec 1 k) as [|Hlt]; auto. exfalso.
      assert (k = 0) by lia. subst k.
      pose proof (F2R_pos (Z.pos m) e ltac:(lia)). lra. }
    destruct (round_integer mz ez (k + 1) loc_Exact Hmz Hloc Hfine ltac:(lia))
      as (m' & e' & -> & Hval & _).
    exact Hval.
Qed.

Lemma counter_exact (k : nat) :
  Z.of_nat k <= 2 ^ 53 -> represents (Z.of_nat k) (Prim2SF (counter k)).
Proof.
  induction k as [|k IH]; intros Hk.
  - reflexivity.
  - rewrite Nat2Z.inj_succ. unfold Z.succ. cbn [counter].
    apply add_one_exact; [lia|]. apply IH. lia.
Qed.

(** Numbers that stand for integers are ordered as the integers. *)
Lemma represents_rank_lt (r r' : spec_float) (k k' : Z) :
  valid_binary r = true -> valid_binary r' = true ->
  represents k r -> represents k' r' -> k < k' -> rank r < rank r'.
Proof.
  intros Hv Hv' Hr Hr' Hlt.
  destruct r as [[|]|[|]| |[|] m e]; cbn [represents] in Hr; try tauto;
    destruct r' as [[|]|[|]| |[|] m' e']; cbn [represents] in Hr'; try tauto.
  - lia.
  - apply valid_finite in Hv' as (_ & _ & HE & _). cbn [rank].
    change (2 ^ 54) with 18014398509481984. lia.
  - exfalso. pose proof (F2R_pos (Z.pos m) e ltac:(lia)) as Hpos.
    assert (IZR k < 0)%R by (apply IZR_lt; lia). lra.
  - destruct (Z_lt_le_dec (rank (S754_finite false m e)) (rank (S754_finite false m' e')))
      as [|Hge]; auto.
    exfalso. apply (rank_le_F2R _ _ _ _ Hv' Hv) in Hge.
    rewrite Hr, Hr' in Hge. apply le_IZR in Hge. lia.
Qed.

Lemma represents_inj (r r' : spec_float) (k : Z) :
  valid_binary r = true -> valid_binary r' = true ->
  represents k r -> represents k r' -> r = r'.
Proof.
  intros Hv Hv' Hr Hr'.
  destruct r as [[|]|[|]| |[|] m e]; cbn [represents] in Hr; try tauto;
    destruct r' as [[|]|[|]| |[|] m' e']; cbn [represents] in Hr'; try tauto.
  - exfalso. pose proof (F2R_pos (Z.pos m') e' ltac:(lia)). subst k. lra.
  - exfalso. pose proof (F2R_pos (Z.pos m) e ltac:(lia)). subst k. lra.
  - assert (Hle : rank (S754_finite false m e) <= rank (S754_finite false m' e')).
    { destruct (Z_le_gt_dec (rank (S754_finite false m e)) (rank (S754_finite false m' e')))
        as [|Hgt]; auto.
      exfalso. apply Z.gt_lt in Hgt. apply (rank_lt_F2R _ _ _ _ Hv' Hv) in Hgt. lra. }
    assert (Hge : rank (S754_finite false m' e') <= rank (S754_finite false m e)).
    { destruct (Z_le_gt_dec (rank (S754_finite false m' e')) (rank (S754_finite false m e)))
        as [|Hgt]; auto.
      exfalso. apply Z.gt_lt in Hgt. apply (rank_lt_F2R _ _ _ _ Hv Hv') in Hgt. lra. }
    apply valid_finite in Hv as (_ & Hm & _). apply valid_finite in Hv' as (_ & Hm' & _).
    cbn [rank] in Hle, Hge.
    change (2 ^ 54) with 18014398509481984 in *. change (2 ^ 53) with 9007199254740992 in *.
    assert (e = e') by lia. subst e'. assert (Z.pos m = Z.pos m') by lia. congruence.
Qed.

Lemma two53_represents : represents (2 ^ 53) (Prim2SF two53).
Proof.
  change (Prim2SF two53) with (S754_finite false (2 ^ 52) 1). cbn [represents].
  change (Z.pos (2 ^ 52)) with (2 ^ 52). rewrite F2R_bpow by lia.
  now rewrite (bpow_IZR (52 + 1)) by lia.
Qed.

(** From 2^53 on, the counter stays where it is. *)
Lemma counter_two53 (K : nat) : Z.of_nat K = 2 ^ 53 -> counter K = two53.
Proof.
  intros HK. apply Prim2SF_inj.
  apply (represents_inj _ _ (2 ^ 53)); try apply Prim2SF_valid.
  - rewrite <- HK. apply counter_exact. lia.
  - apply two53_represents.
Qed.

Lemma counter_stalls (K j : nat) : Z.of_nat K = 2 ^ 53 -> counter (K + j) = two53.
Proof.
  intros HK. induction j as [|j IH].
  - rewrite Nat.add_0_r. now apply counter_two53.
  - rewrite Nat.add_succ_r. cbn [counter]. rewrite IH. vm_compute. reflexivity.
Qed.

Lemma two53_nat : exists K : nat, Z.of_nat K = 2 ^ 53.
Proof. exists (Z.to_nat (2 ^ 53)). apply Z2Nat.id. lia. Qed.

Lemma counter_rank_mono (k j : nat) :
  (k < j)%nat -> Z.of_nat j <= 2 ^ 53 -> num_rank (counter k) < num_rank (counter j).
Proof.
  intros Hkj Hj. unfold num_rank.
  apply (represents_rank_lt _ _ (Z.of_nat k) (Z.of_nat j)); try apply Prim2SF_valid.
  - apply counter_exact. lia.
  - now apply counter_exact.
  - lia.
Qed.

Lemma counter_rank_le_two53 (k : nat) : num_rank (counter k) <= num_rank two53.
Proof.
  destruct two53_nat as [K HK].
  destruct (Nat.lt_ge_cases k K) as [Hlt|Hge].
  - rewrite <- (counter_two53 K HK). apply Z.lt_le_incl, counter_rank_mono; lia.
  - replace k with (K + (k - K))%nat by lia. rewrite (counter_stalls K _ HK). lia.
Qed.

Lemma counter_number (k : nat) : number (counter k).
Proof. apply nonneg_number, counter_finite. Qed.

(** A number that differs from itself is NaN, and nothing is below NaN. *)
Lemma not_number_nan (x : float) : (x =? x)%float = false -> Prim2SF x = S754_nan.
Proof.
  rewrite FloatAxioms.eqb_spec. unfold SFeqb.
  destruct (Prim2SF x) as [[|]|[|]| |[|] m e]; cbn [SFcompare]; try discriminate; auto;
    rewrite Z.compare_refl, Pos.compare_cont_refl; discriminate.
Qed.

Lemma ltb_nan (x y : float) : (y =? y)%float = false -> (x <? y)%float = false.
Proof.
  intros Hy. apply not_number_nan in Hy.
  rewrite FloatAxioms.ltb_spec, Hy. unfold SFltb.
  now destruct (Prim2SF x) as [[|]|[|]| |[|] m e].
Qed.

Lemma least_stop (bound : float) (n : nat) :
  (exists m, (m <= n)%nat /\ trips bound m) \/
  (forall k, (k <= n)%nat -> (counter k <? bound)%float = true).
Proof.
  induction n as [|n IH].
  - destruct (counter 0 <? bound)%float eqn:H0.
    + right. intros k Hk. now replace k with 0%nat by lia.
    + left. exists 0%nat. split; [lia|]. split; [intros k Hk; lia|exact H0].
  - destruct IH as [(m & Hm & Htrips)|Hall].
    + left. exists m. split; [lia|exact Htrips].
    + destruct (counter (S n) <? bound)%float eqn:HS.
      * right. intros k Hk. destruct (Nat.eq_dec k (S n)) as [->|Hne]; auto.
        apply Hall. lia.
      * left. exists (S n). split; [lia|]. split; [|exact HS].
        intros k Hk. apply Hall. lia.
Qed.

(** A loop [for (let i = 0; i < bound; i++)] stops when [bound] is NaN or at
    most 2^53, after at most 2^53 turns, and never stops otherwise. *)
Lemma loop_stops (bound : float) :
  (two53 <? bound)%float = false -> exists n, Z.of_nat n <= 2 ^ 53 /\ trips bound n.
Proof.
  intros Hb. destruct two53_nat as [K HK].
  destruct (least_stop bound K) as [(m & Hm & Htrips)|Hall].
  - exists m. split; [lia|exact Htrips].
  - exfalso. specialize (Hall K (Nat.le_refl K)).
    rewrite (counter_two53 K HK) in Hall. congruence.
Qed.

Lemma loop_never_stops (bound : float) :
  (two53 <? bound)%float = true -> forall k, (counter k <? bound)%float = true.
Proof.
  intros Hb k.
  assert (Hn : number bound).
  { apply nonneg_number. apply (ltb_nonneg two53); [reflexivity|exact Hb]. }
  apply (ltb_rank _ _ (counter_number k) Hn).
  apply (ltb_rank two53 bound) in Hb; [|reflexivity|exact Hn].
  pose proof (counter_rank_le_two53 k). lia.
Qed.

Lemma trips_below_two53 (bound : float) (n : nat) : trips bound n -> Z.of_nat n <= 2 ^ 53.
Proof.
  intros Htrips.
  destruct (two53 <? bound)%float eqn:Hb.
  - exfalso. destruct Htrips as [_ Hstop].
    rewrite (loop_never_stops bound Hb n) in Hstop. discriminate.
  - destruct (loop_stops bound Hb) as (m & Hm & Hm').
    now rewrite (trips_unique _ _ _ Htrips Hm').
Qed.

Lemma counter_of_uint63 (k : nat) :
  Z.of_nat k <= 2 ^ 53 -> counter k = of_uint63 (Uint63.of_Z (Z.of_nat k)).
Proof.
  intros Hk. apply Prim2SF_inj.
  apply (represents_inj _ _ (Z.of_nat k)); try apply Prim2SF_valid.
  - now apply counter_exact.
  - rewrite FloatAxioms.of_uint63_spec, Uint63.of_Z_spec.
    rewrite Z.mod_small by (change Uint63.wB with (2 ^ 63); lia).
    destruct (Z.of_nat k) as [|p|p] eqn:Hp; [reflexivity| |lia].
    cbn [binary_normalize].
    destruct (binary_round_spec p 0) as (mz & ez & -> & Hmz & Hloc & Hfine).
    assert (HF : F2R (Z.pos p) 0 = IZR (Z.pos p)).
    { unfold F2R. rewrite bpow_0. lra. }
    rewrite HF in Hloc.
    destruct (round_integer mz ez (Z.pos p) loc_Exact Hmz Hloc Hfine ltac:(lia))
      as (m' & e' & -> & Hval & _).
    exact Hval.
Qed.

Lemma run_body_total {St : Type} (body : float -> St -> outcome St) :
  (forall i s, exists s', body i s = Ok s') ->
  forall ks s, exists s', run_body body ks s = Ok s'.
Proof.
  intros Hbody ks. induction ks as [|k ks IH]; intros s; simpl; [eauto|].
  destruct (Hbody (counter k) s) as [s1 ->]. simpl. apply IH.
Qed.

(** X4: the counter of a loop [for (let i = 0; i < bound; i++)] is exactly
    the integer it counts up to 2^53 and stays at 2^53 from then on, where
    [i + 1] rounds back to [i]. So a loop whose body returns stops, after at
    most 2^53 turns, when its bound is NaN or at most 2^53, and never stops
    when its bound is above 2^53. *)
Theorem loops_stop_up_to_two53 :
  (forall k : nat, Z.of_nat k <= 2 ^ 53 -> counter k = of_uint63 (Uint63.of_Z (Z.of_nat k))) /\
  (forall k : nat, 2 ^ 53 <= Z.of_nat k -> counter k = two53) /\
  (forall (St : Type) (body : float -> St -> outcome St) (bound : float) (s : St),
      (forall i s, exists s', body i s = Ok s') ->
      (two53 <? bound)%float = false ->
      exists n s',
        Z.of_nat n <= 2 ^ 53 /\
        forall fuel, (n < fuel)%nat -> for_lt fuel 0%float bound body s = Ok s') /\
  (forall (St : Type) (body : float -> St -> outcome St) (bound : float) (s : St),
      (forall i s, exists s', body i s = Ok s') ->
      (two53 <? bound)%float = true ->
      forall fuel, for_lt fuel 0%float bound body s = OutOfFuel).
Proof.
  split; [exact counter_of_uint63|]. split; [|split].
  - intros k Hk. destruct two53_nat as [K HK].
    replace k with (K + (k - K))%nat by lia. now apply counter_stalls.
  - intros St body bound s Hbody Hb.
    destruct (loop_stops bound Hb) as (n & Hn & Htrips).
    destruct (run_body_total body Hbody (seq 0 n) s) as [s' Hs'].
    exists n, s'. split; [exact Hn|]. intros fuel Hfuel.
    now rewrite (for_lt_trips body bound n fuel s Htrips Hfuel).
  - intros St body bound s Hbody Hb fuel.
    apply (for_lt_diverges body bound (loop_never_stops bound Hb) Hbody fuel 0%nat s).
Qed.

Lemma loops_stop_up_to_two53_witness :
  exists n s',
    Z.of_nat n <= 2 ^ 53 /\
    forall fuel, (n < fuel)%nat ->
      for_lt fuel 0%float 3%float (fun i (s : list float) => Ok (push s i)) [] = Ok s'.
Proof.
  apply (proj1 (proj2 (proj2 loops_stop_up_to_two53)) (list float)
           (fun i s => Ok (push s i)) 3%float []).
  - intros i s. eexists. reflexivity.
  - reflexivity.
Defined.

(** X5: with a 2d context and a canvas that can be drawn on and sampled,
    grid inference returns, with the same layout for any fuel that is enough,
    when neither the rows nor the columns of its formulas exceed 2^53 (NaN
    included), and so does [parseSpriteData]; it never returns a layout when
    the rows exceed 2^53, or when there is a row to walk and the columns
    exceed 2^53. *)
Theorem getRowsAndColumns_returns_or_hangs :
  (forall (host : Host) (img : Image) (totalFrames : float),
      getContext host = true ->
      drawImage host img = Ok tt ->
      (forall sx sy sw sh, exists frameData, getImageData host img sx sy sw sh = Ok frameData) ->
      (two53 <? inferred_rows img totalFrames)%float = false ->
      (two53 <? inferred_columns img totalFrames)%float = false ->
      exists n layout data,
        forall fuel, (n < fuel)%nat ->
          getRowsAndColumns fuel host {| image := Some img |} totalFrames = Ok layout /\
          (truthy (Some totalFrames) = Some totalFrames ->
           parseSpriteData fuel host {| image := Some img |} (Some totalFrames)
           = Ok (Some data))) /\
  (forall (fuel : nat) (host : Host) (img : Image) (totalFrames : float) (layout : GridLayout),
      (two53 <? inferred_rows img totalFrames)%float = true \/
      ((0 <? inferred_rows img totalFrames)%float = true /\
       (two53 <? inferred_columns img totalFrames)%float = true) ->
      getRowsAndColumns fuel host {| image := Some img |} totalFrames <> Ok layout).
Proof.
  split.
  - intros host img totalFrames Hctx Hdraw Hdata Hrows Hcols.
    destruct (loop_stops _ Hrows) as (R & _ & HR).
    destruct (loop_stops _ Hcols) as (C & _ & HC).
    assert (Hall : forall r c, (r < R)%nat -> (c < C)%nat ->
               exists b, inferred_marks host img totalFrames (counter r) (counter c) = Ok b).
    { intros r c _ _. unfold inferred_marks, marks.
      destruct (totalFrames <=? _)%float; eauto.
      destruct (Hdata (counter c * (width img / inferred_columns img totalFrames))%float
                  (counter r * (height img / inferred_rows img totalFrames))%float
                  (width img / inferred_columns img totalFrames)%float
                  (height img / inferred_rows img totalFrames)%float) as [d ->].
      simpl. eauto. }
    set (layout :=
           {| rows := inferred_rows img totalFrames;
              columns := inferred_columns img totalFrames;
              frameWidth := (width img / inferred_columns img totalFrames)%float;
              frameHeight := (height img / inferred_rows img totalFrames)%float;
              emptyFrames :=
                map (fun rc => cell (fst rc) (snd rc))
                  (List.filter (kept (inferred_marks host img totalFrames)) (cells R C)) |}).
    exists (Nat.max R C), layout.
    eexists. intros fuel Hfuel.
    assert (Hgrid : getRowsAndColumns fuel host {| image := Some img |} totalFrames = Ok layout).
    { apply getRowsAndColumns_returns; auto; lia. }
    split; [exact Hgrid|]. intros Htruthy.
    unfold parseSpriteData. rewrite Htruthy. cbn [image]. rewrite Hgrid. cbn [bind].
    rewrite nonJsonFrames_collect.
    rewrite (collect_returns _ _ _ (rows layout) R C fuel HR HC ltac:(lia) ltac:(lia))
      by (intros; eauto).
    cbn [bind]. reflexivity.
  - intros fuel host img totalFrames layout Hcase Hrun.
    destruct (getRowsAndColumns_Ok_inv _ _ _ _ _ Hrun)
      as (Hrows & Hcols & _ & _ & R & C & HR & HC & _).
    rewrite Hrows in HR. rewrite Hcols in HC.
    destruct Hcase as [Hb|[Hpos Hb]].
    + destruct HR as [_ Hstop]. rewrite (loop_never_stops _ Hb R) in Hstop. discriminate.
    + destruct HC as [->|[_ Hstop]].
      * destruct HR as [_ Hstop]. cbn [counter] in Hstop. congruence.
      * rewrite (loop_never_stops _ Hb C) in Hstop. discriminate.
Qed.

Lemma getRowsAndColumns_returns_or_hangs_witness :
  exists n layout data,
    forall fuel, (n < fuel)%nat ->
      getRowsAndColumns fuel opaque_host {| image := Some sheet |} 8 = Ok layout /\
      (truthy (Some 8%float) = Some 8%float ->
       parseSpriteData fuel opaque_host {| image := Some sheet |} (Some 8%float)
       = Ok (Some data)).
Proof.
  apply (proj1 getRowsAndColumns_returns_or_hangs opaque_host sheet 8%float).
  - reflexivity.
  - reflexivity.
  - intros sx sy sw sh. eexists. reflexivity.
  - vm_compute. reflexivity.
  - vm_compute. reflexivity.
Defined.

(** ** The manifest of the sprite-only case: counts and ratios *)

Lemma counter_eqb_inj (k k' : nat) :
  Z.of_nat k <= 2 ^ 53 -> Z.of_nat k' <= 2 ^ 53 ->
  (counter k =? counter k')%float = true -> k = k'.
Proof.
  intros Hk Hk' Heq.
  apply (eqb_rank _ _ (counter_number k) (counter_number k')) in Heq.
  destruct (Nat.lt_trichotomy k k') as [Hlt|[->|Hlt]]; auto.
  - pose proof (counter_rank_mono k k' Hlt Hk'). lia.
  - pose proof (counter_rank_mono k' k Hlt Hk). lia.
Qed.

(** A cell of the grid is excluded exactly when it was marked empty. *)
Lemma isExcluded_made (test : float -> float -> outcome bool) (rowsb colsb : float)
    (R C r c : nat) :
  trips rowsb R -> trips colsb C -> (r < R)%nat -> (c < C)%nat ->
  isExcluded (map (fun rc => cell (fst rc) (snd rc)) (List.filter (kept test) (cells R C)))
    (counter r) (counter c) = kept test (r, c).
Proof.
  intros HR HC Hr Hc.
  pose proof (trips_below_two53 _ _ HR) as HR53.
  pose proof (trips_below_two53 _ _ HC) as HC53.
  apply eq_true_iff_eq. rewrite isExcluded_spec. split.
  - intros (coord & Hin & Hrow & Hcol).
    apply in_map_iff in Hin as ([r' c'] & <- & Hin). cbn [fst snd cell row col] in *.
    apply filter_In in Hin as [Hin Hkept]. apply in_cells in Hin as [Hr' Hc'].
    apply counter_eqb_inj in Hrow; [|lia|lia].
    apply counter_eqb_inj in Hcol; [|lia|lia].
    now subst.
  - intros Hkept. exists (cell r c). split.
    + apply in_map_iff. exists (r, c). split; [reflexivity|].
      apply filter_In. split; [now apply in_cells|exact Hkept].
    + cbn [cell row col].
      split; apply eqb_rank; auto using counter_number.
Qed.

Lemma filter_partition_length {X : Type} (f g : X -> bool) (l : list X) :
  (forall a, In a l -> g a = negb (f a)) ->
  (length (List.filter f l) + length (List.filter g l) = length l)%nat.
Proof.
  induction l as [|a l IH]; intros Hfg; simpl; [reflexivity|].
  rewrite (Hfg a (or_introl eq_refl)).
  specialize (IH (fun b Hb => Hfg b (or_intror Hb))).
  destruct (f a); simpl; lia.
Qed.

Lemma cells_length (R C : nat) : length (cells R C) = (R * C)%nat.
Proof.
  induction R as [|R IH]; [reflexivity|].
  rewrite cells_succ, length_app, IH, length_map, length_seq. lia.
Qed.

(** X6: in the sprite-only case the frames of the manifest and the empty
    cells of the layout together are the cells of the grid: their numbers add
    up to rows times columns, counted as the turns of the two loops. *)
Theorem frames_and_empty_cells_fill_the_grid :
  forall (fuel : nat) (host : Host) (texture : Texture) (numberOfFrames : option float)
         (data : StandaloneData),
    parseSpriteData fuel host texture numberOfFrames = Ok (Some data) ->
    exists n layout R C,
      truthy numberOfFrames = Some n /\
      getRowsAndColumns fuel host texture n = Ok layout /\
      trips (rows layout) R /\ (R = 0%nat \/ trips (columns layout) C) /\
      (length (standalone_frames data) + length (emptyFrames layout) = R * C)%nat.
Proof.
  intros fuel host texture numberOfFrames data Hrun.
  destruct (parseSpriteData_Ok_inv _ _ _ _ _ Hrun) as (n & layout & fs & Hn & Hgrid & Hfs & Hdata).
  destruct texture as [[img|]].
  - destruct (getRowsAndColumns_Ok_inv _ _ _ _ _ Hgrid)
      as (_ & _ & _ & _ & R & C & HR & HC & _ & Hempty).
    destruct (nonJsonFrames_Ok_inv _ _ _ Hfs) as (R' & C' & HR' & HC' & ->).
    rewrite <- (trips_unique _ _ _ HR HR') in *. clear R' HR'.
    exists n, layout, R, C. repeat (split; [assumption|]).
    rewrite Hdata, processFrameArray_length, length_map, Hempty, length_map. clear Hdata Hfs.
    destruct HC as [->|HC]; [reflexivity|].
    destruct HC' as [->|HC']; [reflexivity|].
    rewrite <- (trips_unique _ _ _ HC HC'). clear C' HC'.
    rewrite Nat.add_comm, <- (cells_length R C).
    apply filter_partition_length. intros [r c] Hin. apply in_cells in Hin as [Hr Hc].
    unfold included. cbn [fst snd]. f_equal. rewrite Hempty.
    now apply (isExcluded_made _ _ _ R C r c HR HC).
  - unfold parseSpriteData in Hrun. rewrite Hn in Hrun. discriminate.
Qed.

Lemma frames_and_empty_cells_fill_the_grid_witness :
  exists n layout R C,
    truthy (Some 7%float) = Some n /\
    getRowsAndColumns 5 opaque_host sheet_texture n = Ok layout /\
    trips (rows layout) R /\ (R = 0%nat \/ trips (columns layout) C) /\
    (length (scaled_array (map (frame_at 128 128 0) [0; 1; 2; 3] ++
                           map (frame_at 128 128 1) [0; 1; 2])%float)
     + length (emptyFrames layout) = R * C)%nat.
Proof.
  apply (frames_and_empty_cells_fill_the_grid 5%nat opaque_host sheet_texture (Some 7%float)
           {| standalone_frames :=
                scaled_array (map (frame_at 128 128 0) [0; 1; 2; 3] ++
                              map (frame_at 128 128 1) [0; 1; 2])%float;
              standalone_meta :=
                {| version := "1.0"; size := Size.mk 512 256; meta_rows := 2;
                   meta_columns := 4; meta_frameWidth := 128; meta_frameHeight := 128;
                   scale := "1" |} |}).
  vm_compute. reflexivity.
Defined.

Lemma fold_largest_same {A : Type} `{HasFrame A} (a : float) (l : list A) (l0 : Largest) :
  (forall f, In f l -> area f = a) -> largest_area l0 = a ->
  exists l1, fold_left largest_step l (Some l0) = Some l1 /\ largest_area l1 = a.
Proof.
  revert l0. induction l as [|f l IH]; intros l0 Hall H0; simpl; [eauto|].
  destruct (largest_area l0 <? _)%float.
  - apply IH; [intros g Hg; apply Hall; now right|]. cbn [largest_area].
    apply (Hall f). now left.
  - apply IH; [intros g Hg; apply Hall; now right|exact H0].
Qed.

Lemma same_area_ratios {A : Type} `{HasFrame A} (a : float) (l : list A) :
  (forall f, In f l -> area f = a) -> (a =? a)%float = true ->
  forall s, In s (processFrameArray l) -> scaleRatio s = 1%float.
Proof.
  intros Hall Ha s Hin. unfold processFrameArray in Hin.
  apply in_map_iff in Hin as (f & <- & Hf). cbn [scaleRatio].
  destruct l as [|f0 l]; [contradiction|].
  unfold find_largest. simpl.
  destruct (fold_largest_same a l
              {| largest_w := Rect.w (frame_of f0); largest_h := Rect.h (frame_of f0);
                 largest_area := (Rect.w (frame_of f0) * Rect.h (frame_of f0))%float |})
    as (l1 & -> & Hl1).
  - intros g Hg. apply Hall. now right.
  - apply (Hall f0). now left.
  - unfold scale_of. fold (area f). now rewrite Hl1, (Hall f Hf), Ha.
Qed.

(** X7: every frame of the manifest built from a grid has the width and
    height of a cell, the [frameWidth] and [frameHeight] of the [meta], and so
    the ratio 1, as long as the area of a cell is not NaN. *)
Theorem grid_frames_have_ratio_one :
  forall (fuel : nat) (host : Host) (texture : Texture) (numberOfFrames : option float)
         (data : StandaloneData) (s : Scaled FrameData),
    parseSpriteData fuel host texture numberOfFrames = Ok (Some data) ->
    In s (standalone_frames data) ->
    Rect.w (frame (base s)) = meta_frameWidth (standalone_meta data) /\
    Rect.h (frame (base s)) = meta_frameHeight (standalone_meta data) /\
    ((area (base s) =? area (base s))%float = true -> scaleRatio s = 1%float).
Proof.
  intros fuel host texture numberOfFrames data s Hrun Hin.
  pose proof Hrun as Hrun'. unfold parseSpriteData in Hrun'.
  destruct (parseSpriteData_Ok_inv _ _ _ _ _ Hrun) as (n & layout & fs & Hn & Hgrid & Hfs & Hdata).
  rewrite Hn in Hrun'. destruct (image texture) as [img|]; [|discriminate].
  rewrite Hgrid in Hrun'. cbn [bind] in Hrun'. rewrite Hfs in Hrun'. cbn [bind] in Hrun'.
  injection Hrun' as <-.
  cbn [standalone_frames standalone_meta meta_frameWidth meta_frameHeight] in *.
  destruct (nonJsonFrames_Ok_inv _ _ _ Hfs) as (R & C & _ & _ & ->).
  assert (Hall : forall f, In f (map (frame_of_cell layout)
                                   (List.filter (included layout) (cells R C))) ->
                           Rect.w (frame f) = frameWidth layout /\
                           Rect.h (frame f) = frameHeight layout).
  { intros f Hf. apply in_map_iff in Hf as (rc & <- & _). split; reflexivity. }
  assert (Hbase : In (base s) (map (frame_of_cell layout)
                                 (List.filter (included layout) (cells R C)))).
  { rewrite <- (processFrameArray_base (map (frame_of_cell layout)
                                          (List.filter (included layout) (cells R C)))).
    now apply in_map. }
  destruct (Hall _ Hbase) as [Hw Hh]. split; [exact Hw|]. split; [exact Hh|].
  intros Hnum.
  apply (same_area_ratios (frameWidth layout * frameHeight layout)%float
           (map (frame_of_cell layout) (List.filter (included layout) (cells R C)))).
  - intros f Hf. destruct (Hall f Hf) as [Hfw Hfh]. unfold area, frame_of, FrameData_HasFrame.
    now rewrite Hfw, Hfh.
  - unfold area, frame_of, FrameData_HasFrame in Hnum. now rewrite Hw, Hh in Hnum.
  - exact Hin.
Qed.

Lemma grid_frames_have_ratio_one_witness :
  Rect.w (frame (frame_at 128 128 0 1)) = 128%float /\
  Rect.h (frame (frame_at 128 128 0 1)) = 128%float /\
  ((area (frame_at 128 128 0 1) =? area (frame_at 128 128 0 1))%float = true ->
   1%float = 1%float).
Proof.
  apply (grid_frames_have_ratio_one 5%nat opaque_host sheet_texture (Some 7%float)
           {| standalone_frames :=
                scaled_array (map (frame_at 128 128 0) [0; 1; 2; 3] ++
                              map (frame_at 128 128 1) [0; 1; 2])%float;
              standalone_meta :=
                {| version := "1.0"; size := Size.mk 512 256; meta_rows := 2;
                   meta_columns := 4; meta_frameWidth := 128; meta_frameHeight := 128;
                   scale := "1" |} |}
           {| base := frame_at 128 128 0 1; scaleRatio := 1 |}).
  - vm_compute. reflexivity.
  - vm_compute. right. left. reflexivity.
Defined.

(** ** Frame counts that are not positive *)

Lemma sqrt_negative (x : float) : (x <? 0)%float = true -> PrimFloat.sqrt x = nan.
Proof.
  intros Hx. apply Prim2SF_inj. rewrite FloatAxioms.sqrt_spec.
  rewrite FloatAxioms.ltb_spec in Hx. unfold SFltb in Hx.
  change (Prim2SF 0) with (S754_zero false) in Hx.
  destruct (Prim2SF x) as [[|]|[|]| |[|] m e]; cbn [SFcompare] in Hx; try discriminate;
    reflexivity.
Qed.

Lemma div_nan (x : float) : (x / nan)%float = nan.
Proof.
  apply Prim2SF_inj. rewrite FloatAxioms.div_spec.
  change (Prim2SF nan) with S754_nan.
  now destruct (Prim2SF x) as [[|]|[|]| |[|] m e].
Qed.

Lemma negative_is_truthy (n : float) : (n <? 0)%float = true -> truthy (Some n) = Some n.
Proof.
  intros Hn. unfold truthy.
  assert (Hnum : number n).
  { destruct (n =? n)%float eqn:E; [exact E|].
    apply not_number_nan in E. rewrite FloatAxioms.ltb_spec, E in Hn. discriminate. }
  assert (Hz : (n =? 0)%float = false).
  { destruct (n =? 0)%float eqn:E; [|reflexivity].
    apply (eqb_rank n 0 Hnum eq_refl) in E.
    apply (ltb_rank n 0 Hnum eq_refl) in Hn. lia. }
  unfold is_nan. unfold number in Hnum. now rewrite Hz, Hnum.
Qed.

(** X8: a negative frame count is truthy and, when the number under the
    square root is negative, the columns, the rows and the frame size are all
    NaN: no cell is walked, nothing is sampled and nothing is thrown, and the
    manifest has no frame. *)
Theorem negative_count_gives_nan_grid :
  forall (fuel : nat) (host : Host) (img : Image) (totalFrames : float),
    getContext host = true ->
    drawImage host img = Ok tt ->
    (totalFrames <? 0)%float = true ->
    (totalFrames * (width img / height img) <? 0)%float = true ->
    getRowsAndColumns (S fuel) host {| image := Some img |} totalFrames =
      Ok {| rows := nan; columns := nan; frameWidth := nan; frameHeight := nan;
            emptyFrames := [] |} /\
    parseSpriteData (S fuel) host {| image := Some img |} (Some totalFrames) =
      Ok (Some {| standalone_frames := [];
                  standalone_meta :=
                    {| version := "1.0"; size := Size.mk (width img) (height img);
                       meta_rows := nan; meta_columns := nan;
                       meta_frameWidth := nan; meta_frameHeight := nan; scale := "1" |} |}).
Proof.
  intros fuel host img totalFrames Hctx Hdraw Hneg Hprod.
  assert (Hgrid : getRowsAndColumns (S fuel) host {| image := Some img |} totalFrames =
                  Ok {| rows := nan; columns := nan; frameWidth := nan; frameHeight := nan;
                        emptyFrames := [] |}).
  { unfold getRowsAndColumns. cbn [image]. rewrite Hctx, Hdraw. cbn [negb bind].
    rewrite (sqrt_negative _ Hprod).
    change (Math_round nan) with nan. rewrite !div_nan.
    change (Math_round nan) with nan. reflexivity. }
  split; [exact Hgrid|].
  unfold parseSpriteData. rewrite (negative_is_truthy _ Hneg). cbn [image].
  rewrite Hgrid. reflexivity.
Qed.

Lemma negative_count_gives_nan_grid_witness :
  getRowsAndColumns 1 opaque_host {| image := Some sheet |} (-4) =
    Ok {| rows := nan; columns := nan; frameWidth := nan; frameHeight := nan;
          emptyFrames := [] |} /\
  parseSpriteData 1 opaque_host {| image := Some sheet |} (Some (-4)%float) =
    Ok (Some {| standalone_frames := [];
                standalone_meta :=
                  {| version := "1.0"; size := Size.mk (width sheet) (height sheet);
                     meta_rows := nan; meta_columns := nan;
                     meta_frameWidth := nan; meta_frameHeight := nan; scale := "1" |} |}).
Proof.
  apply (negative_count_gives_nan_grid 0%nat opaque_host sheet (-4)%float); reflexivity.
Defined.

(** ** How grid inference fails *)

(** X9: how the sprite-only case fails. Without a 2d context grid inference
    throws before it draws; an exception of [drawImage] is passed on; so is
    the exception of [getImageData] on the first cell, when the grid has a
    cell and a frame to sample; [parseSpriteData] passes on whatever grid
    inference throws, and throws a TypeError itself on a texture without
    image. *)
Theorem grid_inference_failures :
  (forall (fuel : nat) (host : Host) (img : Image) (totalFrames : float),
      getContext host = false ->
      getRowsAndColumns fuel host {| image := Some img |} totalFrames
      = Throw ContextUnavailable) /\
  (forall (fuel : nat) (host : Host) (img : Image) (totalFrames : float) (e : error),
      getContext host = true ->
      drawImage host img = Throw e ->
      getRowsAndColumns fuel host {| image := Some img |} totalFrames = Throw e) /\
  (forall (fuel : nat) (host : Host) (img : Image) (totalFrames : float) (e : error),
      getContext host = true ->
      drawImage host img = Ok tt ->
      (0 <? inferred_rows img totalFrames)%float = true ->
      (0 <? inferred_columns img totalFrames)%float = true ->
      (totalFrames <=? 0 * inferred_columns img totalFrames + 0)%float = false ->
      getImageData host img
        (0 * (width img / inferred_columns img totalFrames))%float
        (0 * (height img / inferred_rows img totalFrames))%float
        (width img / inferred_columns img totalFrames)%float
        (height img / inferred_rows img totalFrames)%float = Throw e ->
      getRowsAndColumns (S fuel) host {| image := Some img |} totalFrames = Throw e) /\
  (forall (fuel : nat) (host : Host) (img : Image) (totalFrames : float) (e : error),
      truthy (Some totalFrames) = Some totalFrames ->
      getRowsAndColumns fuel host {| image := Some img |} totalFrames = Throw e ->
      parseSpriteData fuel host {| image := Some img |} (Some totalFrames) = Throw e) /\
  (forall (fuel : nat) (host : Host) (totalFrames : float),
      truthy (Some totalFrames) = Some totalFrames ->
      parseSpriteData fuel host {| image := None |} (Some totalFrames) = Throw TypeError).
Proof.
  split; [|split; [|split; [|split]]].
  - intros fuel host img totalFrames Hctx.
    unfold getRowsAndColumns. cbn [image]. now rewrite Hctx.
  - intros fuel host img totalFrames e Hctx Hdraw.
    unfold getRowsAndColumns. cbn [image]. now rewrite Hctx, Hdraw.
  - intros fuel host img totalFrames e Hctx Hdraw Hrows Hcols Hidx Hdata.
    unfold getRowsAndColumns. cbn [image]. rewrite Hctx, Hdraw. cbn [negb bind].
    fold (inferred_columns img totalFrames). fold (inferred_rows img totalFrames).
    cbn [for_lt]. rewrite Hrows, Hcols. unfold inspect_cell at 1.
    rewrite Hidx, Hdata. reflexivity.
  - intros fuel host img totalFrames e Htruthy Hgrid.
    unfold parseSpriteData. rewrite Htruthy. cbn [image]. now rewrite Hgrid.
  - intros fuel host totalFrames Htruthy.
    unfold parseSpriteData. now rewrite Htruthy.
Qed.

Lemma grid_inference_failures_witness :
  getRowsAndColumns 1 {| getContext := true; drawImage := fun _ => Ok tt;
                         getImageData := fun _ _ _ _ _ => Throw (HostError 18) |}
    {| image := Some sheet |} 8
  = Throw (HostError 18).
Proof.
  apply (proj1 (proj2 (proj2 grid_inference_failures)) 0%nat
           {| getContext := true; drawImage := fun _ => Ok tt;
              getImageData := fun _ _ _ _ _ => Throw (HostError 18) |}
           sheet 8%float (HostError 18)); reflexivity.
Defined.

(** ** Empty frames, pixel by pixel *)

Lemma checkIfFrameIsEmpty_app (a b : list byte) :
  (length a mod 4 = 0)%nat ->
  checkIfFrameIsEmpty (a ++ b) = checkIfFrameIsEmpty a && checkIfFrameIsEmpty b.
Proof.
  intros Hlen. apply eq_true_iff_eq.
  rewrite andb_true_iff, !checkIfFrameIsEmpty_spec, length_app. split.
  - intros Hall. split.
    + intros i Hi Hmod. rewrite <- (app_nth1 a b x00 Hi). apply Hall; [lia|exact Hmod].
    + intros j Hj Hmod.
      replace (nth j b x00) with (nth (length a + j) (a ++ b) x00).
      * apply Hall; [lia|].
        rewrite Nat.Div0.add_mod, Hlen, Nat.add_0_l, Nat.Div0.mod_mod. exact Hmod.
      * rewrite app_nth2 by lia. f_equal. lia.
  - intros [Ha Hb] i Hi Hmod.
    destruct (Nat.lt_ge_cases i (length a)) as [Hlt|Hge].
    + rewrite app_nth1 by exact Hlt. now apply Ha.
    + rewrite app_nth2 by exact Hge. apply Hb; [lia|].
      replace i with (length a + (i - length a))%nat in Hmod by lia.
      rewrite Nat.Div0.add_mod, Hlen, Nat.add_0_l, Nat.Div0.mod_mod in Hmod. exact Hmod.
Qed.

(** X10: emptiness pixel by pixel. Fewer than four bytes are always
    empty; a first pixel contributes its alpha byte alone, whatever its
    colour; and a sample cut after a whole number of pixels is empty exactly
    when both parts are. *)
Theorem empty_frames_pixel_by_pixel :
  (forall frameData : list byte,
      (length frameData < 4)%nat -> checkIfFrameIsEmpty frameData = true) /\
  (forall (r g b a : byte) (rest : list byte),
      checkIfFrameIsEmpty (r :: g :: b :: a :: rest) =
      Byte.eqb a x00 && checkIfFrameIsEmpty rest) /\
  (forall front back : list byte,
      (length front mod 4 = 0)%nat ->
      checkIfFrameIsEmpty (front ++ back) =
      checkIfFrameIsEmpty front && checkIfFrameIsEmpty back).
Proof.
  split; [|split].
  - intros frameData Hlen. apply checkIfFrameIsEmpty_spec. intros i Hi Hmod.
    exfalso. rewrite Nat.mod_small in Hmod by lia. lia.
  - intros r g b a rest.
    change (r :: g :: b :: a :: rest) with ([r; g; b; a] ++ rest).
    rewrite checkIfFrameIsEmpty_app by reflexivity. f_equal.
    unfold checkIfFrameIsEmpty. simpl. now destruct (Byte.eqb a x00).
  - exact checkIfFrameIsEmpty_app.
Qed.

Lemma empty_frames_pixel_by_pixel_witness :
  checkIfFrameIsEmpty [xff; xff; xff] = true.
Proof.
  apply (proj1 empty_frames_pixel_by_pixel [xff; xff; xff]). simpl. lia.
Defined.

(** ** Normalising twice *)

Lemma largest_step_base {A : Type} `{HasFrame A} (acc : option Largest) (s : Scaled A) :
  largest_step acc s = largest_step acc (base s).
Proof. reflexivity. Qed.

Lemma find_largest_scaled {A : Type} `{HasFrame A} (l : list (Scaled A)) :
  find_largest l = find_largest (map base l).
Proof.
  unfold find_largest. generalize (@None Largest).
  induction l as [|s l IH]; intros acc; simpl; [reflexivity|]. apply IH.
Qed.

(** X11: normalising a normalised sequence again keeps every frame and
    recomputes the same ratios. *)
Theorem renormalising_changes_nothing :
  forall (A : Type) (HF : HasFrame A) (frameArray : list A),
    map base (processFrameArray (processFrameArray frameArray)) = processFrameArray frameArray /\
    map scaleRatio (processFrameArray (processFrameArray frameArray)) =
    map scaleRatio (processFrameArray frameArray).
Proof.
  intros A HF frameArray. split; [apply processFrameArray_base|].
  unfold processFrameArray at 1.
  rewrite find_largest_scaled, processFrameArray_base.
  unfold processFrameArray. rewrite !map_map. reflexivity.
Qed.

(** ** The order of the frames does not matter *)

Lemma rank_inj (r r' : spec_float) :
  number_result r -> number_result r' -> rank r = rank r' -> rank r <> 0 -> r = r'.
Proof.
  destruct r as [s|[|]| |[|] m e], r' as [s'|[|]| |[|] m' e']; cbn [number_result rank];
    try tauto; intros Hr Hr' Heq Hne;
    change (2 ^ 54) with 18014398509481984 in *;
    change (2 ^ 70) with 1180591620717411303424 in *;
    try lia; try reflexivity.
  - assert (e = e') by lia. subst e'. assert (Z.pos m = Z.pos m') by lia. congruence.
  - assert (e = e') by lia. subst e'. assert (Z.pos m = Z.pos m') by lia. congruence.
Qed.

Lemma num_rank_inj (x y : float) :
  number x -> number y -> num_rank x = num_rank y -> num_rank x <> 0 -> x = y.
Proof.
  intros Hx Hy Heq Hne. apply Prim2SF_inj.
  apply rank_inj; auto using number_result_of.
Qed.

Lemma nonneg_rank (x : float) : nonneg x -> 0 <= num_rank x.
Proof. intros Hx. apply rank_bounds. now apply nonneg_result_of. Qed.

Section OrderOfFrames.
Context {A : Type} `{HasFrame A}.

Lemma scale_of_same_top (frameArray frameArray' : list A) (l l' : Largest) (f : A) :
  (forall g, In g frameArray -> nonneg (area g)) ->
  (forall g, In g frameArray <-> In g frameArray') ->
  tops frameArray (Some l) -> tops frameArray' (Some l') -> In f frameArray ->
  scale_of (Some l) f = scale_of (Some l') f.
Proof.
  intros Hpos Hsame [(g & Hg & Hgl) Hmax] [(g' & Hg' & Hgl') Hmax'] Hf.
  assert (Hl : nonneg (largest_area l)) by (rewrite <- Hgl; auto).
  assert (Hl' : nonneg (largest_area l')).
  { rewrite <- Hgl'. apply Hpos. now apply Hsame. }
  assert (Hrank : num_rank (largest_area l) = num_rank (largest_area l')).
  { apply Z.le_antisymm.
    - rewrite <- Hgl. apply Hmax'. now apply Hsame.
    - rewrite <- Hgl'. apply Hmax. now apply Hsame. }
  pose proof (Hpos f Hf) as Ha.
  unfold scale_of. fold (area f).
  destruct (area f =? largest_area l)%float eqn:Heq.
  - apply (eqb_rank _ _ (nonneg_number _ Ha) (nonneg_number _ Hl)) in Heq.
    assert (Heq' : (area f =? largest_area l')%float = true).
    { apply (eqb_rank _ _ (nonneg_number _ Ha) (nonneg_number _ Hl')). lia. }
    now rewrite Heq'.
  - assert (Hne : num_rank (area f) <> num_rank (largest_area l)).
    { intros Hk. apply (eqb_rank _ _ (nonneg_number _ Ha) (nonneg_number _ Hl)) in Hk.
      congruence. }
    assert (Heq' : (area f =? largest_area l')%float = false).
    { destruct (area f =? largest_area l')%float eqn:E; [|reflexivity].
      apply (eqb_rank _ _ (nonneg_number _ Ha) (nonneg_number _ Hl')) in E. lia. }
    rewrite Heq'.
    pose proof (Hmax f Hf) as Hle. pose proof (nonneg_rank _ Ha) as H0.
    rewrite (num_rank_inj (largest_area l) (largest_area l')); auto using nonneg_number.
    lia.
Qed.
End OrderOfFrames.

(** X12: for frames whose areas are not negative, the ratios do not depend
    on the order of the sequence: a rearranged sequence is normalised to the
    rearranged result. *)
Theorem ratios_ignore_the_order :
  forall (A : Type) (HF : HasFrame A) (frameArray frameArray' : list A),
    Permutation frameArray frameArray' ->
    (forall f, In f frameArray -> (0 <=? area f)%float = true) ->
    Permutation (processFrameArray frameArray) (processFrameArray frameArray').
Proof.
  intros A HF frameArray frameArray' Hperm Hpos.
  assert (Hsame : forall g, In g frameArray <-> In g frameArray').
  { intros g. split; intros Hg.
    - now apply (Permutation_in g Hperm).
    - now apply (Permutation_in g (Permutation_sym Hperm)). }
  unfold processFrameArray.
  destruct frameArray as [|f0 rest] eqn:Hlist.
  - apply Permutation_nil in Hperm. subst frameArray'. constructor.
  - rewrite <- Hlist in *.
    assert (Hne : frameArray <> []) by (rewrite Hlist; discriminate).
    assert (Hne' : frameArray' <> []).
    { intros ->. apply Permutation_sym, Permutation_nil in Hperm. contradiction. }
    assert (Hnum : forall g, In g frameArray -> number (area g))
      by (intros g Hg; apply nonneg_number; now apply Hpos).
    assert (Hnum' : forall g, In g frameArray' -> number (area g))
      by (intros g Hg; apply Hnum; now apply Hsame).
    destruct (find_largest_nonempty frameArray Hne Hnum) as (l & Hfind & Htops).
    destruct (find_largest_nonempty frameArray' Hne' Hnum') as (l' & Hfind' & Htops').
    rewrite Hfind, Hfind'.
    rewrite (map_ext_in _ (fun f => {| base := f; scaleRatio := scale_of (Some l') f |})
               frameArray).
    + now apply Permutation_map.
    + intros f Hf. f_equal.
      now apply (scale_of_same_top frameArray frameArray').
Qed.

Lemma ratios_ignore_the_order_witness :
  Permutation (processFrameArray [plain_frame 2 2; plain_frame 1 1])
    (processFrameArray [plain_frame 1 1; plain_frame 2 2]).
Proof.
  apply (ratios_ignore_the_order FrameData _ [plain_frame 2 2; plain_frame 1 1]
           [plain_frame 1 1; plain_frame 2 2]).
  - apply perm_swap.
  - intros f [<-|[<-|[]]]; reflexivity.
Defined.

(** ** Matching names *)

Lemma is_substring_trans (a b c : string) :
  is_substring a b -> is_substring b c -> is_substring a c.
Proof.
  intros (p1 & q1 & ->) (p2 & q2 & ->).
  exists (p2 ++ p1)%string, (q1 ++ q2)%string.
  now rewrite !append_associative.
Qed.

Lemma is_substring_length (a b : string) :
  is_substring a b -> (String.length a <= String.length b)%nat.
Proof.
  intros (p & q & ->). rewrite !append_length. lia.
Qed.

Lemma ascii_lower_length (s : string) : String.length (ascii_lower s) = String.length s.
Proof. induction s as [|c s IH]; [reflexivity|]. simpl. now rewrite IH. Qed.

Lemma same_letters_length (s t : string) :
  same_letters s t -> String.length s = String.length t.
Proof. intros Hsame. induction Hsame; simpl; congruence. Qed.

Lemma same_letter_sym (a b : ascii) : same_letter a b -> same_letter b a.
Proof. unfold same_letter. intuition. Qed.

Lemma same_letters_ascii_only (s t : string) :
  same_letters s t -> ascii_only s = true -> ascii_only t = true.
Proof.
  intros Hsame. induction Hsame as [|a b s t Hab _ IH]; [reflexivity|].
  simpl. rewrite !andb_true_iff, !Nat.ltb_lt. intros [Ha Hs]. split; [|now apply IH].
  destruct Hab as [->|[[Hcap Hb]|[Hcap Ha']]]; [exact Ha| |lia].
  apply capital_bounds in Hcap. lia.
Qed.

(** X13: matching a name against a key or a filename, whatever the
    platform's [toLowerCase] does beyond ASCII. A key matches itself, and what
    matches a name matches every name that name matches, so the bucket of run
    holds the frames of the bucket of running. When [toLowerCase] folds ASCII
    as it does, the empty name matches everything and, on strings of ASCII
    characters, a name longer than the key never matches and the case of the
    letters of either side does not count. *)
Theorem name_matching :
  (forall (lower : CaseMapping) (key : string), matches_name key key = true) /\
  (forall (lower : CaseMapping) (key long short : string),
      matches_name long short = true ->
      matches_name key long = true -> matches_name key short = true) /\
  (forall (lower : CaseMapping),
      ascii_folding lower ->
      (forall key : string, matches_name key EmptyString = true) /\
      (forall key name : string,
          ascii_only key = true -> ascii_only name = true ->
          (String.length key < String.length name)%nat -> matches_name key name = false) /\
      (forall key key' name name' : string,
          ascii_only key = true -> ascii_only name = true ->
          same_letters key key' -> same_letters name name' ->
          matches_name key' name' = matches_name key name)).
Proof.
  split; [|split].
  - intros lower key. apply matches_name_spec.
    exists EmptyString, EmptyString. now rewrite append_empty, append_right_empty.
  - intros lower key long short Hs Hl.
    apply matches_name_spec. apply matches_name_spec in Hs, Hl.
    now apply (is_substring_trans _ (toLowerCase long)).
  - intros lower Hfold. split; [|split].
    + intros key. apply matches_name_spec.
      rewrite (Hfold EmptyString eq_refl).
      exists EmptyString, (toLowerCase key). simpl. now rewrite !append_empty.
    + intros key name Hkey Hname Hlen.
      destruct (matches_name key name) eqn:Hm; [|reflexivity].
      apply matches_name_spec in Hm.
      rewrite (Hfold key Hkey), (Hfold name Hname) in Hm.
      apply is_substring_length in Hm.
      rewrite !ascii_lower_length in Hm. lia.
    + intros key key' name name' Hkey Hname Hk Hn.
      pose proof (same_letters_ascii_only _ _ Hk Hkey) as Hkey'.
      pose proof (same_letters_ascii_only _ _ Hn Hname) as Hname'.
      unfold matches_name.
      rewrite (Hfold key Hkey), (Hfold name Hname), (Hfold key' Hkey'), (Hfold name' Hname').
      apply ascii_lower_same in Hk, Hn. now rewrite Hk, Hn.
Qed.

Lemma name_matching_witness :
  matches_name "walk_1" "walking" = false /\
  matches_name "WALK_1" "Walk" = matches_name "walk_1" "walk" /\
  matches_name "walk_1" "walk" = true.
Proof.
  assert (Hfold : ascii_folding ascii_mapping) by (intros s _; reflexivity).
  split; [|split].
  - apply (proj1 (proj2 (proj2 (proj2 name_matching) ascii_mapping Hfold))
             "walk_1"%string "walking"%string); [reflexivity|reflexivity|simpl; lia].
  - apply (proj2 (proj2 (proj2 (proj2 name_matching) ascii_mapping Hfold))
             "walk_1"%string "WALK_1"%string "walk"%string "Walk"%string);
      try reflexivity.
    + repeat (constructor; [unfold same_letter; vm_compute; tauto|]). constructor.
    + repeat (constructor; [unfold same_letter; vm_compute; tauto|]). constructor.
  - reflexivity.
Defined.

(** ** The two forms of a manifest *)

Lemma scan_array_of_hash `{CaseMapping} (delimiter : string) (l : list (string * FrameData)) :
  scan_array delimiter (map (fun kv => with_filename (fst kv) (snd kv)) l) =
  map (fun kv => grouped (snd kv)) (List.filter (keyed_by delimiter) l).
Proof.
  induction l as [|[key value] l IH]; [reflexivity|]. simpl.
  change (keyed_by delimiter (key, value)) with (matches_name key delimiter).
  destruct (matches_name key delimiter); simpl; now rewrite IH.
Qed.

Lemma group_all_ext `{CaseMapping} (data_frames data_frames' : RawFrames) :
  (forall d, scan data_frames d = scan data_frames' d) ->
  forall delimiters sprites,
    group_all data_frames delimiters sprites = group_all data_frames' delimiters sprites.
Proof.
  intros Hscan delimiters. induction delimiters as [|d rest IH]; intros sprites; simpl;
    [reflexivity|].
  rewrite Hscan. destruct (scan data_frames' d); simpl; auto.
Qed.

(** X14: a manifest in hash form with a frame under each key is grouped
    as the manifest in array form whose frames carry the keys as their
    [filename]s, in the same order. *)
Theorem hash_and_array_forms_agree :
  forall (lower : CaseMapping) (m : MetaData) (l : list (string * FrameData))
         (names : list string),
    parseFrames (Some {| frames := hash_of l; meta := m |}) (Some names) =
    parseFrames
      (Some {| frames := ArrayForm (map (fun kv => with_filename (fst kv) (snd kv)) l);
               meta := m |})
      (Some names).
Proof.
  intros lower m l names. unfold parseFrames. cbn [frames].
  rewrite (group_all_ext (hash_of l)
             (ArrayForm (map (fun kv => with_filename (fst kv) (snd kv)) l))); [reflexivity|].
  intros d. cbn [scan hash_of]. now rewrite scan_hash_spec, scan_array_of_hash.
Qed.

(** ** The keys of the object of buckets *)

Lemma created_from (names acc : list string) :
  exists tail,
    fold_left (fun keys name =>
                 if String.eqb name proto_name || existsb (String.eqb name) keys
                 then keys else keys ++ [name]) names acc
    = acc ++ tail /\
    forall k, In k tail -> In k names /\ k <> proto_name.
Proof.
  revert acc. induction names as [|n names IH]; intros acc; cbn [fold_left].
  - exists []. split; [now rewrite app_nil_r|intros k []].
  - destruct (String.eqb n proto_name || existsb (String.eqb n) acc) eqn:Hskip.
    + destruct (IH acc) as (tail & Heq & Hin). exists tail. split; [exact Heq|].
      intros k Hk. destruct (Hin k Hk). split; [now right|assumption].
    + apply orb_false_iff in Hskip as [Hn _]. apply String.eqb_neq in Hn.
      destruct (IH (acc ++ [n])) as (tail & Heq & Hin). exists (n :: tail). split.
      * rewrite Heq, <- app_assoc. reflexivity.
      * intros k [<-|Hk]; [split; [now left|exact Hn]|].
        destruct (Hin k Hk). split; [now right|assumption].
Qed.

Lemma created_keys_in (names : list string) (k : string) :
  In k (created_keys names) -> In k names /\ k <> proto_name.
Proof.
  unfold created_keys. destruct (created_from names []) as (tail & -> & Hin). exact (Hin k).
Qed.

Lemma created_keys_head (n : string) (names : list string) :
  n <> proto_name -> exists tail, created_keys (n :: names) = n :: tail.
Proof.
  intros Hn. apply String.eqb_neq in Hn.
  unfold created_keys. cbn [fold_left existsb app]. rewrite Hn. cbn [orb].
  destruct (created_from names [n]) as (tail & -> & _). now exists tail.
Qed.

Lemma insert_index_in (n : N) (key : string) (l : list (N * string)) (x : N * string) :
  In x (insert_index n key l) -> x = (n, key) \/ In x l.
Proof.
  induction l as [|[n' key'] l IH]; simpl.
  - intros [<-|[]]. now left.
  - destruct (n <=? n')%N; simpl.
    + intros [<-|Hin]; auto.
    + intros [<-|Hin]; auto. destruct (IH Hin); auto.
Qed.

Lemma Object_keys_in (created : list string) (k : string) :
  In k (Object_keys created) -> In k created.
Proof.
  unfold Object_keys. rewrite in_app_iff. intros [Hin|Hin].
  - apply in_map_iff in Hin as ([n key] & <- & Hin). cbn [snd].
    induction created as [|c created IH]; simpl in Hin; [contradiction|].
    destruct (array_index c) as [m|].
    + apply insert_index_in in Hin as [[= _ ->]|Hin]; [now left|right; now apply IH].
    + right. now apply IH.
  - now apply filter_In in Hin as [Hin _].
Qed.

Lemma Object_keys_plain (created : list string) :
  (forall k, In k created -> array_index k = None) -> Object_keys created = created.
Proof.
  intros Hplain. unfold Object_keys.
  induction created as [|c created IH]; [reflexivity|].
  cbn [fold_right List.filter]. rewrite (Hplain c (or_introl eq_refl)).
  specialize (IH (fun k Hk => Hplain k (or_intror Hk))).
  destruct (fold_right _ [] created) as [|x l] eqn:Hfold.
  - simpl in *. now f_equal.
  - exfalso. clear IH.
    assert (Hx : In x (x :: l)) by now left.
    rewrite <- Hfold in Hx. clear Hfold.
    induction created as [|d created IH]; simpl in Hx; [contradiction|].
    rewrite (Hplain d (or_intror (or_introl eq_refl))) in Hx.
    apply IH; [|exact Hx].
    intros k [<-|Hk]; apply Hplain; [now left|right; now right].
Qed.

(** ** parseSpriteData, with a manifest *)

Section ManifestParse.
Context {lower : CaseMapping}.

(** The manifest branch, when a list of names is given and every scan
    returns: grouping throws, or the size is read from the bucket under the
    first own key of the object it returns. *)
Lemma parseSpriteData_json_names (viewport : Viewport.t) (data : SpriteData)
    (found : string -> list GroupedFrame) (names : list string) :
  (forall d, scan (frames data) d = Ok (found d)) ->
  (parseFrames (Some data) (Some names) = Throw TypeError /\
   parseSpriteData_json viewport (Some names) data = Throw TypeError) \/
  exists parsed,
    parseFrames (Some data) (Some names) = Ok (Some parsed) /\
    (~ In proto_name names -> exists sprites, parsed = Sprites sprites) /\
    parseSpriteData_json viewport (Some names) data =
    match Object_keys (created_keys names) with
    | [] => Throw TypeError
    | key :: _ =>
        match found key with
        | [] => Throw TypeError
        | first :: _ =>
            Ok {| spriteData_frames := parsed;
                  spriteData_meta := meta data;
                  aspect := calculateAspectRatio viewport (Size.w (g_sourceSize first))
                              (Size.h (g_sourceSize first)) aspectFactor |}
        end
    end.
Proof.
  intros Hscan.
  assert (Hsize : forall sprites : gmap string Bucket,
             (forall name,
                 (In name names -> name <> proto_name ->
                  sprites !! name = Some (bucket_of (found name))) /\
                 (~ In name names \/ name = proto_name -> sprites !! name = None)) ->
             first_sourceSize g_sourceSize (RecordParam (sprites_entries names sprites)) =
             match Object_keys (created_keys names) with
             | [] => Throw TypeError
             | key :: _ =>
                 match found key with
                 | [] => Throw TypeError
                 | first :: _ => Ok (g_sourceSize first)
                 end
             end).
  { intros sprites Hlook. unfold first_sourceSize, sprites_entries.
    destruct (Object_keys (created_keys names)) as [|key rest] eqn:Hkeys; [reflexivity|].
    assert (Hin : In key names /\ key <> proto_name).
    { apply created_keys_in, Object_keys_in. rewrite Hkeys. now left. }
    cbn [omap list_omap]. rewrite (proj1 (Hlook key) (proj1 Hin) (proj2 Hin)).
    cbn [fmap option_fmap option_map].
    cbn [getFirstItem bucket_of bucket_items bind].
    destruct (found key) as [|first others]; reflexivity. }
  destruct (parseFrames_names data found names Hscan)
    as [Hthrow|(sprites & [Hparse|[items Hparse]] & Hlook)].
  - left. split; [exact Hthrow|]. unfold parseSpriteData_json. now rewrite Hthrow.
  - right. exists (Sprites sprites). split; [exact Hparse|]. split; [eauto|].
    unfold parseSpriteData_json. rewrite Hparse. cbn [bind]. rewrite (Hsize sprites Hlook).
    destruct (Object_keys (created_keys names)) as [|key rest]; [reflexivity|].
    destruct (found key) as [|first others]; reflexivity.
  - right. exists (Inheriting items sprites). split; [exact Hparse|]. split.
    + intros Hplain.
      destruct (parseFrames_grouped data found names Hscan Hplain) as (sprites' & Hparse' & _).
      congruence.
    + unfold parseSpriteData_json. rewrite Hparse. cbn [bind]. rewrite (Hsize sprites Hlook).
      destruct (Object_keys (created_keys names)) as [|key rest]; [reflexivity|].
      destruct (found key) as [|first others]; reflexivity.
Qed.

Lemma filter_named_by_unnamed (key : string) (l : list FrameData) :
  (forall f, In f l -> filename f = None) -> List.filter (named_by key) l = [].
Proof.
  intros Hall. induction l as [|f l IH]; [reflexivity|]. simpl.
  unfold named_by at 1. rewrite (Hall f (or_introl eq_refl)).
  apply IH. intros g Hg. apply Hall. now right.
Qed.
End ManifestParse.

(** X15: with a manifest, [parseSpriteData] throws a TypeError when there is
    no first frame to take the size from: no list of names and no frame at
    all; an empty list of names; or a list of names of which the first own
    key of the grouped object has an empty bucket, whatever the other names
    match. So a manifest in array form whose frames have no [filename] cannot
    be parsed with names. The name __proto__ makes no own key. *)
Theorem manifest_without_first_frame_throws :
  (forall (lower : CaseMapping) (viewport : Viewport.t) (json : SpriteData),
      flatten (frames json) = [] ->
      parseSpriteData_json viewport None json = Throw TypeError) /\
  (forall (lower : CaseMapping) (viewport : Viewport.t) (json : SpriteData),
      parseSpriteData_json viewport (Some []) json = Throw TypeError) /\
  (forall (lower : CaseMapping) (viewport : Viewport.t) (m : MetaData) (l : list FrameData)
          (names : list string) (key : string) (rest : list string),
      Object_keys (created_keys names) = key :: rest ->
      List.filter (named_by key) l = [] ->
      parseSpriteData_json viewport (Some names) {| frames := ArrayForm l; meta := m |}
      = Throw TypeError) /\
  (forall (lower : CaseMapping) (viewport : Viewport.t) (m : MetaData)
          (l : list (string * FrameData)) (names : list string) (key : string)
          (rest : list string),
      Object_keys (created_keys names) = key :: rest ->
      List.filter (keyed_by key) l = [] ->
      parseSpriteData_json viewport (Some names) {| frames := hash_of l; meta := m |}
      = Throw TypeError) /\
  (forall (lower : CaseMapping) (viewport : Viewport.t) (m : MetaData) (l : list FrameData)
          (names : list string),
      (forall f, In f l -> filename f = None) ->
      parseSpriteData_json viewport (Some names) {| frames := ArrayForm l; meta := m |}
      = Throw TypeError) /\
  (forall names : list string, ~ In "__proto__"%string (Object_keys (created_keys names))).
Proof.
  split; [|split; [|split; [|split; [|split]]]].
  - intros lower viewport json Hempty. unfold parseSpriteData_json, parseFrames.
    cbn [bind]. now rewrite Hempty.
  - intros lower viewport json. unfold parseSpriteData_json, parseFrames. reflexivity.
  - intros lower viewport m l names key rest Hkeys Hnone.
    destruct (parseSpriteData_json_names viewport {| frames := ArrayForm l; meta := m |}
                (fun d => map grouped (List.filter (named_by d) l)) names)
      as [[_ Hthrow]|(parsed & _ & _ & ->)].
    + intros d. simpl. now rewrite scan_array_spec.
    + exact Hthrow.
    + now rewrite Hkeys, Hnone.
  - intros lower viewport m l names key rest Hkeys Hnone.
    destruct (parseSpriteData_json_names viewport {| frames := hash_of l; meta := m |}
                (fun d => map (fun kv => grouped (snd kv)) (List.filter (keyed_by d) l)) names)
      as [[_ Hthrow]|(parsed & _ & _ & ->)].
    + intros d. simpl. apply scan_hash_spec.
    + exact Hthrow.
    + now rewrite Hkeys, Hnone.
  - intros lower viewport m l names Hunnamed.
    destruct (parseSpriteData_json_names viewport {| frames := ArrayForm l; meta := m |}
                (fun d => map grouped (List.filter (named_by d) l)) names)
      as [[_ Hthrow]|(parsed & _ & _ & ->)].
    + intros d. simpl. now rewrite scan_array_spec.
    + exact Hthrow.
    + destruct (Object_keys (created_keys names)) as [|key rest]; [reflexivity|].
      now rewrite (filter_named_by_unnamed key l Hunnamed).
  - intros names Hin. apply Object_keys_in, created_keys_in in Hin as [_ Hne].
    now apply Hne.
Qed.

Lemma manifest_without_first_frame_throws_witness :
  parseSpriteData_json (Viewport.mk 1 10 10) (Some ["jump"; "run"]%string)
    {| frames := ArrayForm [with_filename "run_1" (plain_frame 4 4)]; meta := no_meta |}
  = Throw TypeError.
Proof.
  apply (proj1 (proj2 (proj2 manifest_without_first_frame_throws)) ascii_mapping
           (Viewport.mk 1 10 10)
           no_meta [with_filename "run_1" (plain_frame 4 4)] ["jump"; "run"]%string
           "jump"%string ["run"%string]); reflexivity.
Defined.

(** X16: with a manifest, the stored frames are those [parseFrames]
    returns, the [meta] is kept, and the aspect vector is computed from the
    [sourceSize] of the first frame: of the whole manifest when no names are
    given, else of the bucket under the first own key of the grouped object.
    That key is the first name when no name is an array index or __proto__;
    names that are array indices come first, in ascending order, and
    __proto__ is no key: with the names __proto__ and run and one frame
    run_1, the size is that of run_1 and the object returned inherits from an
    empty array. *)
Theorem manifest_aspect_from_first_frame :
  (forall (lower : CaseMapping) (viewport : Viewport.t) (json : SpriteData)
          (first : FrameData) (others : list FrameData),
      flatten (frames json) = first :: others ->
      parseSpriteData_json viewport None json =
      Ok {| spriteData_frames := Flat (processFrameArray (flatten (frames json)));
            spriteData_meta := meta json;
            aspect := calculateAspectRatio viewport (Size.w (sourceSize first))
                        (Size.h (sourceSize first)) aspectFactor |}) /\
  (forall (lower : CaseMapping) (viewport : Viewport.t) (m : MetaData) (l : list FrameData)
          (names : list string) (key : string) (rest : list string) (first : FrameData)
          (others : list FrameData),
      ~ In "__proto__"%string names ->
      Object_keys (created_keys names) = key :: rest ->
      List.filter (named_by key) l = first :: others ->
      exists sprites,
        parseFrames (Some {| frames := ArrayForm l; meta := m |}) (Some names)
        = Ok (Some (Sprites sprites)) /\
        parseSpriteData_json viewport (Some names) {| frames := ArrayForm l; meta := m |} =
        Ok {| spriteData_frames := Sprites sprites;
              spriteData_meta := m;
              aspect := calculateAspectRatio viewport (Size.w (sourceSize first))
                          (Size.h (sourceSize first)) aspectFactor |}) /\
  (forall (lower : CaseMapping) (viewport : Viewport.t) (m : MetaData)
          (l : list (string * FrameData)) (names : list string) (key : string)
          (rest : list string) (first : string * FrameData)
          (others : list (string * FrameData)),
      ~ In "__proto__"%string names ->
      Object_keys (created_keys names) = key :: rest ->
      List.filter (keyed_by key) l = first :: others ->
      exists sprites,
        parseFrames (Some {| frames := hash_of l; meta := m |}) (Some names)
        = Ok (Some (Sprites sprites)) /\
        parseSpriteData_json viewport (Some names) {| frames := hash_of l; meta := m |} =
        Ok {| spriteData_frames := Sprites sprites;
              spriteData_meta := m;
              aspect := calculateAspectRatio viewport (Size.w (sourceSize (snd first)))
                          (Size.h (sourceSize (snd first))) aspectFactor |}) /\
  (forall (name : string) (names : list string),
      (forall k, In k (name :: names) -> array_index k = None) ->
      name <> "__proto__"%string ->
      exists rest, Object_keys (created_keys (name :: names)) = name :: rest) /\
  Object_keys (created_keys ["walk"; "__proto__"; "10"; "9"; "walk"; "07"]%string)
  = ["9"; "10"; "walk"; "07"]%string /\
  (forall (lower : CaseMapping) (viewport : Viewport.t),
      ascii_folding lower ->
      exists sprites,
        parseSpriteData_json viewport (Some ["__proto__"; "run"]%string)
          {| frames := ArrayForm [with_filename "run_1" (plain_frame 4 2)]; meta := no_meta |} =
        Ok {| spriteData_frames := Inheriting [] sprites;
              spriteData_meta := no_meta;
              aspect := calculateAspectRatio viewport 4 2 aspectFactor |} /\
        sprites !! "run"%string =
          Some (bucket_of [grouped (with_filename "run_1" (plain_frame 4 2))])).
Proof.
  split; [|split; [|split; [|split; [|split]]]].
  - intros lower viewport json first others Hflat.
    unfold parseSpriteData_json, parseFrames. cbn [bind].
    unfold scaled_array, calculateScaleRatio. rewrite Hflat. reflexivity.
  - intros lower viewport m l names key rest first others Hplain Hkeys Hfirst.
    destruct (parseSpriteData_json_names viewport {| frames := ArrayForm l; meta := m |}
                (fun d => map grouped (List.filter (named_by d) l)) names)
      as [[Hthrow _]|(parsed & Hparse & Hsprites & Hrun)].
    + intros d. simpl. now rewrite scan_array_spec.
    + destruct (parseFrames_grouped {| frames := ArrayForm l; meta := m |}
                  (fun d => map grouped (List.filter (named_by d) l)) names)
        as (sprites & Hparse & _); [|exact Hplain|congruence].
      intros d. simpl. now rewrite scan_array_spec.
    + destruct (Hsprites Hplain) as [sprites ->].
      exists sprites. split; [exact Hparse|].
      now rewrite Hrun, Hkeys, Hfirst.
  - intros lower viewport m l names key rest first others Hplain Hkeys Hfirst.
    destruct (parseSpriteData_json_names viewport {| frames := hash_of l; meta := m |}
                (fun d => map (fun kv => grouped (snd kv)) (List.filter (keyed_by d) l)) names)
      as [[Hthrow _]|(parsed & Hparse & Hsprites & Hrun)].
    + intros d. simpl. apply scan_hash_spec.
    + destruct (parseFrames_grouped {| frames := hash_of l; meta := m |}
                  (fun d => map (fun kv => grouped (snd kv)) (List.filter (keyed_by d) l))
                  names)
        as (sprites & Hparse & _); [|exact Hplain|congruence].
      intros d. simpl. apply scan_hash_spec.
    + destruct (Hsprites Hplain) as [sprites ->].
      exists sprites. split; [exact Hparse|].
      now rewrite Hrun, Hkeys, Hfirst.
  - intros name names Hplain Hname.
    destruct (created_keys_head name names Hname) as [tail Htail].
    exists tail. rewrite Object_keys_plain; [exact Htail|].
    intros k Hk. apply Hplain. now apply created_keys_in.
  - vm_compute. reflexivity.
  - intros lower viewport Hfold.
    assert (Hsame : @parseSpriteData_json lower viewport (Some ["__proto__"; "run"]%string)
                      {| frames := ArrayForm [with_filename "run_1" (plain_frame 4 2)];
                         meta := no_meta |} =
                    @parseSpriteData_json ascii_mapping viewport
                      (Some ["__proto__"; "run"]%string)
                      {| frames := ArrayForm [with_filename "run_1" (plain_frame 4 2)];
                         meta := no_meta |}).
    { unfold parseSpriteData_json, parseFrames. cbn [frames group_all scan scan_array
        with_filename filename].
      now rewrite !(matches_name_ascii _ _ Hfold) by reflexivity. }
    rewrite Hsame. eexists. split; [reflexivity|]. reflexivity.
Qed.

Lemma manifest_aspect_from_first_frame_witness :
  (parseSpriteData_json (Viewport.mk 1 10 10) None
     {| frames := ArrayForm [plain_frame 4 2; plain_frame 2 2]; meta := no_meta |} =
   Ok {| spriteData_frames :=
           Flat (processFrameArray
                   (flatten (frames {| frames := ArrayForm [plain_frame 4 2; plain_frame 2 2];
                                       meta := no_meta |})));
         spriteData_meta := meta {| frames := ArrayForm [plain_frame 4 2; plain_frame 2 2];
                                    meta := no_meta |};
         aspect := calculateAspectRatio (Viewport.mk 1 10 10)
                     (Size.w (sourceSize (plain_frame 4 2)))
                     (Size.h (sourceSize (plain_frame 4 2))) aspectFactor |}) /\
  (exists sprites,
      parseFrames
        (Some {| frames := ArrayForm [with_filename "jump_1" (plain_frame 2 2);
                                      with_filename "run_1" (plain_frame 4 2)];
                 meta := no_meta |})
        (Some ["run"; "jump"]%string)
      = Ok (Some (Sprites sprites)) /\
      parseSpriteData_json (Viewport.mk 1 10 10) (Some ["run"; "jump"]%string)
        {| frames := ArrayForm [with_filename "jump_1" (plain_frame 2 2);
                                with_filename "run_1" (plain_frame 4 2)];
           meta := no_meta |} =
      Ok {| spriteData_frames := Sprites sprites;
            spriteData_meta := no_meta;
            aspect := calculateAspectRatio (Viewport.mk 1 10 10)
                        (Size.w (sourceSize (with_filename "run_1" (plain_frame 4 2))))
                        (Size.h (sourceSize (with_filename "run_1" (plain_frame 4 2))))
                        aspectFactor |}).
Proof.
  split.
  - apply (proj1 manifest_aspect_from_first_frame ascii_mapping (Viewport.mk 1 10 10)
             {| frames := ArrayForm [plain_frame 4 2; plain_frame 2 2]; meta := no_meta |}
             (plain_frame 4 2) [plain_frame 2 2]).
    reflexivity.
  - apply (proj1 (proj2 manifest_aspect_from_first_frame) ascii_mapping (Viewport.mk 1 10 10)
             no_meta
             [with_filename "jump_1" (plain_frame 2 2); with_filename "run_1" (plain_frame 4 2)]
             ["run"; "jump"]%string "run"%string ["jump"%string]
             (with_filename "run_1" (plain_frame 4 2)) []).
    + intros [H|[H|[]]]; discriminate.
    + reflexivity.
    + reflexivity.
Defined.

(** ** calculateAspectRatio *)

Lemma calculateAspectRatio_eq (viewport : Viewport.t) (width height factor : float) :
  calculateAspectRatio viewport width height factor =
  if (1 <? scaleX viewport width height factor)%float
  then Vector3.mk 1 (scaleY viewport width height factor / scaleX viewport width height factor
                     * 1) 1
  else Vector3.mk (Math_min 1 (scaleX viewport width height factor))
         (Math_min 1 (scaleY viewport width height factor)) 1.
Proof. reflexivity. Qed.

Lemma Math_min_one_le (s : float) : number s -> (Math_min 1 s <=? 1)%float = true.
Proof.
  intros Hs. unfold Math_min, is_nan. unfold number in Hs. rewrite Hs. cbn [negb orb].
  change (negb (1 =? 1)%float) with false. cbn [orb].
  destruct (1 <? s)%float eqn:H1; [reflexivity|].
  destruct (s <? 1)%float eqn:H2.
  - apply (leb_rank s 1 Hs eq_refl). apply (ltb_rank s 1 Hs eq_refl) in H2. lia.
  - change (get_sign 1) with false. cbn iota.
    apply (leb_rank s 1 Hs eq_refl).
    destruct (Z_le_gt_dec (num_rank s) (num_rank 1)) as [|Hgt]; auto.
    assert ((1 <? s)%float = true) by (apply (ltb_rank 1 s eq_refl Hs); lia).
    congruence.
Qed.

Lemma Math_min_one_above (s : float) : (1 <? s)%float = true -> Math_min 1 s = 1%float.
Proof.
  intros H1. unfold Math_min, is_nan.
  assert (Hs : (s =? s)%float = true).
  { apply nonneg_number. apply (ltb_nonneg 1); [reflexivity|exact H1]. }
  rewrite Hs. change (negb (1 =? 1)%float) with false. cbn [negb orb].
  now rewrite H1.
Qed.

Lemma Math_min_nan (s : float) : (s =? s)%float = false -> Math_min 1 s = nan.
Proof.
  intros Hs. unfold Math_min, is_nan. rewrite Hs. cbn [negb].
  now rewrite orb_true_r.
Qed.

(** X17: the aspect vector has [z = 1] and [x = Math.min(1, scaleX)] on
    both paths, so [x] is at most 1 unless it is NaN; [y] is
    [Math.min(1, scaleY)], at most 1 or NaN, unless [scaleX] exceeds 1, where
    it is [scaleY / scaleX * 1]. *)
Theorem aspect_is_clamped :
  forall (viewport : Viewport.t) (width height factor : float),
    Vector3.z (calculateAspectRatio viewport width height factor) = 1%float /\
    Vector3.x (calculateAspectRatio viewport width height factor) =
      Math_min 1 (scaleX viewport width height factor) /\
    ((scaleX viewport width height factor =? scaleX viewport width height factor)%float = true ->
     (Vector3.x (calculateAspectRatio viewport width height factor) <=? 1)%float = true) /\
    ((scaleX viewport width height factor =? scaleX viewport width height factor)%float = false ->
     Vector3.x (calculateAspectRatio viewport width height factor) = nan) /\
    ((1 <? scaleX viewport width height factor)%float = false ->
     Vector3.y (calculateAspectRatio viewport width height factor) =
       Math_min 1 (scaleY viewport width height factor)) /\
    ((1 <? scaleX viewport width height factor)%float = false ->
     (scaleY viewport width height factor =? scaleY viewport width height factor)%float = true ->
     (Vector3.y (calculateAspectRatio viewport width height factor) <=? 1)%float = true) /\
    ((1 <? scaleX viewport width height factor)%float = true ->
     Vector3.y (calculateAspectRatio viewport width height factor) =
       (scaleY viewport width height factor / scaleX viewport width height factor * 1)%float).
Proof.
  intros viewport width height factor.
  rewrite calculateAspectRatio_eq.
  destruct (1 <? scaleX viewport width height factor)%float eqn:H1;
    cbn [Vector3.x Vector3.y Vector3.z].
  - split; [reflexivity|]. split; [now rewrite Math_min_one_above|].
    split; [reflexivity|]. split.
    + intros Hn. exfalso.
      assert ((scaleX viewport width height factor =? scaleX viewport width height factor)%float
              = true)
        by (apply nonneg_number; apply (ltb_nonneg 1); [reflexivity|exact H1]).
      congruence.
    + split; [discriminate|]. split; [discriminate|reflexivity].
  - split; [reflexivity|]. split; [reflexivity|].
    split; [apply Math_min_one_le|]. split; [apply Math_min_nan|].
    split; [reflexivity|]. split; [intros _; apply Math_min_one_le|discriminate].
Qed.

Lemma aspect_is_clamped_witness :
  (Vector3.x (calculateAspectRatio (Viewport.mk 1 10 10) 4 2 aspectFactor) <=? 1)%float = true.
Proof.
  apply (proj1 (proj2 (proj2 (aspect_is_clamped (Viewport.mk 1 10 10) 4 2 aspectFactor)))).
  reflexivity.
Defined.

(** A finite number above 1, divided by itself, is 1. *)
Lemma div_self (x : float) :
  (1 <? x)%float = true -> (x =? infinity)%float = false -> (x / x)%float = 1%float.
Proof.
  intros H1 Hfin. apply Prim2SF_inj.
  pose proof (Prim2SF_valid (x / x)) as Hvalid.
  rewrite FloatAxioms.div_spec in *. unfold SF64div in *.
  rewrite FloatAxioms.ltb_spec in H1. rewrite FloatAxioms.eqb_spec in Hfin.
  pose proof (Prim2SF_valid x) as Hvx.
  change (Prim2SF 1) with SF_one in *. change (Prim2SF infinity) with (S754_infinity false) in *.
  unfold SFltb, SFeqb in *.
  destruct (Prim2SF x) as [[|]|[|]| |[|] m e]; cbn [SFcompare SF_one] in H1, Hfin;
    try discriminate.
  destruct (SFdiv_finite m m e e) as (q & eq & l & Hdiv & Hq & Hloc & Hfine).
  rewrite Hdiv in *.
  assert (Hone : (F2R (Z.pos m) e / F2R (Z.pos m) e)%R = IZR 1).
  { pose proof (F2R_pos (Z.pos m) e ltac:(lia)). now field_simplify; [|lra]. }
  rewrite Hone in Hloc.
  destruct (round_integer q eq 1 l Hq Hloc Hfine ltac:(lia)) as (m' & e' & Hr & Hval & _).
  rewrite Hr in *.
  apply (represents_inj _ _ 1).
  - exact Hvalid.
  - reflexivity.
  - exact Hval.
  - change (F2R (2 ^ 52) (-52) = IZR 1). apply F2R_one.
Qed.

(** X18: a square frame is scaled by the same amount on both axes, unless
    its scale overflows to +∞. *)
Theorem square_frames_scale_evenly :
  forall (viewport : Viewport.t) (side factor : float),
    (scaleX viewport side side factor =? infinity)%float = false ->
    Vector3.x (calculateAspectRatio viewport side side factor) =
    Vector3.y (calculateAspectRatio viewport side side factor).
Proof.
  intros viewport side factor Hfin. rewrite calculateAspectRatio_eq.
  change (scaleY viewport side side factor) with (scaleX viewport side side factor).
  destruct (1 <? scaleX viewport side side factor)%float eqn:H1;
    cbn [Vector3.x Vector3.y]; [|reflexivity].
  rewrite (div_self _ H1 Hfin). reflexivity.
Qed.

Lemma square_frames_scale_evenly_witness :
  Vector3.x (calculateAspectRatio (Viewport.mk 2 40 20) 64 64 aspectFactor) =
  Vector3.y (calculateAspectRatio (Viewport.mk 2 40 20) 64 64 aspectFactor).
Proof.
  apply (square_frames_scale_evenly (Viewport.mk 2 40 20) 64 aspectFactor). reflexivity.
Defined.

(** ** Loading *)

(** X19: the layout effect of a render with [json] and [input] fetches the
    manifest from [json] and loads the texture from [input], although the ref
    it calls names its parameters the other way round; without [input] it
    loads nothing. With [input] alone it calls the [loadStandaloneSprite] the
    first render put in the ref, which loads the [input] of that render: in
    the first render this is the texture of [input] and nothing is thrown; in
    a later render it is still the texture of the first [input], and when
    there was none the call throws. No request is made for an empty URL. *)
Theorem layout_effect_requests :
  (forall (first_input input json : option string),
      layoutEffect first_input input json =
      match input, json with
      | Some (String c i), Some (String d j) =>
          Some (inr [FetchJson (String d j); LoadTexture (String c i)])
      | Some (String c i), _ =>
          Some (match first_input with
                | Some (String c0 i0) => inr [LoadTexture (String c0 i0)]
                | _ => inl MissingUrl
                end)
      | _, _ => None
      end) /\
  (forall (input json : option string),
      layoutEffect input input json =
      match input, json with
      | Some (String c i), Some (String d j) =>
          Some (inr [FetchJson (String d j); LoadTexture (String c i)])
      | Some (String c i), _ => Some (inr [LoadTexture (String c i)])
      | _, _ => None
      end) /\
  (forall (input json : option string) (e : LoadError),
      layoutEffect input input json <> Some (inl e)) /\
  (forall (first_input input json : option string),
      nonempty first_input = false -> nonempty input = true -> nonempty json = false ->
      layoutEffect first_input input json = Some (inl MissingUrl)) /\
  (forall (first_input input json : option string) (requests : list Request),
      layoutEffect first_input input json = Some (inr requests) ->
      forall r, In r requests ->
                r <> FetchJson EmptyString /\ r <> LoadTexture EmptyString).
Proof.
  assert (Hshape : forall (first_input input json : option string),
             layoutEffect first_input input json =
             match input, json with
             | Some (String c i), Some (String d j) =>
                 Some (inr [FetchJson (String d j); LoadTexture (String c i)])
             | Some (String c i), _ =>
                 Some (match first_input with
                       | Some (String c0 i0) => inr [LoadTexture (String c0 i0)]
                       | _ => inl MissingUrl
                       end)
             | _, _ => None
             end).
  { intros [[|c0 i0]|] [[|c i]|] [[|d j]|]; reflexivity. }
  split; [exact Hshape|]. split; [|split; [|split]].
  - intros input json. rewrite Hshape.
    destruct input as [[|c i]|], json as [[|d j]|]; reflexivity.
  - intros input json e. rewrite Hshape.
    destruct input as [[|c i]|], json as [[|d j]|]; discriminate.
  - intros first_input input json Hfirst Hinput Hjson. rewrite Hshape.
    destruct first_input as [[|c0 i0]|], input as [[|c i]|], json as [[|d j]|];
      try discriminate; reflexivity.
  - intros first_input input json requests. rewrite Hshape.
    destruct first_input as [[|c0 i0]|], input as [[|c i]|], json as [[|d j]|];
      try discriminate;
      intros [= <-] r Hin; simpl in Hin; intuition (subst; discriminate).
Qed.

Lemma layout_effect_requests_witness :
  layoutEffect None (Some "sheet.png"%string) None = Some (inl MissingUrl) /\
  layoutEffect (Some "old.png"%string) (Some "sheet.png"%string) None =
    Some (inr [LoadTexture "old.png"]) /\
  LoadTexture "old.png" <> FetchJson EmptyString /\
  LoadTexture "old.png" <> LoadTexture EmptyString.
Proof.
  split; [|split].
  - apply (proj1 (proj2 (proj2 (proj2 layout_effect_requests))) None
             (Some "sheet.png"%string) None); reflexivity.
  - reflexivity.
  - apply (proj2 (proj2 (proj2 (proj2 layout_effect_requests))) (Some "old.png"%string)
             (Some "sheet.png"%string) None [LoadTexture "old.png"]).
    + reflexivity.
    + now left.
Defined.

(** X20: [loadJsonAndTexture] fetches the manifest and loads the texture
    when both URLs are given, and loads the texture alone when the manifest
    URL is missing or empty. An empty texture URL throws even when [input]
    holds a URL, since [??] falls back on undefined only; an absent one falls
    back on [input]. No request is made for an empty URL. *)
Theorem loadJsonAndTexture_outcomes :
  (forall (input : option string) (c : ascii) (textureUrl : string) (d : ascii)
          (jsonUrl : string),
      loadJsonAndTexture input (String c textureUrl) (Some (String d jsonUrl)) =
      inr [FetchJson (String d jsonUrl); LoadTexture (String c textureUrl)]) /\
  (forall (input : option string) (c : ascii) (textureUrl : string) (jsonUrl : option string),
      nonempty jsonUrl = false ->
      loadJsonAndTexture input (String c textureUrl) jsonUrl =
      inr [LoadTexture (String c textureUrl)]) /\
  (forall (input jsonUrl : option string),
      loadJsonAndTexture input EmptyString jsonUrl =
      if nonempty input then inl InvalidUrl else inl MissingUrl) /\
  (forall (input : option string),
      loadStandaloneSprite input None =
      match input with
      | Some (String c url) => inr [LoadTexture (String c url)]
      | _ => inl MissingUrl
      end) /\
  (forall (input : option string) (textureUrl : string) (jsonUrl : option string)
          (requests : list Request),
      loadJsonAndTexture input textureUrl jsonUrl = inr requests ->
      forall r, In r requests ->
                r <> FetchJson EmptyString /\ r <> LoadTexture EmptyString).
Proof.
  split; [|split; [|split; [|split]]].
  - reflexivity.
  - intros input c textureUrl jsonUrl Hjson. unfold loadJsonAndTexture. rewrite Hjson.
    reflexivity.
  - intros input jsonUrl. unfold loadJsonAndTexture, loadStandaloneSprite.
    rewrite andb_false_r. cbn [nonempty negb andb].
    now destruct (nonempty input).
  - intros [[|c url]|]; reflexivity.
  - intros input textureUrl jsonUrl requests.
    unfold loadJsonAndTexture, loadStandaloneSprite, loadJsonAndTextureAndExecuteCallback.
    destruct textureUrl as [|c textureUrl].
    + rewrite andb_false_r. cbn [nonempty negb andb]. destruct (nonempty input); discriminate.
    + destruct jsonUrl as [[|d jsonUrl]|]; cbn [nonempty negb andb default from_option id];
        intros [= <-] r Hin; simpl in Hin; intuition (subst; discriminate).
Qed.

Lemma loadJsonAndTexture_outcomes_witness :
  loadJsonAndTexture None "sheet.png" (Some EmptyString) = inr [LoadTexture "sheet.png"].
Proof.
  apply (proj1 (proj2 loadJsonAndTexture_outcomes) None "s"%char "heet.png"%string
           (Some EmptyString)).
  reflexivity.
Defined.

(** ** Rounding errors *)

(** Rounding a number of the normal range moves it by less than one part in
    2^52. *)
Lemma round_close (m e : Z) (l : location) (x : R) :
  0 <= m -> located m e l x -> e <= fexp prec emax (Zdigits2 m + e) ->
  (bpow (-1021) <= x <= bpow 1000)%R ->
  exists m' e',
    binary_round_aux prec emax false m e l = S754_finite false m' e' /\
    (x * (1 - bpow (-52)) <= F2R (Z.pos m') e' <= x * (1 + bpow (-52)))%R.
Proof.
  intros Hm Hloc Hfine [Hlo Hhi].
  destruct (binary_round_aux_spec m e l x Hm Hloc Hfine)
    as (m1 & l1 & E & Hm1 & Hloc1 & Hcanon & ->).
  pose proof (canon_mantissa _ _ _ _ Hm1 Hloc1 Hcanon) as [Hlt Hnorm].
  destruct Hcanon as (HE & Hx & Hx').
  assert (HE1 : -1074 < E).
  { destruct (Z_lt_le_dec (-1074) E) as [|Hle]; auto. exfalso.
    pose proof (bpow_le (E + 53) (-1021) ltac:(lia)). lra. }
  assert (HE2 : E < 960).
  { destruct (Z_lt_le_dec E 960) as [|Hge]; auto. exfalso.
    specialize (Hx' HE1). pose proof (bpow_lt 1000 (E + 52) ltac:(lia)). lra. }
  specialize (Hx' HE1). specialize (Hnorm HE1).
  pose proof (round_nearest_even_bounds m1 l1) as HM.
  pose proof (located_bounds _ _ _ _ Hloc1) as [Hb1 Hb2].
  pose proof (bpow_gt_0 E) as HB.
  assert (Hulp : (bpow E <= x * bpow (-52))%R).
  { replace E with ((E + 52) + (-52)) at 1 by lia. rewrite bpow_plus.
    pose proof (bpow_gt_0 (-52)). nra. }
  set (M := round_nearest_even m1 l1) in *.
  assert (Hval : (x - bpow E <= F2R M E <= x + bpow E)%R).
  { rewrite F2R_succ in Hb2. unfold F2R in *.
    assert (IZR m1 <= IZR M <= IZR m1 + 1)%R.
    { split; [apply IZR_le; lia|]. rewrite <- plus_IZR. apply IZR_le. lia. }
    nra. }
  unfold rnd_result.
  change (2 ^ 53) with 9007199254740992 in *. change (2 ^ 52) with 4503599627370496 in *.
  destruct (M =? 9007199254740992) eqn:Hmax.
  - apply Z.eqb_eq in Hmax.
    destruct (E + 1 <=? 971) eqn:Hle; [|apply Z.leb_gt in Hle; lia].
    exists (2 ^ 52)%positive, (E + 1). split; [reflexivity|].
    assert (Heq : F2R (Z.pos (2 ^ 52)) (E + 1) = F2R M E).
    { rewrite Hmax. unfold F2R. rewrite bpow_succ.
      change (Z.pos (2 ^ 52)) with 4503599627370496.
      replace (IZR 9007199254740992) with (2 * IZR 4503599627370496)%R
        by (rewrite <- mult_IZR; reflexivity).
      lra. }
    rewrite Heq. lra.
  - apply Z.eqb_neq in Hmax. destruct M as [|p|p] eqn:HMp; try lia.
    destruct (E <=? 971) eqn:Hle; [|apply Z.leb_gt in Hle; lia].
    exists p, E. split; [reflexivity|]. lra.
Qed.

Lemma holds_inj (v : R) (x y : float) : holds v x -> holds v y -> x = y.
Proof.
  intros (m & e & Hx & Hv) (m' & e' & Hy & Hv').
  apply Prim2SF_inj. rewrite Hx, Hy.
  pose proof (Prim2SF_valid x) as Vx. pose proof (Prim2SF_valid y) as Vy.
  rewrite Hx in Vx. rewrite Hy in Vy.
  assert (Hle : rank (S754_finite false m e) <= rank (S754_finite false m' e')).
  { destruct (Z_le_gt_dec (rank (S754_finite false m e)) (rank (S754_finite false m' e')))
      as [|Hgt]; auto.
    exfalso. apply Z.gt_lt in Hgt. apply (rank_lt_F2R _ _ _ _ Vy Vx) in Hgt. lra. }
  assert (Hge : rank (S754_finite false m' e') <= rank (S754_finite false m e)).
  { destruct (Z_le_gt_dec (rank (S754_finite false m' e')) (rank (S754_finite false m e)))
      as [|Hgt]; auto.
    exfalso. apply Z.gt_lt in Hgt. apply (rank_lt_F2R _ _ _ _ Vx Vy) in Hgt. lra. }
  apply valid_finite in Vx as (_ & Hm & _). apply valid_finite in Vy as (_ & Hm' & _).
  cbn [rank] in Hle, Hge.
  change (2 ^ 54) with 18014398509481984 in *. change (2 ^ 53) with 9007199254740992 in *.
  assert (e = e') by lia. subst e'. assert (Z.pos m = Z.pos m') by lia. congruence.
Qed.

Lemma integer_spec (z : Z) :
  0 <= z <= 2 ^ 53 -> Prim2SF (integer z) = binary_normalize prec emax z 0 false.
Proof.
  intros Hz. unfold integer. rewrite FloatAxioms.of_uint63_spec, Uint63.of_Z_spec.
  now rewrite Z.mod_small by (change Uint63.wB with (2 ^ 63); lia).
Qed.

Lemma integer_holds (z : Z) : 1 <= z <= 2 ^ 53 -> holds (IZR z) (integer z).
Proof.
  intros Hz. unfold holds. rewrite integer_spec by lia.
  destruct z as [|p|p]; [lia| |lia]. cbn [binary_normalize].
  destruct (binary_round_spec p 0) as (mz & ez & -> & Hmz & Hloc & Hfine).
  assert (HF : F2R (Z.pos p) 0 = IZR (Z.pos p)).
  { unfold F2R. rewrite bpow_0. lra. }
  rewrite HF in Hloc.
  destruct (round_integer mz ez (Z.pos p) loc_Exact Hmz Hloc Hfine Hz)
    as (m' & e' & -> & Hval & _).
  now exists m', e'.
Qed.

Lemma integer_normalize (z : Z) :
  0 <= z <= 2 ^ 53 -> SF2Prim (binary_normalize prec emax z 0 false) = integer z.
Proof.
  intros Hz. rewrite <- integer_spec by exact Hz. apply SF2Prim_Prim2SF.
Qed.

Lemma counter_integer (k : nat) : Z.of_nat k <= 2 ^ 53 -> counter k = integer (Z.of_nat k).
Proof. apply counter_of_uint63. Qed.

(** Division, multiplication and square root of positive numbers, up to
    rounding. *)
Lemma div_close (a b : float) (va vb : R) :
  holds va a -> holds vb b ->
  (bpow (-1021) <= va / vb <= bpow 1000)%R ->
  exists v, holds v (a / b) /\
            (va / vb * (1 - bpow (-52)) <= v <= va / vb * (1 + bpow (-52)))%R.
Proof.
  intros (ma & ea & Ha & <-) (mb & eb & Hb & <-) Hrange.
  unfold holds. rewrite FloatAxioms.div_spec, Ha, Hb. unfold SF64div.
  destruct (SFdiv_finite ma mb ea eb) as (q & e & l & -> & Hq & Hloc & Hfine).
  destruct (round_close q e l _ Hq Hloc Hfine Hrange) as (m' & e' & -> & Hv).
  exists (F2R (Z.pos m') e'). split; [now exists m', e'|exact Hv].
Qed.

Lemma div_exact (a b : float) (va vb : R) (n : Z) :
  holds va a -> holds vb b -> (va / vb)%R = IZR n -> 1 <= n <= 2 ^ 53 ->
  (a / b)%float = integer n.
Proof.
  intros (ma & ea & Ha & <-) (mb & eb & Hb & <-) Hn Hrange.
  apply (holds_inj (IZR n)); [|now apply integer_holds].
  unfold holds. rewrite FloatAxioms.div_spec, Ha, Hb. unfold SF64div.
  destruct (SFdiv_finite ma mb ea eb) as (q & e & l & -> & Hq & Hloc & Hfine).
  rewrite Hn in Hloc.
  destruct (round_integer q e n l Hq Hloc Hfine Hrange) as (m' & e' & -> & Hv & _).
  now exists m', e'.
Qed.

Lemma sqrt_close (a : float) (va : R) :
  holds va a ->
  (bpow (-1021) <= sqrt va <= bpow 1000)%R ->
  exists v, holds v (PrimFloat.sqrt a) /\
            (sqrt va * (1 - bpow (-52)) <= v <= sqrt va * (1 + bpow (-52)))%R.
Proof.
  intros (ma & ea & Ha & <-) Hrange.
  unfold holds. rewrite FloatAxioms.sqrt_spec, Ha. unfold SF64sqrt.
  destruct (SFsqrt_finite ma ea) as (q & e & l & -> & Hq & Hloc & Hfine).
  destruct (round_close q e l _ Hq Hloc Hfine Hrange) as (m' & e' & -> & Hv).
  exists (F2R (Z.pos m') e'). split; [now exists m', e'|exact Hv].
Qed.

Lemma holds_normal (v : R) (x : float) (m : positive) (e : Z) :
  Prim2SF x = S754_finite false m e -> F2R (Z.pos m) e = v -> (bpow (-1021) <= v)%R ->
  (bpow (e + 52) <= v < bpow (e + 53))%R.
Proof.
  intros Hx Hv Hlo. pose proof (Prim2SF_valid x) as Vx. rewrite Hx in Vx.
  apply valid_finite in Vx as (_ & _ & HE & Hhi & Hnorm). rewrite Hv in *.
  split; [|exact Hhi]. apply Hnorm.
  destruct (Z_lt_le_dec (-1074) e) as [|Hle]; auto. exfalso.
  pose proof (bpow_le (e + 53) (-1021) ltac:(lia)). lra.
Qed.

Lemma mul_close (a b : float) (va vb : R) :
  holds va a -> holds vb b ->
  (bpow (-1021) <= va)%R -> (bpow (-1021) <= vb)%R ->
  (bpow (-1021) <= va * vb <= bpow 1000)%R ->
  exists v, holds v (a * b) /\
            (va * vb * (1 - bpow (-52)) <= v <= va * vb * (1 + bpow (-52)))%R.
Proof.
  intros (ma & ea & Ha & Hva) (mb & eb & Hb & Hvb) Hla Hlb Hrange.
  pose proof (holds_normal _ _ _ _ Ha Hva Hla) as [Ha1 Ha2].
  pose proof (holds_normal _ _ _ _ Hb Hvb Hlb) as [Hb1 Hb2].
  unfold holds. rewrite FloatAxioms.mul_spec, Ha, Hb. unfold SF64mul.
  cbn [SFmul xorb].
  assert (Hloc : located (Z.pos (ma * mb)) (ea + eb) loc_Exact (va * vb)).
  { cbn [located]. rewrite <- Hva, <- Hvb. unfold F2R.
    rewrite Pos2Z.inj_mul, mult_IZR, bpow_plus. lra. }
  assert (Hfine : ea + eb <= fexp prec emax (Zdigits2 (Z.pos (ma * mb)) + (ea + eb))).
  { apply (fine_of_lower_bound (Z.pos (ma * mb)) (ea + eb) (ea + eb + 105) loc_Exact (va * vb));
      [lia|exact Hloc| |rewrite fexp_eq; lia].
    replace (ea + eb + 105 - 1) with ((ea + 52) + (eb + 52)) by lia.
    rewrite bpow_plus.
    pose proof (bpow_gt_0 (ea + 52)). pose proof (bpow_gt_0 (eb + 52)). nra. }
  destruct (round_close (Z.pos (ma * mb)) (ea + eb) loc_Exact (va * vb)
              (Pos2Z.is_nonneg _) Hloc Hfine Hrange) as (m' & e' & -> & Hv).
  exists (F2R (Z.pos m') e'). split; [now exists m', e'|exact Hv].
Qed.

(** [Math.round] of a positive number within a half of the integer [c]. *)
Lemma Math_round_near (x : float) (v : R) (c : Z) :
  holds v x -> 1 <= c <= 2 ^ 53 ->
  (IZR c - 1 / 2 <= v < IZR c + 1 / 2)%R ->
  Math_round x = integer c.
Proof.
  intros (m & e & Hx & Hv) Hc [Hlo Hhi]. unfold Math_round. rewrite Hx.
  destruct (0 <=? e) eqn:He.
  - apply Z.leb_le in He.
    assert (Hint : v = IZR (Z.pos m * 2 ^ e)).
    { rewrite <- Hv. unfold F2R. now rewrite mult_IZR, <- bpow_IZR. }
    assert (Hk : Z.pos m * 2 ^ e = c).
    { rewrite Hint in Hlo, Hhi. set (k := Z.pos m * 2 ^ e) in *.
      assert (H1 : (IZR (2 * c - 1) <= IZR (2 * k))%R)
        by (rewrite minus_IZR, !mult_IZR; lra).
      assert (H2 : (IZR (2 * k) < IZR (2 * c + 1))%R)
        by (rewrite plus_IZR, !mult_IZR; lra).
      apply le_IZR in H1. apply lt_IZR in H2. lia. }
    apply (holds_inj (IZR c)); [|now apply integer_holds].
    exists m, e. split; [exact Hx|]. now rewrite Hv, Hint, Hk.
  - apply Z.leb_gt in He. unfold round_half_up. cbn [cond_Zopp].
    set (t := 2 ^ (- e)).
    assert (Ht : 0 < t) by (apply Z.pow_pos_nonneg; lia).
    assert (Ht2 : 2 ^ (- e + 1) = 2 * t) by (unfold t; rewrite Z.pow_add_r by lia; lia).
    assert (Hm : IZR (Z.pos m) = (v * IZR t)%R).
    { rewrite <- Hv. unfold F2R, t. rewrite <- bpow_IZR by lia.
      rewrite Rmult_assoc, <- bpow_plus. replace (e + - e) with 0 by lia.
      rewrite bpow_0. lra. }
    assert (HtR : (0 < IZR t)%R) by now apply IZR_lt.
    assert (H1 : c * (2 * t) <= Z.pos m * 2 + t).
    { apply le_IZR. rewrite plus_IZR, !mult_IZR, Hm. nra. }
    assert (H2 : Z.pos m * 2 + t < (c + 1) * (2 * t)).
    { apply lt_IZR. rewrite plus_IZR, !mult_IZR, plus_IZR, Hm. nra. }
    rewrite Ht2.
    assert (Hn : (Z.pos m * 2 + t) / (2 * t) = c).
    { symmetry. apply (Zdiv_unique _ _ _ (Z.pos m * 2 + t - c * (2 * t))); lia. }
    rewrite Hn.
    destruct (c =? 0) eqn:Hz; [apply Z.eqb_eq in Hz; lia|].
    apply integer_normalize. lia.
Qed.

Lemma Math_round_integer (c : Z) : 1 <= c <= 2 ^ 53 -> Math_round (integer c) = integer c.
Proof.
  intros Hc. apply (Math_round_near _ (IZR c)); [now apply integer_holds|exact Hc|lra].
Qed.

(** ** Sheets of square cells *)

Lemma div_between (a b lo hi : R) :
  (0 < b)%R -> (lo * b <= a <= hi * b)%R -> (lo <= a / b <= hi)%R.
Proof.
  intros Hb [Hlo Hhi].
  assert (Heq : (a / b * b = a)%R) by (field; lra).
  split; apply Rmult_le_reg_r with b; auto; rewrite ?Heq; lra.
Qed.

Lemma IZR_bounds (z k : Z) : 0 <= k -> 1 <= z <= 2 ^ k -> (1 <= IZR z <= bpow k)%R.
Proof.
  intros Hk [Hlo Hhi]. rewrite bpow_IZR by exact Hk. split; apply IZR_le; lia.
Qed.

Lemma within_normal (x : R) : (bpow (-120) <= x <= bpow 120)%R ->
  (bpow (-1021) <= x <= bpow 1000)%R.
Proof.
  intros [Hlo Hhi].
  pose proof (bpow_le (-1021) (-120) ltac:(lia)). pose proof (bpow_le 120 1000 ltac:(lia)).
  lra.
Qed.

Lemma bpow_minus_12 : bpow (-12) = (/ 4096)%R.
Proof. unfold bpow. simpl. lra. Qed.

Section SquareCells.
Variables r c s : Z.
Hypothesis Hr : 1 <= r.
Hypothesis Hc : 1 <= c <= 2 ^ 40.
Hypothesis Hs : 1 <= s.
Hypothesis Hrc : r * c <= 2 ^ 53.
Hypothesis Hcs : c * s <= 2 ^ 53.
Hypothesis Hrs : r * s <= 2 ^ 53.

Local Abbreviation img := ({| width := integer (c * s); height := integer (r * s) |}).
Local Abbreviation totalFrames := (integer (r * c)).

Lemma square_cells_columns : inferred_columns img totalFrames = integer c.
Proof.
  unfold inferred_columns. cbn [width height].
  assert (Hr53 : r <= 2 ^ 53) by nia.
  pose proof (IZR_bounds r 53 ltac:(lia) ltac:(lia)) as [Hr1 Hr2].
  pose proof (IZR_bounds c 40 ltac:(lia) Hc) as [Hc1 Hc2].
  assert (Hs1 : (1 <= IZR s)%R) by (apply IZR_le; lia).
  set (U := bpow (-52)).
  assert (HU : (0 < U)%R) by apply bpow_gt_0.
  assert (HcU : (IZR c * U <= / 4096)%R).
  { rewrite <- bpow_minus_12. replace (-12) with (40 + -52) by lia.
    rewrite bpow_plus. fold U. nra. }
  assert (HU1 : (U <= / 4096)%R) by nra.
  assert (H120 : (bpow (-120) * bpow 120 = 1)%R) by (rewrite <- bpow_plus; reflexivity).
  pose proof (bpow_gt_0 120) as Hp120. pose proof (bpow_gt_0 (-120)) as Hn120.
  pose proof (bpow_le 53 120 ltac:(lia)) as H53.
  pose proof (bpow_ge_1 53 ltac:(lia)) as H53'.
  assert (Hsmall : (bpow (-120) * bpow 53 <= 1)%R) by nra.
  set (rho := (IZR c / IZR r)%R).
  assert (Hrho : (rho * IZR r = IZR c)%R) by (unfold rho; field; lra).
  assert (Hrho_pos : (bpow (-120) * 2 <= rho <= bpow 40)%R).
  { unfold rho. apply div_between; [lra|]. split; [|nra].
    assert (bpow (-120) * bpow 53 * 2 <= 1)%R; [|nra].
    pose proof (bpow_le 54 120 ltac:(lia)) as H54.
    change 54 with (53 + 1) in H54. rewrite (bpow_succ 53) in H54. nra. }
  (* the quotient width / height *)
  destruct (div_close (integer (c * s)) (integer (r * s)) (IZR (c * s)) (IZR (r * s)))
    as (vq & Hq & Hvq).
  { apply integer_holds. nia. }
  { apply integer_holds. nia. }
  { apply within_normal. rewrite !mult_IZR.
    replace (IZR c * IZR s / (IZR r * IZR s))%R with rho by (unfold rho; field; lra).
    pose proof (bpow_le 40 120 ltac:(lia)). lra. }
  rewrite !mult_IZR in Hvq.
  replace (IZR c * IZR s / (IZR r * IZR s))%R with rho in Hvq by (unfold rho; field; lra).
  fold U in Hvq.
  (* the product under the square root *)
  assert (Hcc : (IZR (r * c) * rho = IZR c * IZR c)%R).
  { rewrite mult_IZR. unfold rho. field. lra. }
  destruct (mul_close (integer (r * c)) (integer (c * s) / integer (r * s))
              (IZR (r * c)) vq) as (vp & Hp & Hvp).
  { apply integer_holds. nia. }
  { exact Hq. }
  { pose proof (bpow_le (-1021) 0 ltac:(lia)). rewrite bpow_0 in H.
    rewrite mult_IZR. nra. }
  { pose proof (bpow_le (-1021) (-120) ltac:(lia)). nra. }
  { apply within_normal.
    assert (IZR c * IZR c * (1 - U) <= IZR (r * c) * vq <= IZR c * IZR c * (1 + U))%R.
    { rewrite <- Hcc. rewrite mult_IZR in *. split; nra. }
    pose proof (bpow_plus 40 40). change (40 + 40) with 80 in H0.
    pose proof (bpow_le 81 120 ltac:(lia)) as H81.
    change 81 with (80 + 1) in H81. rewrite (bpow_succ 80) in H81.
    split; nra. }
  fold U in Hvp.
  assert (Hvp' : (IZR c * (1 - U) * (IZR c * (1 - U)) <= vp
                  <= IZR c * (1 + U) * (IZR c * (1 + U)))%R).
  { assert (IZR c * IZR c * (1 - U) <= IZR (r * c) * vq <= IZR c * IZR c * (1 + U))%R.
    { rewrite <- Hcc. rewrite mult_IZR in *. split; nra. }
    split; nra. }
  (* the square root *)
  assert (Hsqrt : (IZR c * (1 - U) <= sqrt vp <= IZR c * (1 + U))%R).
  { split.
    - rewrite <- (sqrt_square (IZR c * (1 - U))) by nra.
      apply sqrt_le_1_alt. apply Hvp'.
    - rewrite <- (sqrt_square (IZR c * (1 + U))) by nra.
      apply sqrt_le_1_alt. apply Hvp'. }
  destruct (sqrt_close _ vp Hp) as (vs & Hsq & Hvs).
  { apply within_normal. pose proof (bpow_le 41 120 ltac:(lia)) as H41.
    change 41 with (40 + 1) in H41. rewrite (bpow_succ 40) in H41. split; nra. }
  fold U in Hvs.
  apply (Math_round_near _ vs c Hsq); [lia|].
  split; nra.
Qed.

Lemma square_cells_rows : inferred_rows img totalFrames = integer r.
Proof.
  unfold inferred_rows. rewrite square_cells_columns.
  assert (Hr53 : r <= 2 ^ 53) by nia.
  rewrite (div_exact (integer (r * c)) (integer c) (IZR (r * c)) (IZR c) r).
  - apply Math_round_integer. lia.
  - apply integer_holds. nia.
  - apply integer_holds. lia.
  - rewrite mult_IZR. field. apply eq_IZR_contrapositive. lia.
  - lia.
Qed.

Lemma square_cells_frameWidth : (width img / integer c)%float = integer s.
Proof.
  cbn [width].
  assert (Hs53 : s <= 2 ^ 53) by nia.
  apply (div_exact _ _ (IZR (c * s)) (IZR c) s).
  - apply integer_holds. nia.
  - apply integer_holds. lia.
  - rewrite mult_IZR. field. apply eq_IZR_contrapositive. lia.
  - lia.
Qed.

Lemma square_cells_frameHeight : (height img / integer r)%float = integer s.
Proof.
  cbn [height].
  assert (Hs53 : s <= 2 ^ 53) by nia.
  assert (Hr53 : r <= 2 ^ 53) by nia.
  apply (div_exact _ _ (IZR (r * s)) (IZR r) s).
  - apply integer_holds. nia.
  - apply integer_holds. lia.
  - rewrite mult_IZR. field. apply eq_IZR_contrapositive. lia.
  - lia.
Qed.
End SquareCells.

(** ** Integers in binary64 *)

Lemma integer_zero : integer 0 = 0%float.
Proof. apply Prim2SF_inj. rewrite integer_spec by lia. reflexivity. Qed.

Lemma integer_represents (z : Z) : 0 <= z <= 2 ^ 53 -> represents z (Prim2SF (integer z)).
Proof.
  intros Hz. destruct (Z.eq_dec z 0) as [->|Hne].
  - rewrite integer_zero. reflexivity.
  - destruct (integer_holds z ltac:(lia)) as (m & e & -> & Hv). exact Hv.
Qed.

Lemma integer_number (z : Z) : 0 <= z <= 2 ^ 53 -> number (integer z).
Proof.
  intros Hz. unfold number. rewrite FloatAxioms.eqb_spec. unfold SFeqb.
  pose proof (integer_represents z Hz) as Hrep.
  destruct (Prim2SF (integer z)) as [[|]|[|]| |[|] m e]; cbn [represents] in Hrep; try tauto;
    cbn [SFcompare]; rewrite ?Z.compare_refl, ?Pos.compare_cont_refl; reflexivity.
Qed.

Lemma integer_rank_lt (a b : Z) :
  0 <= a -> a < b -> b <= 2 ^ 53 -> num_rank (integer a) < num_rank (integer b).
Proof.
  intros Ha Hab Hb. unfold num_rank.
  apply (represents_rank_lt _ _ a b); try apply Prim2SF_valid; auto.
  - apply integer_represents. lia.
  - apply integer_represents. lia.
Qed.

Lemma integer_leb (a b : Z) :
  0 <= a <= 2 ^ 53 -> 0 <= b <= 2 ^ 53 -> (integer a <=? integer b)%float = (a <=? b).
Proof.
  intros Ha Hb. apply eq_true_iff_eq.
  rewrite (leb_rank _ _ (integer_number a Ha) (integer_number b Hb)), Z.leb_le. split.
  - intros Hle. destruct (Z_le_gt_dec a b) as [|Hgt]; auto.
    pose proof (integer_rank_lt b a ltac:(lia) ltac:(lia) ltac:(lia)). lia.
  - intros Hle. destruct (Z.eq_dec a b) as [->|Hne]; [lia|].
    pose proof (integer_rank_lt a b ltac:(lia) ltac:(lia) ltac:(lia)). lia.
Qed.

Lemma integer_ltb (a b : Z) :
  0 <= a <= 2 ^ 53 -> 0 <= b <= 2 ^ 53 -> (integer a <? integer b)%float = (a <? b).
Proof.
  intros Ha Hb. apply eq_true_iff_eq.
  rewrite (ltb_rank _ _ (integer_number a Ha) (integer_number b Hb)), Z.ltb_lt. split.
  - intros Hlt. destruct (Z_lt_le_dec a b) as [|Hge]; auto.
    destruct (Z.eq_dec a b) as [->|Hne]; [lia|].
    pose proof (integer_rank_lt b a ltac:(lia) ltac:(lia) ltac:(lia)). lia.
  - intros Hlt. apply integer_rank_lt; lia.
Qed.

Lemma mul_exact (a b : Z) :
  0 <= a <= 2 ^ 53 -> 0 <= b <= 2 ^ 53 -> a * b <= 2 ^ 53 ->
  (integer a * integer b)%float = integer (a * b).
Proof.
  intros Ha Hb Hab.
  destruct (Z.eq_dec a 0) as [->|Ha0].
  { rewrite Z.mul_0_l, integer_zero. apply Prim2SF_inj.
    rewrite FloatAxioms.mul_spec. change (Prim2SF 0) with (S754_zero false).
    pose proof (integer_represents b Hb) as Hrep. unfold SF64mul.
    now destruct (Prim2SF (integer b)) as [[|]|[|]| |[|] m e]. }
  destruct (Z.eq_dec b 0) as [->|Hb0].
  { rewrite Z.mul_0_r, integer_zero. apply Prim2SF_inj.
    rewrite FloatAxioms.mul_spec. change (Prim2SF 0) with (S754_zero false).
    pose proof (integer_represents a Ha) as Hrep. unfold SF64mul.
    now destruct (Prim2SF (integer a)) as [[|]|[|]| |[|] m e]. }
  destruct (integer_holds a ltac:(lia)) as (ma & ea & Hxa & Hva).
  destruct (integer_holds b ltac:(lia)) as (mb & eb & Hxb & Hvb).
  apply (holds_inj (IZR (a * b))); [|apply integer_holds; nia].
  assert (H1 : (bpow (-1021) <= 1)%R).
  { pose proof (bpow_le (-1021) 0 ltac:(lia)) as H. now rewrite bpow_0 in H. }
  assert (Ha1 : (1 <= IZR a)%R) by (apply IZR_le; lia).
  assert (Hb1 : (1 <= IZR b)%R) by (apply IZR_le; lia).
  pose proof (holds_normal _ _ _ _ Hxa Hva ltac:(lra)) as [Hna _].
  pose proof (holds_normal _ _ _ _ Hxb Hvb ltac:(lra)) as [Hnb _].
  unfold holds. rewrite FloatAxioms.mul_spec, Hxa, Hxb. unfold SF64mul. cbn [SFmul xorb].
  assert (Hloc : located (Z.pos (ma * mb)) (ea + eb) loc_Exact (IZR (a * b))).
  { cbn [located]. rewrite mult_IZR, <- Hva, <- Hvb. unfold F2R.
    rewrite Pos2Z.inj_mul, mult_IZR, bpow_plus. lra. }
  assert (Hfine : ea + eb <= fexp prec emax (Zdigits2 (Z.pos (ma * mb)) + (ea + eb))).
  { apply (fine_of_lower_bound (Z.pos (ma * mb)) (ea + eb) (ea + eb + 105) loc_Exact
             (IZR (a * b))); [lia|exact Hloc| |rewrite fexp_eq; lia].
    replace (ea + eb + 105 - 1) with ((ea + 52) + (eb + 52)) by lia.
    rewrite bpow_plus, mult_IZR.
    pose proof (bpow_gt_0 (ea + 52)). pose proof (bpow_gt_0 (eb + 52)). nra. }
  destruct (round_integer _ _ (a * b) loc_Exact (Pos2Z.is_nonneg _) Hloc Hfine ltac:(nia))
    as (m' & e' & -> & Hv & _).
  now exists m', e'.
Qed.

Lemma add_exact (a b : Z) :
  0 <= a -> 0 <= b -> a + b <= 2 ^ 53 -> (integer a + integer b)%float = integer (a + b).
Proof.
  intros Ha Hb Hab.
  destruct (Z.eq_dec b 0) as [->|Hb0].
  { rewrite Z.add_0_r, integer_zero. apply Prim2SF_inj.
    rewrite FloatAxioms.add_spec. change (Prim2SF 0) with (S754_zero false).
    pose proof (integer_represents a ltac:(lia)) as Hrep. unfold SF64add.
    now destruct (Prim2SF (integer a)) as [[|]|[|]| |[|] m e]. }
  destruct (Z.eq_dec a 0) as [->|Ha0].
  { rewrite Z.add_0_l, integer_zero. apply Prim2SF_inj.
    rewrite FloatAxioms.add_spec. change (Prim2SF 0) with (S754_zero false).
    pose proof (integer_represents b ltac:(lia)) as Hrep. unfold SF64add.
    now destruct (Prim2SF (integer b)) as [[|]|[|]| |[|] m e]. }
  destruct (integer_holds a ltac:(lia)) as (ma & ea & Hxa & Hva).
  destruct (integer_holds b ltac:(lia)) as (mb & eb & Hxb & Hvb).
  apply (holds_inj (IZR (a + b))); [|apply integer_holds; lia].
  unfold holds. rewrite FloatAxioms.add_spec, Hxa, Hxb. unfold SF64add.
  destruct (SFadd_finite ma mb ea eb) as (mz & ez & -> & Hmz & Hloc & Hfine).
  rewrite Hva, Hvb, <- plus_IZR in Hloc.
  destruct (round_integer mz ez (a + b) loc_Exact Hmz Hloc Hfine ltac:(lia))
    as (m' & e' & -> & Hv & _).
  now exists m', e'.
Qed.

Lemma trips_integer (z : Z) : 0 <= z <= 2 ^ 53 -> trips (integer z) (Z.to_nat z).
Proof.
  intros Hz. split.
  - intros k Hk. rewrite counter_integer by lia.
    rewrite integer_ltb by lia. apply Z.ltb_lt. lia.
  - rewrite counter_integer by lia. rewrite Z2Nat.id by lia.
    rewrite integer_ltb by lia. apply Z.ltb_irrefl.
Qed.

Lemma integer_eqb (a b : Z) :
  0 <= a <= 2 ^ 53 -> 0 <= b <= 2 ^ 53 -> (integer a =? integer b)%float = (a =? b).
Proof.
  intros Ha Hb. apply eq_true_iff_eq.
  rewrite (eqb_rank _ _ (integer_number a Ha) (integer_number b Hb)), Z.eqb_eq. split.
  - intros Heq. destruct (Z.lt_trichotomy a b) as [Hlt|[->|Hlt]]; auto.
    + pose proof (integer_rank_lt a b ltac:(lia) Hlt ltac:(lia)). lia.
    + pose proof (integer_rank_lt b a ltac:(lia) Hlt ltac:(lia)). lia.
  - now intros ->.
Qed.

Section SquareSheet.
Variables r c s : Z.
Variable host : Host.
Hypothesis Hr : 1 <= r.
Hypothesis Hc : 1 <= c <= 2 ^ 40.
Hypothesis Hs : 1 <= s.
Hypothesis Hrc : r * c <= 2 ^ 53.
Hypothesis Hcs : c * s <= 2 ^ 53.
Hypothesis Hrs : r * s <= 2 ^ 53.

Local Abbreviation img := ({| width := integer (c * s); height := integer (r * s) |}).
Local Abbreviation totalFrames := (integer (r * c)).

Hypothesis Hctx : getContext host = true.
Hypothesis Hdraw : drawImage host img = Ok tt.
Hypothesis Hdata :
  forall sx sy sw sh, exists frameData, getImageData host img sx sy sw sh = Ok frameData.

Lemma square_sheet_marks (i j : nat) :
  (i < Z.to_nat r)%nat -> (j < Z.to_nat c)%nat ->
  inferred_marks host img totalFrames (counter i) (counter j) =
  (frameData <- getImageData host img (integer (Z.of_nat j * s)) (integer (Z.of_nat i * s))
                  (integer s) (integer s) ;;
   Ok (checkIfFrameIsEmpty frameData)).
Proof.
  intros Hi Hj. unfold inferred_marks, marks.
  rewrite square_cells_columns by assumption.
  rewrite square_cells_rows by assumption.
  rewrite square_cells_frameWidth by assumption.
  rewrite square_cells_frameHeight by assumption.
  assert (Hr53 : r <= 2 ^ 53) by nia. assert (Hs53 : s <= 2 ^ 53) by nia.
  rewrite !counter_integer by lia.
  rewrite (mul_exact (Z.of_nat i) c) by nia.
  rewrite add_exact by nia.
  rewrite integer_leb by nia.
  replace (r * c <=? Z.of_nat i * c + Z.of_nat j) with false by (symmetry; apply Z.leb_gt; nia).
  rewrite !mul_exact by nia. reflexivity.
Qed.

Lemma square_sheet_layout (fuel : nat) :
  (Z.to_nat r < fuel)%nat -> (Z.to_nat c < fuel)%nat ->
  getRowsAndColumns fuel host {| image := Some img |} totalFrames =
  Ok {| rows := integer r;
        columns := integer c;
        frameWidth := integer s;
        frameHeight := integer s;
        emptyFrames :=
          map (fun rc => {| row := integer (Z.of_nat (fst rc));
                            col := integer (Z.of_nat (snd rc)) |})
            (List.filter (sampled_empty host img s) (cells (Z.to_nat r) (Z.to_nat c))) |}.
Proof.
  intros HfR HfC.
  assert (Hr53 : r <= 2 ^ 53) by nia. assert (Hs53 : s <= 2 ^ 53) by nia.
  rewrite (getRowsAndColumns_returns host img totalFrames (Z.to_nat r) (Z.to_nat c) fuel
             Hctx Hdraw).
  - rewrite square_cells_columns by assumption.
    rewrite square_cells_rows by assumption.
    rewrite square_cells_frameWidth by assumption.
    rewrite square_cells_frameHeight by assumption.
    do 2 f_equal.
    rewrite (filter_ext_in (kept (inferred_marks host img totalFrames))
               (sampled_empty host img s)).
    + apply map_ext_in. intros [i j] Hin. apply filter_In in Hin as [Hin _].
      apply in_cells in Hin as [Hi Hj]. unfold cell. cbn [fst snd].
      now rewrite !counter_integer by lia.
    + intros [i j] Hin. apply in_cells in Hin as [Hi Hj].
      unfold kept, sampled_empty. cbn [fst snd].
      now rewrite square_sheet_marks.
  - rewrite square_cells_rows by assumption. apply trips_integer. lia.
  - rewrite square_cells_columns by assumption. apply trips_integer. lia.
  - exact HfR.
  - exact HfC.
  - intros i j Hi Hj. rewrite square_sheet_marks by assumption.
    destruct (Hdata (integer (Z.of_nat j * s)) (integer (Z.of_nat i * s)) (integer s)
                (integer s)) as [d ->].
    simpl. eauto.
Qed.

Lemma square_sheet_frame (i j : nat) :
  (i < Z.to_nat r)%nat -> (j < Z.to_nat c)%nat ->
  frame_at (integer s) (integer s) (counter i) (counter j) = square_frame s (i, j).
Proof.
  intros Hi Hj. unfold frame_at, square_frame. cbn [fst snd].
  assert (Hr53 : r <= 2 ^ 53) by nia. assert (Hs53 : s <= 2 ^ 53) by nia.
  rewrite !counter_integer by lia. now rewrite !mul_exact by nia.
Qed.

Lemma all_ratios_one {A : Type} (l : list (Scaled A)) :
  (forall x, In x l -> scaleRatio x = 1%float) ->
  l = map (fun f => {| base := f; scaleRatio := 1 |}) (map base l).
Proof.
  intros Hall. induction l as [|[f ratio] l IH]; [reflexivity|]. simpl.
  rewrite <- IH by (intros x Hx; apply Hall; now right).
  f_equal. f_equal. apply (Hall {| base := f; scaleRatio := ratio |}). now left.
Qed.

Hypothesis Hss : s * s <= 2 ^ 53.

Lemma square_sheet_manifest (fuel : nat) :
  (Z.to_nat r < fuel)%nat -> (Z.to_nat c < fuel)%nat ->
  parseSpriteData fuel host {| image := Some img |} (Some totalFrames) =
  Ok (Some {| standalone_frames :=
                map (fun rc => {| base := square_frame s rc; scaleRatio := 1 |})
                  (List.filter (fun rc => negb (sampled_empty host img s rc))
                     (cells (Z.to_nat r) (Z.to_nat c)));
              standalone_meta :=
                {| version := "1.0";
                   size := Size.mk (integer (c * s)) (integer (r * s));
                   meta_rows := integer r;
                   meta_columns := integer c;
                   meta_frameWidth := integer s;
                   meta_frameHeight := integer s;
                   scale := "1" |} |}).
Proof.
  intros HfR HfC.
  assert (Hr53 : r <= 2 ^ 53) by nia. assert (Hs53 : s <= 2 ^ 53) by nia.
  assert (HR : trips (integer r) (Z.to_nat r)) by (apply trips_integer; lia).
  assert (HC : trips (integer c) (Z.to_nat c)) by (apply trips_integer; lia).
  unfold parseSpriteData.
  assert (Htruthy : truthy (Some totalFrames) = Some totalFrames).
  { unfold truthy, is_nan.
    rewrite <- integer_zero.
    rewrite integer_eqb by nia.
    replace (r * c =? 0) with false by (symmetry; apply Z.eqb_neq; nia).
    now rewrite (integer_number (r * c)) by nia. }
  rewrite Htruthy. cbn [image].
  rewrite (getRowsAndColumns_returns host img totalFrames (Z.to_nat r) (Z.to_nat c) fuel
             Hctx Hdraw); try assumption.
  2: { rewrite square_cells_rows by assumption. exact HR. }
  2: { rewrite square_cells_columns by assumption. exact HC. }
  2: { intros i j Hi Hj. rewrite square_sheet_marks by assumption.
       destruct (Hdata (integer (Z.of_nat j * s)) (integer (Z.of_nat i * s)) (integer s)
                   (integer s)) as [d ->].
       simpl. eauto. }
  rewrite square_cells_columns by assumption.
  rewrite square_cells_rows by assumption.
  rewrite square_cells_frameWidth by assumption.
  rewrite square_cells_frameHeight by assumption.
  cbn [bind]. rewrite nonJsonFrames_collect.
  cbn [rows columns frameWidth frameHeight emptyFrames].
  rewrite (collect_returns _ _ _ (integer r) (Z.to_nat r) (Z.to_nat c) fuel HR HC HfR HfC)
    by (intros; eauto).
  cbn [bind width height]. do 3 f_equal.
  set (marked := List.filter (kept (inferred_marks host img totalFrames))
                   (cells (Z.to_nat r) (Z.to_nat c))).
  assert (Hfs : map (made (frame_at (integer s) (integer s)))
                  (List.filter
                     (kept (fun r0 c0 =>
                              Ok (negb (isExcluded
                                          (map (fun rc => cell (fst rc) (snd rc)) marked)
                                          r0 c0))))
                     (cells (Z.to_nat r) (Z.to_nat c))) =
                map (square_frame s)
                  (List.filter (fun rc => negb (sampled_empty host img s rc))
                     (cells (Z.to_nat r) (Z.to_nat c)))).
  { rewrite (filter_ext_in _ (fun rc => negb (sampled_empty host img s rc))).
    - apply map_ext_in. intros [i j] Hin. apply filter_In in Hin as [Hin _].
      apply in_cells in Hin as [Hi Hj]. unfold made. cbn [fst snd].
      now apply square_sheet_frame.
    - intros [i j] Hin. apply in_cells in Hin as [Hi Hj].
      unfold kept at 1. cbn [fst snd returned]. f_equal. unfold marked.
      rewrite (isExcluded_made _ _ _ (Z.to_nat r) (Z.to_nat c) i j HR HC Hi Hj).
      unfold kept, sampled_empty. cbn [fst snd]. now rewrite square_sheet_marks. }
  rewrite Hfs. unfold scaled_array, calculateScaleRatio.
  rewrite (all_ratios_one (processFrameArray _)).
  - now rewrite processFrameArray_base, map_map.
  - apply (same_area_ratios (integer (s * s))).
    + intros f Hf. apply in_map_iff in Hf as (rc & <- & _).
      unfold area, frame_of, FrameData_HasFrame, square_frame. cbn [frame Rect.w Rect.h].
      apply mul_exact; lia.
    + apply integer_number. nia.
Qed.
End SquareSheet.

(** X21: a sheet of [r] rows and [c] columns of square cells of side [s],
    given with its full count of [r * c] frames, is read as it is: the
    formulas give [c] columns and [r] rows, every cell is sampled on its own
    rectangle [(col * s, row * s, s, s)], none is taken for padding, and the
    empty cells are the cells whose sample is fully transparent, in row-major
    order; the manifest holds the other cells as frames of side [s] at
    [(col * s, row * s)], each with the ratio 1. *)
Theorem square_sheets_are_recovered :
  forall (r c s : Z) (host : Host) (fuel : nat),
    1 <= r -> 1 <= c <= 2 ^ 40 -> 1 <= s ->
    r * c <= 2 ^ 53 -> c * s <= 2 ^ 53 -> r * s <= 2 ^ 53 ->
    getContext host = true ->
    drawImage host {| width := integer (c * s); height := integer (r * s) |} = Ok tt ->
    (forall sx sy sw sh, exists frameData,
        getImageData host {| width := integer (c * s); height := integer (r * s) |}
          sx sy sw sh = Ok frameData) ->
    (Z.to_nat r < fuel)%nat -> (Z.to_nat c < fuel)%nat ->
    inferred_columns {| width := integer (c * s); height := integer (r * s) |}
      (integer (r * c)) = integer c /\
    inferred_rows {| width := integer (c * s); height := integer (r * s) |}
      (integer (r * c)) = integer r /\
    getRowsAndColumns fuel host
      {| image := Some {| width := integer (c * s); height := integer (r * s) |} |}
      (integer (r * c)) =
    Ok {| rows := integer r;
          columns := integer c;
          frameWidth := integer s;
          frameHeight := integer s;
          emptyFrames :=
            map (fun rc => {| row := integer (Z.of_nat (fst rc));
                              col := integer (Z.of_nat (snd rc)) |})
              (List.filter
                 (sampled_empty host
                    {| width := integer (c * s); height := integer (r * s) |} s)
                 (cells (Z.to_nat r) (Z.to_nat c))) |} /\
    (s * s <= 2 ^ 53 ->
     parseSpriteData fuel host
       {| image := Some {| width := integer (c * s); height := integer (r * s) |} |}
       (Some (integer (r * c))) =
     Ok (Some {| standalone_frames :=
                   map (fun rc => {| base := square_frame s rc; scaleRatio := 1 |})
                     (List.filter
                        (fun rc =>
                           negb (sampled_empty host
                                   {| width := integer (c * s); height := integer (r * s) |}
                                   s rc))
                        (cells (Z.to_nat r) (Z.to_nat c)));
                 standalone_meta :=
                   {| version := "1.0";
                      size := Size.mk (integer (c * s)) (integer (r * s));
                      meta_rows := integer r;
                      meta_columns := integer c;
                      meta_frameWidth := integer s;
                      meta_frameHeight := integer s;
                      scale := "1" |} |})).
Proof.
  intros r c s host fuel Hr Hc Hs Hrc Hcs Hrs Hctx Hdraw Hdata HfR HfC.
  split; [now apply square_cells_columns|].
  split; [now apply square_cells_rows|].
  split; [now apply square_sheet_layout|].
  intros Hss. now apply square_sheet_manifest.
Qed.

Lemma square_sheets_are_recovered_witness :
  inferred_columns {| width := integer (4 * 128); height := integer (2 * 128) |}
    (integer (2 * 4)) = integer 4 /\
  inferred_rows {| width := integer (4 * 128); height := integer (2 * 128) |}
    (integer (2 * 4)) = integer 2 /\
  getRowsAndColumns 5 opaque_host
    {| image := Some {| width := integer (4 * 128); height := integer (2 * 128) |} |}
    (integer (2 * 4)) =
  Ok {| rows := integer 2;
        columns := integer 4;
        frameWidth := integer 128;
        frameHeight := integer 128;
        emptyFrames :=
          map (fun rc => {| row := integer (Z.of_nat (fst rc));
                            col := integer (Z.of_nat (snd rc)) |})
            (List.filter
               (sampled_empty opaque_host
                  {| width := integer (4 * 128); height := integer (2 * 128) |} 128)
               (cells (Z.to_nat 2) (Z.to_nat 4))) |} /\
  (128 * 128 <= 2 ^ 53 ->
   parseSpriteData 5 opaque_host
     {| image := Some {| width := integer (4 * 128); height := integer (2 * 128) |} |}
     (Some (integer (2 * 4))) =
   Ok (Some {| standalone_frames :=
                 map (fun rc => {| base := square_frame 128 rc; scaleRatio := 1 |})
                   (List.filter
                      (fun rc =>
                         negb (sampled_empty opaque_host
                                 {| width := integer (4 * 128); height := integer (2 * 128) |}
                                 128 rc))
                      (cells (Z.to_nat 2) (Z.to_nat 4)));
               standalone_meta :=
                 {| version := "1.0";
                    size := Size.mk (integer (4 * 128)) (integer (2 * 128));
                    meta_rows := integer 2;
                    meta_columns := integer 4;
                    meta_frameWidth := integer 128;
                    meta_frameHeight := integer 128;
                    scale := "1" |} |})).
Proof.
  apply (square_sheets_are_recovered 2 4 128 opaque_host 5%nat); try lia.
  - reflexivity.
  - reflexivity.
  - intros sx sy sw sh. eexists. reflexivity.
Defined.

(** ** Sheets whose last row is partly filled *)

Section PartialLastRow.
Variables r c s k : Z.
Hypothesis Hk : 0 <= k.
Hypothesis Hkr : k < r.
Hypothesis Hkc : k < c.
Hypothesis Hc : c <= 2 ^ 24.
Hypothesis Hs : 1 <= s.
Hypothesis Hrc : r * c <= 2 ^ 50.
Hypothesis Hcs : c * s <= 2 ^ 53.
Hypothesis Hrs : r * s <= 2 ^ 53.

Local Abbreviation img := ({| width := integer (c * s); height := integer (r * s) |}).
Local Abbreviation totalFrames := (integer (r * c - k)).

Lemma partial_row_columns : inferred_columns img totalFrames = integer c.
Proof.
  unfold inferred_columns. cbn [width height].
  assert (Hr1z : 1 <= r) by lia. assert (Hc1z : 1 <= c) by lia.
  assert (Hr53 : r <= 2 ^ 53) by nia.
  assert (HT : 1 <= r * c - k <= 2 ^ 53) by nia.
  pose proof (IZR_bounds r 53 ltac:(lia) ltac:(lia)) as [Hr1 Hr2].
  pose proof (IZR_bounds c 24 ltac:(lia) ltac:(lia)) as [Hc1 Hc2].
  assert (Hs1 : (1 <= IZR s)%R) by (apply IZR_le; lia).
  assert (Hk0 : (0 <= IZR k)%R) by (apply IZR_le; lia).
  assert (Hkr' : (IZR k + 1 <= IZR r)%R) by (rewrite <- plus_IZR; apply IZR_le; lia).
  assert (Hkc' : (IZR k + 1 <= IZR c)%R) by (rewrite <- plus_IZR; apply IZR_le; lia).
  set (U := bpow (-52)).
  assert (HU : (0 < U)%R) by apply bpow_gt_0.
  assert (HccU : (IZR c * IZR c * U <= / 16)%R).
  { assert (Hb : (bpow 24 * bpow 24 * U = / 16)%R).
    { unfold U. rewrite <- !bpow_plus. unfold bpow. simpl. lra. }
    assert (IZR c * IZR c <= bpow 24 * bpow 24)%R by nra. nra. }
  assert (HcU : (IZR c * U <= / 16)%R) by nra.
  assert (HU1 : (U <= / 16)%R) by nra.
  assert (H120 : (bpow (-120) * bpow 120 = 1)%R) by (rewrite <- bpow_plus; reflexivity).
  pose proof (bpow_gt_0 120) as Hp120. pose proof (bpow_gt_0 (-120)) as Hn120.
  pose proof (bpow_le 54 120 ltac:(lia)) as H54.
  change 54 with (53 + 1) in H54. rewrite (bpow_succ 53) in H54.
  pose proof (bpow_ge_1 53 ltac:(lia)) as H53'.
  pose proof (bpow_le 24 53 ltac:(lia)) as H2453.
  set (rho := (IZR c / IZR r)%R).
  assert (Hrho : (rho * IZR r = IZR c)%R) by (unfold rho; field; lra).
  assert (Hrho_pos : (bpow (-120) * 2 <= rho <= bpow 24)%R).
  { unfold rho. apply div_between; [lra|]. split; [|nra].
    assert (bpow (-120) * bpow 53 * 2 <= 1)%R; [|nra]. nra. }
  (* the quotient width / height *)
  destruct (div_close (integer (c * s)) (integer (r * s)) (IZR (c * s)) (IZR (r * s)))
    as (vq & Hq & Hvq).
  { apply integer_holds. nia. }
  { apply integer_holds. nia. }
  { apply within_normal. rewrite !mult_IZR.
    replace (IZR c * IZR s / (IZR r * IZR s))%R with rho by (unfold rho; field; lra).
    pose proof (bpow_le 24 120 ltac:(lia)). lra. }
  rewrite !mult_IZR in Hvq.
  replace (IZR c * IZR s / (IZR r * IZR s))%R with rho in Hvq by (unfold rho; field; lra).
  fold U in Hvq.
  (* the number under the square root, near A = c^2 - k c / r *)
  set (A := (IZR (r * c - k) * rho)%R).
  assert (HA : (A * IZR r = (IZR r * IZR c - IZR k) * IZR c)%R).
  { unfold A. rewrite minus_IZR, mult_IZR, Rmult_assoc, Hrho. reflexivity. }
  assert (HA1 : (IZR c * IZR c - IZR c + / 2 <= A)%R).
  { apply Rmult_le_reg_r with (IZR r); [lra|]. rewrite HA.
    destruct (Rle_or_lt (2 * IZR k) (IZR r)); nra. }
  assert (HA2 : (A <= IZR c * IZR c)%R).
  { apply Rmult_le_reg_r with (IZR r); [lra|]. rewrite HA. nra. }
  assert (HTq : (A * (1 - U) <= IZR (r * c - k) * vq <= A * (1 + U))%R).
  { assert (0 < IZR (r * c - k))%R by (apply IZR_lt; lia). unfold A. split; nra. }
  assert (HApos : (/ 2 <= A)%R) by nra.
  destruct (mul_close (integer (r * c - k)) (integer (c * s) / integer (r * s))
              (IZR (r * c - k)) vq) as (vp & Hp & Hvp).
  { apply integer_holds. lia. }
  { exact Hq. }
  { pose proof (bpow_le (-1021) 0 ltac:(lia)) as H0. rewrite bpow_0 in H0.
    assert (1 <= IZR (r * c - k))%R by (apply IZR_le; lia). lra. }
  { pose proof (bpow_le (-1021) (-120) ltac:(lia)). nra. }
  { apply within_normal.
    pose proof (bpow_plus 24 24) as H48. change (24 + 24) with 48 in H48.
    pose proof (bpow_le 49 120 ltac:(lia)) as H49.
    change 49 with (48 + 1) in H49. rewrite (bpow_succ 48) in H49.
    pose proof (bpow_le (-120) (-2) ltac:(lia)) as Hm2.
    assert (Hq4 : bpow (-2) = (/ 4)%R) by (unfold bpow; simpl; lra).
    split; nra. }
  fold U in Hvp.
  assert (Hvp' : (A * ((1 - U) * (1 - U)) <= vp <= A * ((1 + U) * (1 + U)))%R)
    by (split; nra).
  (* the square root *)
  set (d := (/ (8 * IZR c))%R).
  assert (Hd : (8 * IZR c * d = 1)%R) by (unfold d; field; lra).
  assert (Hd0 : (0 < d)%R) by nra.
  assert (Hlow : (IZR c - / 2 + d <= sqrt A)%R).
  { apply sqrt_at_least; [nra|].
    assert (Hdd : (d <= / 8)%R) by nra.
    nra. }
  assert (Hhigh : (sqrt A <= IZR c)%R).
  { rewrite <- (sqrt_square (IZR c)) by lra. now apply sqrt_le_1_alt. }
  assert (Hsqrt : (sqrt A * (1 - U) <= sqrt vp <= sqrt A * (1 + U))%R).
  { assert (HsA : (sqrt A * sqrt A = A)%R) by (apply sqrt_sqrt; lra).
    assert (HsA0 : (0 <= sqrt A)%R) by apply sqrt_pos.
    split.
    - rewrite <- (sqrt_square (sqrt A * (1 - U))) by nra.
      apply sqrt_le_1_alt. nra.
    - rewrite <- (sqrt_square (sqrt A * (1 + U))) by nra.
      apply sqrt_le_1_alt. nra. }
  destruct (sqrt_close _ vp Hp) as (vs & Hsq & Hvs).
  { apply within_normal.
    pose proof (bpow_le 25 120 ltac:(lia)) as H25.
    change 25 with (24 + 1) in H25. rewrite (bpow_succ 24) in H25.
    pose proof (bpow_le (-120) (-2) ltac:(lia)) as Hm2.
    assert (Hq4 : bpow (-2) = (/ 4)%R) by (unfold bpow; simpl; lra).
    split; nra. }
  fold U in Hvs.
  apply (Math_round_near _ vs c Hsq); [lia|].
  assert (HcdU : (2 * (IZR c * U) <= d)%R).
  { apply Rmult_le_reg_r with (8 * IZR c)%R; [lra|].
    replace (d * (8 * IZR c))%R with 1%R by lra. nra. }
  split; nra.
Qed.

Lemma partial_row_quotient :
  exists v : R,
    holds v (totalFrames / integer c)%float /\
    (let q := (IZR r - IZR k / IZR c)%R in
     let U := bpow (-52) in
     q * (1 - U) <= v <= q * (1 + U))%R.
Proof.
  assert (Hr1z : 1 <= r) by lia. assert (Hc1z : 1 <= c) by lia.
  assert (HT : 1 <= r * c - k <= 2 ^ 53) by nia.
  pose proof (IZR_bounds r 50 ltac:(lia) ltac:(nia)) as [Hr1 Hr2].
  pose proof (IZR_bounds c 24 ltac:(lia) ltac:(lia)) as [Hc1 Hc2].
  assert (Hk0 : (0 <= IZR k)%R) by (apply IZR_le; lia).
  assert (Hkc' : (IZR k + 1 <= IZR c)%R) by (rewrite <- plus_IZR; apply IZR_le; lia).
  assert (Hkr' : (IZR k + 1 <= IZR r)%R) by (rewrite <- plus_IZR; apply IZR_le; lia).
  pose proof (bpow_le 50 120 ltac:(lia)) as H50.
  pose proof (bpow_le (-120) (-1) ltac:(lia)) as Hm1.
  assert (Hhalf : bpow (-1) = (/ 2)%R) by (unfold bpow; simpl; lra).
  assert (Hq : (IZR (r * c - k) / IZR c = IZR r - IZR k / IZR c)%R).
  { rewrite minus_IZR, mult_IZR. field. lra. }
  assert (Hkc1 : (0 <= IZR k / IZR c <= IZR k)%R) by (apply div_between; [lra|split; nra]).
  destruct (div_close (integer (r * c - k)) (integer c) (IZR (r * c - k)) (IZR c))
    as (v & Hv & Hvq).
  { apply integer_holds. lia. }
  { apply integer_holds. lia. }
  { apply within_normal. rewrite Hq. lra. }
  rewrite Hq in Hvq. now exists v.
Qed.

(** A last row that is less than half full is not counted. *)
Lemma partial_row_dropped : c < 2 * k -> inferred_rows img totalFrames = integer (r - 1).
Proof.
  intros Hmore. unfold inferred_rows. rewrite partial_row_columns.
  destruct partial_row_quotient as (v & Hv & Hvq). cbv zeta in Hvq.
  assert (Hr1z : 2 <= r) by lia. assert (Hc1z : 1 <= c) by lia.
  assert (Hr53 : r <= 2 ^ 53) by nia.
  pose proof (IZR_bounds r 50 ltac:(lia) ltac:(nia)) as [Hr1 Hr2].
  pose proof (IZR_bounds c 24 ltac:(lia) ltac:(lia)) as [Hc1 Hc2].
  assert (Hr2' : (2 <= IZR r)%R) by (apply IZR_le; lia).
  assert (Hkc' : (IZR k + 1 <= IZR c)%R) by (rewrite <- plus_IZR; apply IZR_le; lia).
  assert (Hmore' : (IZR c + 1 <= 2 * IZR k)%R).
  { rewrite <- mult_IZR, <- plus_IZR. apply IZR_le. lia. }
  assert (Hrc' : (IZR r * IZR c <= bpow 50)%R).
  { rewrite <- mult_IZR, bpow_IZR by lia. now apply IZR_le. }
  set (U := bpow (-52)) in *.
  assert (HU : (0 < U)%R) by apply bpow_gt_0.
  assert (HU4 : (bpow 50 * U = / 4)%R).
  { unfold U. rewrite <- bpow_plus. unfold bpow. simpl. lra. }
  pose proof (bpow_ge_1 50 ltac:(lia)) as H50.
  set (d := (/ (2 * IZR c))%R).
  assert (Hd : (2 * IZR c * d = 1)%R) by (unfold d; field; lra).
  assert (Hd0 : (0 < d)%R) by nra.
  set (x := (IZR k / IZR c)%R) in *.
  assert (Hx : (x * IZR c = IZR k)%R) by (unfold x; field; lra).
  assert (Hx1 : (/ 2 + d <= x <= 1 - 2 * d)%R).
  { split; apply Rmult_le_reg_r with (IZR c); try lra; rewrite Hx; nra. }
  assert (HrU : (IZR r * U <= d / 2)%R).
  { apply Rmult_le_reg_r with (2 * IZR c)%R; [lra|].
    replace (d / 2 * (2 * IZR c))%R with (/ 2)%R by lra. nra. }
  apply (Math_round_near _ v (r - 1) Hv); [lia|].
  rewrite minus_IZR. split; nra.
Qed.

Hypothesis Hhalf : 2 * k < c.

Lemma partial_row_rows : inferred_rows img totalFrames = integer r.
Proof.
  unfold inferred_rows. rewrite partial_row_columns.
  destruct partial_row_quotient as (v & Hv & Hvq). cbv zeta in Hvq.
  assert (Hr1z : 1 <= r) by lia. assert (Hc1z : 1 <= c) by lia.
  assert (Hr53 : r <= 2 ^ 53) by nia.
  pose proof (IZR_bounds r 50 ltac:(lia) ltac:(nia)) as [Hr1 Hr2].
  pose proof (IZR_bounds c 24 ltac:(lia) ltac:(lia)) as [Hc1 Hc2].
  assert (Hk0 : (0 <= IZR k)%R) by (apply IZR_le; lia).
  assert (Hkc' : (2 * IZR k + 1 <= IZR c)%R).
  { rewrite <- mult_IZR, <- plus_IZR. apply IZR_le. lia. }
  assert (Hrc' : (IZR r * IZR c <= bpow 50)%R).
  { rewrite <- mult_IZR, bpow_IZR by lia. now apply IZR_le. }
  set (U := bpow (-52)) in *.
  assert (HU : (0 < U)%R) by apply bpow_gt_0.
  assert (HU4 : (bpow 50 * U = / 4)%R).
  { unfold U. rewrite <- bpow_plus. unfold bpow. simpl. lra. }
  pose proof (bpow_ge_1 50 ltac:(lia)) as H50.
  set (d := (/ (2 * IZR c))%R).
  assert (Hd : (2 * IZR c * d = 1)%R) by (unfold d; field; lra).
  assert (Hd0 : (0 < d)%R) by nra.
  set (x := (IZR k / IZR c)%R) in *.
  assert (Hx : (x * IZR c = IZR k)%R) by (unfold x; field; lra).
  assert (Hx1 : (0 <= x <= / 2 - d)%R).
  { split; apply Rmult_le_reg_r with (IZR c); try lra; rewrite Hx; nra. }
  assert (HrU : (IZR r * U <= d / 2)%R).
  { apply Rmult_le_reg_r with (2 * IZR c)%R; [lra|].
    replace (d / 2 * (2 * IZR c))%R with (/ 2)%R by lra. nra. }
  apply (Math_round_near _ v r Hv); [lia|].
  split; nra.
Qed.
End PartialLastRow.

Section PartialSheet.
Variables r c s k : Z.
Variable host : Host.
Hypothesis Hk : 0 <= k.
Hypothesis Hkr : k < r.
Hypothesis Hkc : 2 * k < c.
Hypothesis Hc : c <= 2 ^ 24.
Hypothesis Hs : 1 <= s.
Hypothesis Hrc : r * c <= 2 ^ 50.
Hypothesis Hcs : c * s <= 2 ^ 53.
Hypothesis Hrs : r * s <= 2 ^ 53.

Local Abbreviation img := ({| width := integer (c * s); height := integer (r * s) |}).
Local Abbreviation totalFrames := (integer (r * c - k)).

Hypothesis Hctx : getContext host = true.
Hypothesis Hdraw : drawImage host img = Ok tt.
Hypothesis Hdata :
  forall sx sy sw sh, exists frameData, getImageData host img sx sy sw sh = Ok frameData.

Lemma partial_sheet_frameWidth : (width img / integer c)%float = integer s.
Proof. apply square_cells_frameWidth; lia. Qed.

Lemma partial_sheet_frameHeight : (height img / integer r)%float = integer s.
Proof. apply square_cells_frameHeight; lia. Qed.

Lemma partial_sheet_marks (i j : nat) :
  (i < Z.to_nat r)%nat -> (j < Z.to_nat c)%nat ->
  inferred_marks host img totalFrames (counter i) (counter j) =
  if beyond (r * c - k) c (i, j) then Ok true
  else
    frameData <- getImageData host img (integer (Z.of_nat j * s)) (integer (Z.of_nat i * s))
                   (integer s) (integer s) ;;
    Ok (checkIfFrameIsEmpty frameData).
Proof.
  intros Hi Hj. unfold inferred_marks, marks.
  rewrite partial_row_columns by (assumption || lia).
  rewrite partial_row_rows by (assumption || lia).
  rewrite partial_sheet_frameWidth, partial_sheet_frameHeight.
  assert (Hr53 : r <= 2 ^ 53) by nia. assert (Hs53 : s <= 2 ^ 53) by nia.
  rewrite !counter_integer by lia.
  rewrite (mul_exact (Z.of_nat i) c) by nia.
  rewrite add_exact by nia.
  rewrite integer_leb by nia.
  unfold beyond. cbn [fst snd].
  destruct (r * c - k <=? Z.of_nat i * c + Z.of_nat j); [reflexivity|].
  rewrite !mul_exact by nia. reflexivity.
Qed.

Lemma partial_sheet_kept (i j : nat) :
  (i < Z.to_nat r)%nat -> (j < Z.to_nat c)%nat ->
  kept (inferred_marks host img totalFrames) (i, j) =
  beyond (r * c - k) c (i, j) || sampled_empty host img s (i, j).
Proof.
  intros Hi Hj. unfold kept. cbn [fst snd]. rewrite partial_sheet_marks by assumption.
  now destruct (beyond (r * c - k) c (i, j)).
Qed.

Lemma partial_sheet_returns (i j : nat) :
  (i < Z.to_nat r)%nat -> (j < Z.to_nat c)%nat ->
  exists b, inferred_marks host img totalFrames (counter i) (counter j) = Ok b.
Proof.
  intros Hi Hj. rewrite partial_sheet_marks by assumption.
  destruct (beyond (r * c - k) c (i, j)); [eauto|].
  destruct (Hdata (integer (Z.of_nat j * s)) (integer (Z.of_nat i * s)) (integer s)
              (integer s)) as [d ->].
  simpl. eauto.
Qed.

Lemma partial_sheet_layout (fuel : nat) :
  (Z.to_nat r < fuel)%nat -> (Z.to_nat c < fuel)%nat ->
  getRowsAndColumns fuel host {| image := Some img |} totalFrames =
  Ok {| rows := integer r;
        columns := integer c;
        frameWidth := integer s;
        frameHeight := integer s;
        emptyFrames :=
          map (fun rc => {| row := integer (Z.of_nat (fst rc));
                            col := integer (Z.of_nat (snd rc)) |})
            (List.filter
               (fun rc => beyond (r * c - k) c rc || sampled_empty host img s rc)
               (cells (Z.to_nat r) (Z.to_nat c))) |}.
Proof.
  intros HfR HfC.
  assert (Hr53 : r <= 2 ^ 53) by nia. assert (Hs53 : s <= 2 ^ 53) by nia.
  rewrite (getRowsAndColumns_returns host img totalFrames (Z.to_nat r) (Z.to_nat c) fuel
             Hctx Hdraw).
  - rewrite partial_row_columns by (assumption || lia).
    rewrite partial_row_rows by (assumption || lia).
    rewrite partial_sheet_frameWidth, partial_sheet_frameHeight.
    do 2 f_equal.
    rewrite (filter_ext_in (kept (inferred_marks host img totalFrames))
               (fun rc => beyond (r * c - k) c rc || sampled_empty host img s rc)).
    + apply map_ext_in. intros [i j] Hin. apply filter_In in Hin as [Hin _].
      apply in_cells in Hin as [Hi Hj]. unfold cell. cbn [fst snd].
      now rewrite !counter_integer by lia.
    + intros [i j] Hin. apply in_cells in Hin as [Hi Hj].
      now apply partial_sheet_kept.
  - rewrite partial_row_rows by (assumption || lia). apply trips_integer. lia.
  - rewrite partial_row_columns by (assumption || lia). apply trips_integer. lia.
  - exact HfR.
  - exact HfC.
  - apply partial_sheet_returns.
Qed.

Hypothesis Hss : s * s <= 2 ^ 53.

Lemma partial_sheet_manifest (fuel : nat) :
  (Z.to_nat r < fuel)%nat -> (Z.to_nat c < fuel)%nat ->
  parseSpriteData fuel host {| image := Some img |} (Some totalFrames) =
  Ok (Some {| standalone_frames :=
                map (fun rc => {| base := square_frame s rc; scaleRatio := 1 |})
                  (List.filter
                     (fun rc => negb (beyond (r * c - k) c rc || sampled_empty host img s rc))
                     (cells (Z.to_nat r) (Z.to_nat c)));
              standalone_meta :=
                {| version := "1.0";
                   size := Size.mk (integer (c * s)) (integer (r * s));
                   meta_rows := integer r;
                   meta_columns := integer c;
                   meta_frameWidth := integer s;
                   meta_frameHeight := integer s;
                   scale := "1" |} |}).
Proof.
  intros HfR HfC.
  assert (Hr53 : r <= 2 ^ 53) by nia. assert (Hs53 : s <= 2 ^ 53) by nia.
  assert (HR : trips (integer r) (Z.to_nat r)) by (apply trips_integer; lia).
  assert (HC : trips (integer c) (Z.to_nat c)) by (apply trips_integer; lia).
  unfold parseSpriteData.
  assert (Htruthy : truthy (Some totalFrames) = Some totalFrames).
  { unfold truthy, is_nan.
    rewrite <- integer_zero.
    rewrite integer_eqb by nia.
    replace (r * c - k =? 0) with false by (symmetry; apply Z.eqb_neq; nia).
    now rewrite (integer_number (r * c - k)) by nia. }
  rewrite Htruthy. cbn [image].
  rewrite (getRowsAndColumns_returns host img totalFrames (Z.to_nat r) (Z.to_nat c) fuel
             Hctx Hdraw); try assumption.
  2: { rewrite partial_row_rows by (assumption || lia). exact HR. }
  2: { rewrite partial_row_columns by (assumption || lia). exact HC. }
  2: { apply partial_sheet_returns. }
  rewrite partial_row_columns by (assumption || lia).
  rewrite partial_row_rows by (assumption || lia).
  rewrite partial_sheet_frameWidth, partial_sheet_frameHeight.
  cbn [bind]. rewrite nonJsonFrames_collect.
  cbn [rows columns frameWidth frameHeight emptyFrames].
  rewrite (collect_returns _ _ _ (integer r) (Z.to_nat r) (Z.to_nat c) fuel HR HC HfR HfC)
    by (intros; eauto).
  cbn [bind width height]. do 3 f_equal.
  set (marked := List.filter (kept (inferred_marks host img totalFrames))
                   (cells (Z.to_nat r) (Z.to_nat c))).
  assert (Hfs : map (made (frame_at (integer s) (integer s)))
                  (List.filter
                     (kept (fun r0 c0 =>
                              Ok (negb (isExcluded
                                          (map (fun rc => cell (fst rc) (snd rc)) marked)
                                          r0 c0))))
                     (cells (Z.to_nat r) (Z.to_nat c))) =
                map (square_frame s)
                  (List.filter
                     (fun rc => negb (beyond (r * c - k) c rc || sampled_empty host img s rc))
                     (cells (Z.to_nat r) (Z.to_nat c)))).
  { rewrite (filter_ext_in _
               (fun rc => negb (beyond (r * c - k) c rc || sampled_empty host img s rc))).
    - apply map_ext_in. intros [i j] Hin. apply filter_In in Hin as [Hin _].
      apply in_cells in Hin as [Hi Hj]. unfold made. cbn [fst snd].
      apply (square_sheet_frame r c s); (lia || assumption).
    - intros [i j] Hin. apply in_cells in Hin as [Hi Hj].
      unfold kept at 1. cbn [fst snd returned]. f_equal. unfold marked.
      rewrite (isExcluded_made _ _ _ (Z.to_nat r) (Z.to_nat c) i j HR HC Hi Hj).
      now apply partial_sheet_kept. }
  rewrite Hfs. unfold scaled_array, calculateScaleRatio.
  rewrite (all_ratios_one (processFrameArray _)).
  - now rewrite processFrameArray_base, map_map.
  - apply (same_area_ratios (integer (s * s))).
    + intros f Hf. apply in_map_iff in Hf as (rc & <- & _).
      unfold area, frame_of, FrameData_HasFrame, square_frame. cbn [frame Rect.w Rect.h].
      apply mul_exact; lia.
    + apply integer_number. nia.
Qed.
End PartialSheet.

(** X22: a sheet of [r] rows and [c] columns of square cells of side [s]
    whose last row lacks its last [k] cells, given with its count of
    [r * c - k] frames, is read as it is when [k] is less than the number of
    rows and less than half the number of columns: the formulas give [c]
    columns and [r] rows, the empty cells are the [k] cells beyond the count
    and the cells whose sample is fully transparent, in row-major order, and
    the manifest holds the other cells as frames of side [s] at
    [(col * s, row * s)], each with the ratio 1. *)
Theorem partly_filled_last_row_is_recovered :
  forall (r c s k : Z) (host : Host) (fuel : nat),
    0 <= k -> k < r -> 2 * k < c -> c <= 2 ^ 24 -> 1 <= s ->
    r * c <= 2 ^ 50 -> c * s <= 2 ^ 53 -> r * s <= 2 ^ 53 ->
    getContext host = true ->
    drawImage host {| width := integer (c * s); height := integer (r * s) |} = Ok tt ->
    (forall sx sy sw sh, exists frameData,
        getImageData host {| width := integer (c * s); height := integer (r * s) |}
          sx sy sw sh = Ok frameData) ->
    (Z.to_nat r < fuel)%nat -> (Z.to_nat c < fuel)%nat ->
    inferred_columns {| width := integer (c * s); height := integer (r * s) |}
      (integer (r * c - k)) = integer c /\
    inferred_rows {| width := integer (c * s); height := integer (r * s) |}
      (integer (r * c - k)) = integer r /\
    getRowsAndColumns fuel host
      {| image := Some {| width := integer (c * s); height := integer (r * s) |} |}
      (integer (r * c - k)) =
    Ok {| rows := integer r;
          columns := integer c;
          frameWidth := integer s;
          frameHeight := integer s;
          emptyFrames :=
            map (fun rc => {| row := integer (Z.of_nat (fst rc));
                              col := integer (Z.of_nat (snd rc)) |})
              (List.filter
                 (fun rc =>
                    beyond (r * c - k) c rc ||
                    sampled_empty host
                      {| width := integer (c * s); height := integer (r * s) |} s rc)
                 (cells (Z.to_nat r) (Z.to_nat c))) |} /\
    (s * s <= 2 ^ 53 ->
     parseSpriteData fuel host
       {| image := Some {| width := integer (c * s); height := integer (r * s) |} |}
       (Some (integer (r * c - k))) =
     Ok (Some {| standalone_frames :=
                   map (fun rc => {| base := square_frame s rc; scaleRatio := 1 |})
                     (List.filter
                        (fun rc =>
                           negb (beyond (r * c - k) c rc ||
                                 sampled_empty host
                                   {| width := integer (c * s); height := integer (r * s) |}
                                   s rc))
                        (cells (Z.to_nat r) (Z.to_nat c)));
                 standalone_meta :=
                   {| version := "1.0";
                      size := Size.mk (integer (c * s)) (integer (r * s));
                      meta_rows := integer r;
                      meta_columns := integer c;
                      meta_frameWidth := integer s;
                      meta_frameHeight := integer s;
                      scale := "1" |} |})).
Proof.
  intros r c s k host fuel Hk Hkr Hkc Hc Hs Hrc Hcs Hrs Hctx Hdraw Hdata HfR HfC.
  split; [apply partial_row_columns; (assumption || lia)|].
  split; [apply partial_row_rows; (assumption || lia)|].
  split; [now apply partial_sheet_layout|].
  intros Hss. now apply partial_sheet_manifest.
Qed.

Lemma partly_filled_last_row_is_recovered_witness :
  inferred_columns {| width := integer (4 * 128); height := integer (2 * 128) |}
    (integer (2 * 4 - 1)) = integer 4 /\
  inferred_rows {| width := integer (4 * 128); height := integer (2 * 128) |}
    (integer (2 * 4 - 1)) = integer 2 /\
  getRowsAndColumns 5 opaque_host
    {| image := Some {| width := integer (4 * 128); height := integer (2 * 128) |} |}
    (integer (2 * 4 - 1)) =
  Ok {| rows := integer 2;
        columns := integer 4;
        frameWidth := integer 128;
        frameHeight := integer 128;
        emptyFrames :=
          map (fun rc => {| row := integer (Z.of_nat (fst rc));
                            col := integer (Z.of_nat (snd rc)) |})
            (List.filter
               (fun rc =>
                  beyond (2 * 4 - 1) 4 rc ||
                  sampled_empty opaque_host
                    {| width := integer (4 * 128); height := integer (2 * 128) |} 128 rc)
               (cells (Z.to_nat 2) (Z.to_nat 4))) |} /\
  (128 * 128 <= 2 ^ 53 ->
   parseSpriteData 5 opaque_host
     {| image := Some {| width := integer (4 * 128); height := integer (2 * 128) |} |}
     (Some (integer (2 * 4 - 1))) =
   Ok (Some {| standalone_frames :=
                 map (fun rc => {| base := square_frame 128 rc; scaleRatio := 1 |})
                   (List.filter
                      (fun rc =>
                         negb (beyond (2 * 4 - 1) 4 rc ||
                               sampled_empty opaque_host
                                 {| width := integer (4 * 128); height := integer (2 * 128) |}
                                 128 rc))
                      (cells (Z.to_nat 2) (Z.to_nat 4)));
               standalone_meta :=
                 {| version := "1.0";
                    size := Size.mk (integer (4 * 128)) (integer (2 * 128));
                    meta_rows := integer 2;
                    meta_columns := integer 4;
                    meta_frameWidth := integer 128;
                    meta_frameHeight := integer 128;
                    scale := "1" |} |})).
Proof.
  apply (partly_filled_last_row_is_recovered 2 4 128 1 opaque_host 5%nat); try lia.
  - reflexivity.
  - reflexivity.
  - intros sx sy sw sh. eexists. reflexivity.
Defined.

(** X23: when the last row of such a sheet is less than half full (it lacks
    [k] cells, with [c < 2 * k], [k < c] and [k < r]), the formulas still give
    [c] columns but only [r - 1] rows, so the grid has fewer cells than the
    sheet has frames and the manifest cannot hold them all. *)
Theorem sparse_last_row_is_dropped :
  forall (r c s k : Z),
    k < r -> k < c -> c < 2 * k -> c <= 2 ^ 24 -> 1 <= s ->
    r * c <= 2 ^ 50 -> c * s <= 2 ^ 53 -> r * s <= 2 ^ 53 ->
    inferred_columns {| width := integer (c * s); height := integer (r * s) |}
      (integer (r * c - k)) = integer c /\
    inferred_rows {| width := integer (c * s); height := integer (r * s) |}
      (integer (r * c - k)) = integer (r - 1) /\
    forall (fuel : nat) (host : Host) (data : StandaloneData),
      parseSpriteData fuel host
        {| image := Some {| width := integer (c * s); height := integer (r * s) |} |}
        (Some (integer (r * c - k))) = Ok (Some data) ->
      Z.of_nat (length (standalone_frames data)) <= (r - 1) * c < r * c - k.
Proof.
  intros r c s k Hkr Hkc Hmore Hc Hs Hrc Hcs Hrs.
  assert (Hk : 0 <= k) by lia.
  pose proof (partial_row_columns r c s k Hk Hkr Hkc Hc Hs Hrc Hcs Hrs) as Hcols.
  pose proof (partial_row_dropped r c s k Hk Hkr Hkc Hc Hs Hrc Hcs Hrs Hmore) as Hrows.
  split; [exact Hcols|]. split; [exact Hrows|].
  intros fuel host data Hrun. split; [|lia].
  destruct (parseSpriteData_Ok_inv _ _ _ _ _ Hrun) as (n & layout & fs & Hn & Hgrid & Hfs & ->).
  assert (n = integer (r * c - k)) as ->.
  { unfold truthy in Hn.
    destruct ((integer (r * c - k) =? 0)%float || is_nan (integer (r * c - k)));
      congruence. }
  destruct (getRowsAndColumns_Ok_inv _ _ _ _ _ Hgrid) as (HR & HC & _).
  rewrite Hrows in HR. rewrite Hcols in HC.
  destruct (nonJsonFrames_Ok_inv _ _ _ Hfs) as (R & C & HtR & HtC & ->).
  rewrite processFrameArray_length, length_map.
  rewrite HR in HtR. rewrite HC in HtC.
  assert (R = Z.to_nat (r - 1)) as ->.
  { apply (trips_unique _ _ _ HtR). apply trips_integer. nia. }
  etransitivity; [apply inj_le, filter_length_le|]. rewrite cells_length.
  destruct HtC as [H0|HtC]; [rewrite H0; nia|].
  assert (C = Z.to_nat c) as ->.
  { apply (trips_unique _ _ _ HtC). apply trips_integer. lia. }
  rewrite Nat2Z.inj_mul, !Z2Nat.id by lia. lia.
Qed.

Lemma sparse_last_row_is_dropped_witness :
  inferred_columns {| width := integer (4 * 128); height := integer (4 * 128) |}
    (integer (4 * 4 - 3)) = integer 4 /\
  inferred_rows {| width := integer (4 * 128); height := integer (4 * 128) |}
    (integer (4 * 4 - 3)) = integer (4 - 1) /\
  forall (fuel : nat) (host : Host) (data : StandaloneData),
    parseSpriteData fuel host
      {| image := Some {| width := integer (4 * 128); height := integer (4 * 128) |} |}
      (Some (integer (4 * 4 - 3))) = Ok (Some data) ->
    Z.of_nat (length (standalone_frames data)) <= (4 - 1) * 4 < 4 * 4 - 3.
Proof.
  apply (sparse_last_row_is_dropped 4 4 128 3); lia.
Defined.

(** ** Grouping under the name __proto__ *)

Lemma index_key_plain (i : nat) : index_key i <> proto_name.
Proof.
  unfold index_key. destruct (Nat.to_uint i); discriminate.
Qed.

Lemma inherited_keys_none (sprites : SpritesObject) (items : list GroupedFrame) :
  prototype sprites = Some items ->
  (inherited_keys sprites = [] <->
   forall i, (i < length items)%nat -> own sprites !! index_key i <> None).
Proof.
  intros Hproto. unfold inherited_keys. rewrite Hproto. split.
  - intros Hnone i Hi Hown.
    assert (Hin : In (index_key i)
                    (List.filter (fun key => match own sprites !! key with
                                             | Some _ => false
                                             | None => true
                                             end)
                       (map index_key (seq 0 (length items))))).
    { apply filter_In. split; [|now rewrite Hown].
      apply in_map. apply in_seq. lia. }
    rewrite Hnone in Hin. contradiction.
  - intros Hall.
    destruct (List.filter _ _) as [|key keys] eqn:Hkeys; [reflexivity|].
    assert (Hin : In key (key :: keys)) by now left.
    rewrite <- Hkeys in Hin. apply filter_In in Hin as [Hin Hown].
    apply in_map_iff in Hin as (i & <- & Hi). apply in_seq in Hi.
    destruct (own sprites !! index_key i) eqn:E; [discriminate|].
    exfalso. apply (Hall i); [lia|exact E].
Qed.

Section GroupingUnderProto.
Context {lower : CaseMapping}.
Variable data : SpriteData.
Variable found : string -> list GroupedFrame.
Variable names : list string.
Hypothesis Hscan : forall d, scan (frames data) d = Ok (found d).
Hypothesis Hproto : In proto_name names.

Lemma parseFrames_under_proto :
  ((exists i, (i < length (found proto_name))%nat /\ ~ In (index_key i) names) ->
   parseFrames (Some data) (Some names) = Throw TypeError) /\
  ((forall i, (i < length (found proto_name))%nat -> In (index_key i) names) ->
   exists sprites,
     parseFrames (Some data) (Some names)
     = Ok (Some (Inheriting (found proto_name) sprites)) /\
     forall name,
       (In name names -> name <> proto_name ->
        sprites !! name = Some (bucket_of (found name))) /\
       (~ In name names \/ name = proto_name -> sprites !! name = None)).
Proof.
  unfold parseFrames.
  destruct (group_all_lookup _ _ Hscan names {| own := ∅; prototype := None |})
    as (sprites & -> & Hown & Hin & _).
  specialize (Hin Hproto). cbn [bind]. unfold scale_buckets.
  pose proof (inherited_keys_none sprites _ Hin) as Hnone.
  split.
  - intros (i & Hi & Hnot).
    destruct (inherited_keys sprites) as [|key keys]; [|reflexivity].
    exfalso. apply (proj1 Hnone eq_refl i Hi).
    rewrite (proj2 (Hown (index_key i))) by now left.
    cbn [own]. apply lookup_empty.
  - intros Hall. rewrite (proj2 Hnone).
    + rewrite Hin. cbn [bind]. eexists. split; [reflexivity|].
      intros name. rewrite lookup_fmap. split.
      * intros Hname Hne. now rewrite (proj1 (Hown name) Hname Hne).
      * intros Hname. rewrite (proj2 (Hown name) Hname). cbn [own]. now rewrite lookup_empty.
    + intros i Hi. rewrite (proj1 (Hown (index_key i)) (Hall i Hi) (index_key_plain i)).
      discriminate.
Qed.
End GroupingUnderProto.

(** X24: grouping with __proto__ among the names. The frames the name
    matches go into an array that becomes the prototype of the object
    returned, not a bucket of it. The second pass throws a TypeError as soon
    as one of them sits at an index that is not itself among the names; when
    there is none, or every index is a name, grouping returns the buckets of
    the other names on an object that inherits from that array. *)
Theorem grouping_with_proto_name :
  (forall (lower : CaseMapping) (m : MetaData) (l : list FrameData) (names : list string),
      In "__proto__"%string names ->
      ((exists i, (i < length (List.filter (named_by "__proto__") l))%nat /\
                  ~ In (index_key i) names) ->
       parseFrames (Some {| frames := ArrayForm l; meta := m |}) (Some names)
       = Throw TypeError) /\
      ((forall i, (i < length (List.filter (named_by "__proto__") l))%nat ->
                  In (index_key i) names) ->
       exists sprites,
         parseFrames (Some {| frames := ArrayForm l; meta := m |}) (Some names)
         = Ok (Some (Inheriting (map grouped (List.filter (named_by "__proto__") l)) sprites)) /\
         forall name,
           (In name names -> name <> "__proto__"%string ->
            sprites !! name = Some (bucket_of (map grouped (List.filter (named_by name) l)))) /\
           (~ In name names \/ name = "__proto__"%string -> sprites !! name = None))) /\
  (forall (lower : CaseMapping) (m : MetaData) (l : list (string * FrameData))
          (names : list string),
      In "__proto__"%string names ->
      ((exists i, (i < length (List.filter (keyed_by "__proto__") l))%nat /\
                  ~ In (index_key i) names) ->
       parseFrames (Some {| frames := hash_of l; meta := m |}) (Some names)
       = Throw TypeError) /\
      ((forall i, (i < length (List.filter (keyed_by "__proto__") l))%nat ->
                  In (index_key i) names) ->
       exists sprites,
         parseFrames (Some {| frames := hash_of l; meta := m |}) (Some names)
         = Ok (Some (Inheriting
                       (map (fun kv => grouped (snd kv)) (List.filter (keyed_by "__proto__") l))
                       sprites)) /\
         forall name,
           (In name names -> name <> "__proto__"%string ->
            sprites !! name =
            Some (bucket_of (map (fun kv => grouped (snd kv))
                               (List.filter (keyed_by name) l)))) /\
           (~ In name names \/ name = "__proto__"%string -> sprites !! name = None))) /\
  (forall i : nat, index_key i <> "__proto__"%string) /\
  map index_key [0; 7; 12]%nat = ["0"; "7"; "12"]%string.
Proof.
  split; [|split; [|split]].
  - intros lower m l names Hproto.
    pose proof (parseFrames_under_proto {| frames := ArrayForm l; meta := m |}
                  (fun d => map grouped (List.filter (named_by d) l)) names) as H.
    cbv beta in H. rewrite !length_map in H. apply H; [|exact Hproto].
    intros d. simpl. now rewrite scan_array_spec.
  - intros lower m l names Hproto.
    pose proof (parseFrames_under_proto {| frames := hash_of l; meta := m |}
                  (fun d => map (fun kv => grouped (snd kv)) (List.filter (keyed_by d) l))
                  names) as H.
    cbv beta in H. rewrite !length_map in H. apply H; [|exact Hproto].
    intros d. simpl. apply scan_hash_spec.
  - exact index_key_plain.
  - reflexivity.
Qed.

Lemma grouping_with_proto_name_witness :
  parseFrames
    (Some {| frames := ArrayForm [with_filename "__proto__0" (plain_frame 2 2);
                                  with_filename "__proto__1" (plain_frame 2 2)];
             meta := no_meta |})
    (Some ["0"; "__proto__"]%string)
  = Throw TypeError /\
  exists sprites,
    parseFrames
      (Some {| frames := ArrayForm [with_filename "__proto__0" (plain_frame 2 2)];
               meta := no_meta |})
      (Some ["0"; "__proto__"]%string)
    = Ok (Some (Inheriting
                  (map grouped
                     (List.filter (named_by "__proto__")
                        [with_filename "__proto__0" (plain_frame 2 2)]))
                  sprites)) /\
    forall name,
      (In name ["0"; "__proto__"]%string -> name <> "__proto__"%string ->
       sprites !! name =
       Some (bucket_of
               (map grouped
                  (List.filter (named_by name)
                     [with_filename "__proto__0" (plain_frame 2 2)])))) /\
      (~ In name ["0"; "__proto__"]%string \/ name = "__proto__"%string ->
       sprites !! name = None).
Proof.
  split.
  - apply (proj1 (proj1 grouping_with_proto_name ascii_mapping no_meta
                    [with_filename "__proto__0" (plain_frame 2 2);
                     with_filename "__proto__1" (plain_frame 2 2)]
                    ["0"; "__proto__"]%string (or_intror (or_introl eq_refl)))).
    exists 1%nat. split; [simpl; lia|].
    intros [H|[H|[]]]; discriminate.
  - apply (proj2 (proj1 grouping_with_proto_name ascii_mapping no_meta
                    [with_filename "__proto__0" (plain_frame 2 2)]
                    ["0"; "__proto__"]%string (or_intror (or_introl eq_refl)))).
    intros i Hi. simpl in Hi. destruct i as [|i]; [now left|lia].
Defined.
